(** * NaratedVideoCreator: text chunking, synthesis driver, media pairing

    A shallow embedding of [src/tts_synthesizer.py] and
    [src/video_producer.py].

    Modelling conventions.
    - A Python [str] is a [string] whose characters are the code points
      U+0000 to U+00FF, one 8-bit [ascii] value each; on them the character
      classes ([isspace], [isdigit], [lower]) and [int] are CPython's.
      Texts and file names with other characters are outside the model.
      A character above U+007F is written by its code, as in
      [superscript_two]: a string literal holds the bytes of its UTF-8
      encoding, not such a character.
    - A Python [int] is a [Z]; [len] results are converted with [Z.of_nat].
    - A Python [float] (clip durations, [st_mtime]) is a primitive binary64
      [float].
    - An exception is a value of [exn]; code that may raise returns a
      [result].
    - A [dict] is a [gmap], a [set] a [gset]; the iteration order of a set
      is not fixed by Python, so it is an explicit parameter of the model.
    - A file inside a fixed directory is named by its file name. *)

From Stdlib Require Import ZArith Lia Ascii String Floats.
From stdpp Require Import base option list sorting strings gmap.

Local Open Scope Z_scope.

(** ** Exceptions *)

Inductive exn : Type :=
  | ValueError (msg : string)
  | KeyError (key : string)
  | FileNotFoundError (msg : string)
  | OSError (msg : string).

Inductive result (A : Type) : Type :=
  | Ok (a : A)
  | Raise (e : exn).
Arguments Ok {A} a.
Arguments Raise {A} e.

(** Sequencing: the first exception is propagated. *)
#[global] Instance result_ret : MRet result := @Ok.
#[global] Instance result_bind : MBind result := λ A B k r,
  match r with
  | Ok a => k a
  | Raise e => Raise e
  end.
#[global] Instance result_fmap : FMap result := λ A B f r,
  match r with
  | Ok a => Ok (f a)
  | Raise e => Raise e
  end.

(** A [for] loop whose body may raise: the state is threaded through the
    iterations and the first exception ends the loop. *)
Fixpoint for_each {A S} (body : S → A → result S) (xs : list A) (s : S)
  : result S :=
  match xs with
  | [] => Ok s
  | x :: xs' => s' ← body s x; for_each body xs' s'
  end.

(** ** Built-in string operations *)

Definition LF : ascii := "010"%char.
Definition CR : ascii := "013"%char.

(** [str.isspace] on one character, which is also the class [\s] of
    [re]: TAB..CR, FS..US, the space, NEL (U+0085) and the no-break space
    (U+00A0). *)
Definition isspace (c : ascii) : bool :=
  let n := nat_of_ascii c in
  ((9 <=? n)%nat && (n <=? 13)%nat) || ((28 <=? n)%nat && (n <=? 32)%nat)
  || (n =? 133)%nat || (n =? 160)%nat.

(** [w] followed by the words [ws], unless [w] is empty. *)
Definition push (w : string) (ws : list string) : list string :=
  match w with
  | "" => ws
  | _ => w :: ws
  end.

(** [scan_words s] is the run of non-whitespace characters [s] starts with
    and the words that follow that run. *)
Fixpoint scan_words (s : string) : string * list string :=
  match s with
  | "" => ("", [])
  | String c s' =>
      let '(w, ws) := scan_words s' in
      if isspace c then ("", push w ws) else (String c w, ws)
  end.

(** [s.split()]: the maximal runs of non-whitespace characters. *)
Definition split_ws (s : string) : list string :=
  let '(w, ws) := scan_words s in push w ws.

Fixpoint lstrip (s : string) : string :=
  match s with
  | "" => ""
  | String c s' => if isspace c then lstrip s' else s
  end.

Fixpoint rstrip (s : string) : string :=
  match s with
  | "" => ""
  | String c s' =>
      match rstrip s' with
      | "" => if isspace c then "" else String c ""
      | r => String c r
      end
  end.

(** [s.strip()] *)
Definition strip (s : string) : string := lstrip (rstrip s).

(** Truth value of a [str]: non-empty. *)
Definition nonempty (s : string) : bool :=
  match s with
  | "" => false
  | _ => true
  end.

(** [sep.join(l)] *)
Fixpoint join (sep : string) (l : list string) : string :=
  match l with
  | [] => ""
  | [x] => x
  | x :: xs => x +:+ sep +:+ join sep xs
  end.

(** [s.replace(a, new)] for a one-character pattern. *)
Fixpoint replace_char (a : ascii) (new : string) (s : string) : string :=
  match s with
  | "" => ""
  | String c s' =>
      if Ascii.eqb c a then new +:+ replace_char a new s'
      else String c (replace_char a new s')
  end.

(** [s.replace(a + b, new)] for a two-character pattern; occurrences are
    taken from left to right and do not overlap. *)
Fixpoint replace_pair (a b : ascii) (new : string) (s : string) : string :=
  match s with
  | "" => ""
  | String c s' =>
      match s' with
      | String c' s'' =>
          if Ascii.eqb c a && Ascii.eqb c' b
          then new +:+ replace_pair a b new s''
          else String c (replace_pair a b new s')
      | "" => String c ""
      end
  end.

(** The character [c] put in front of the first piece. *)
Definition cons_hd (c : ascii) (pieces : list string) : list string :=
  match pieces with
  | [] => [String c ""]
  | p :: ps => String c p :: ps
  end.

(** [s.split(a + b)] for a two-character separator. *)
Fixpoint split_pair (a b : ascii) (s : string) : list string :=
  match s with
  | "" => [""]
  | String c s' =>
      match s' with
      | String c' s'' =>
          if Ascii.eqb c a && Ascii.eqb c' b
          then "" :: split_pair a b s''
          else cons_hd c (split_pair a b s')
      | "" => [String c ""]
      end
  end.

(** The class [[.!?]] of the sentence pattern. *)
Definition is_terminator (c : ascii) : bool :=
  Ascii.eqb c "."%char || Ascii.eqb c "!"%char || Ascii.eqb c "?"%char.

(** Scanner state of [re.split(r"(?<=[.!?])\s+", _)]: inside a separator
    match, or outside one, remembering whether the previous character
    satisfies the look-behind. *)
Inductive scan_mode : Type :=
  | InSeparator
  | Outside (after_terminator : bool).

Fixpoint re_split_go (mode : scan_mode) (s : string) : list string :=
  match s with
  | "" => [""]
  | String c s' =>
      match mode with
      | InSeparator =>
          if isspace c then re_split_go InSeparator s'
          else cons_hd c (re_split_go (Outside (is_terminator c)) s')
      | Outside true =>
          if isspace c then "" :: re_split_go InSeparator s'
          else cons_hd c (re_split_go (Outside (is_terminator c)) s')
      | Outside false =>
          cons_hd c (re_split_go (Outside (is_terminator c)) s')
      end
  end.

(** [re.split(r"(?<=[.!?])\s+", s)] *)
Definition re_split_sentences (s : string) : list string :=
  re_split_go (Outside false) s.

(** ** Built-in sequence operations *)

(** [range(start, stop, step)] *)
Definition py_range (start stop step : Z) : result (list Z) :=
  if step =? 0 then Raise (ValueError "range() arg 3 must not be zero")
  else
    let count :=
      if 0 <? step then
        if start <? stop then (stop - start - 1) / step + 1 else 0
      else
        if stop <? start then (start - stop - 1) / (- step) + 1 else 0 in
    Ok (map (fun k => start + Z.of_nat k * step) (seq 0 (Z.to_nat count))).

(** An index of a slice brought into [0 .. len]. *)
Definition clamp_index (len i : Z) : Z :=
  if i <? 0 then Z.max 0 (i + len) else Z.min i len.

(** [l[i:j]] *)
Definition slice {A} (l : list A) (i j : Z) : list A :=
  let len := Z.of_nat (length l) in
  let a := clamp_index len i in
  let b := clamp_index len j in
  take (Z.to_nat (b - a)) (drop (Z.to_nat a) l).

(** ** [SpeechSynthesizer._split_text] *)

(** The three loop variables of [_split_text]. *)
Record packer : Type := Packer {
  chunks : list string;
  current_sentences : list string;
  word_count : Z;
}.

(** Truth value of a list: non-empty. *)
Definition truthy {A} (l : list A) : bool :=
  match l with
  | [] => false
  | _ => true
  end.

(** [chunks.append(" ".join(current_sentences))] and the two resets. *)
Definition flush (st : packer) : packer :=
  Packer (chunks st ++ [join " " (current_sentences st)]) [] 0.

(** Body of [for sentence in sentences]. *)
Definition pack_sentence (max_words : Z) (st : packer) (sentence : string)
  : result packer :=
  let words := split_ws sentence in
  let n := Z.of_nat (length words) in
  if n =? 0 then Ok st
  else if max_words <? n then
    let st := if truthy (current_sentences st) then flush st else st in
    starts ← py_range 0 n max_words;
    Ok (Packer
          (chunks st ++
             map (fun i => join " " (slice words i (i + max_words))) starts)
          (current_sentences st) (word_count st))
  else if (max_words <? word_count st + n) && truthy (current_sentences st)
  then Ok (Packer (chunks st ++ [join " " (current_sentences st)])
             [sentence] n)
  else Ok (Packer (chunks st) (current_sentences st ++ [sentence])
             (word_count st + n)).

(** The stripped, non-empty sentences of one paragraph. *)
Definition sentences_of (paragraph : string) : list string :=
  filter (fun s => nonempty s) (map strip (re_split_sentences paragraph)).

(** Body of [for paragraph in paragraphs]. *)
Definition pack_paragraph (max_words : Z) (st : packer) (paragraph : string)
  : result packer :=
  for_each (pack_sentence max_words) (sentences_of paragraph) st.

Definition normalize (text : string) : string :=
  replace_char CR (String LF "") (replace_pair CR LF (String LF "") text).

Definition paragraphs_of (text : string) : list string :=
  filter (fun p => nonempty p) (map strip (split_pair LF LF (normalize text))).

Definition _split_text (text : string) (max_words : Z) : result (list string) :=
  st ← for_each (pack_paragraph max_words) (paragraphs_of text)
         (Packer [] [] 0);
  Ok (if truthy (current_sentences st)
      then chunks st ++ [join " " (current_sentences st)]
      else chunks st).

(** ** Sorting and file names *)

(** [sorted(l, key=key)]: Python's sort is stable, which fixes its result;
    insertion from the right keeps equal keys in their input order. *)
Section py_sorted.
Context {A K : Type} (key : A → K) (leb : K → K → bool).

Fixpoint insert_sorted (x : A) (l : list A) : list A :=
  match l with
  | [] => [x]
  | y :: l' =>
      if leb (key x) (key y) then x :: l else y :: insert_sorted x l'
  end.

Definition py_sorted (l : list A) : list A := foldr insert_sorted [] l.

(** The order [sorted] puts its result in. *)
Definition key_le (x y : A) : Prop := leb (key x) (key y) = true.
End py_sorted.

(** [s.rsplit(sep, 1)] when [sep in s]: the text before and after the last
    occurrence of [sep]; [None] when [sep] does not occur. *)
Fixpoint rsplit1 (sep : ascii) (s : string) : option (string * string) :=
  match s with
  | "" => None
  | String c s' =>
      match rsplit1 sep s' with
      | Some (before, after) => Some (String c before, after)
      | None => if Ascii.eqb c sep then Some ("", s') else None
      end
  end.

(** [PurePath.stem]: the name up to its last dot, when that dot is neither
    the first nor the last character. *)
Definition stem (name : string) : string :=
  match rsplit1 "."%char name with
  | Some (before, after) =>
      if nonempty before && nonempty after then before else name
  | None => name
  end.

(** [name.endswith(ext)] *)
Fixpoint ends_with (ext s : string) : bool :=
  String.eqb s ext ||
  match s with
  | "" => false
  | String _ s' => ends_with ext s'
  end.

(** [dir.glob("*" + ext)] over the entries of a directory, in the order in
    which the file system enumerates them; the match is case-sensitive, as
    on POSIX. *)
Definition glob (ext : string) (entries : list string) : list string :=
  filter (fun name => ends_with ext name) entries.

(** [str.lower] on one character: the letters A..Z and the letters
    U+00C0..U+00DE, the multiplication sign U+00D7 apart, are moved up by
    32. *)
Definition lower_char (c : ascii) : ascii :=
  let n := nat_of_ascii c in
  if ((65 <=? n)%nat && (n <=? 90)%nat)
     || ((192 <=? n)%nat && (n <=? 222)%nat && negb (n =? 215)%nat)
  then ascii_of_nat (n + 32) else c.

(** [s.lower()] *)
Fixpoint lower (s : string) : string :=
  match s with
  | "" => ""
  | String c s' => String (lower_char c) (lower s')
  end.

(** A decimal digit, [0] to [9]. *)
Definition is_decimal (c : ascii) : bool :=
  let n := nat_of_ascii c in (48 <=? n)%nat && (n <=? 57)%nat.

(** A digit in the sense of [str.isdigit]: a decimal digit or one of the
    superscript digits U+00B2, U+00B3 and U+00B9. *)
Definition is_digit (c : ascii) : bool :=
  let n := nat_of_ascii c in
  is_decimal c || (n =? 178)%nat || (n =? 179)%nat || (n =? 185)%nat.

Fixpoint all_digits (s : string) : bool :=
  match s with
  | "" => true
  | String c s' => is_digit c && all_digits s'
  end.

(** [s.isdigit()] *)
Definition isdigit (s : string) : bool := nonempty s && all_digits s.

Fixpoint all_decimal (s : string) : bool :=
  match s with
  | "" => true
  | String c s' => is_decimal c && all_decimal s'
  end.

Fixpoint int_go (acc : Z) (s : string) : Z :=
  match s with
  | "" => acc
  | String c s' => int_go (acc * 10 + (Z.of_nat (nat_of_ascii c) - 48)) s'
  end.

(** [int(s)] for a string of digits, the only strings the program
    converts: the value of a run of decimal digits, and [ValueError] when
    a superscript digit occurs, which [isdigit] accepts and [int] does not.
    (A file name is far shorter than the 4300 digits at which CPython
    starts to refuse; the message is abbreviated.) *)
Definition int (s : string) : result Z :=
  if nonempty s && all_decimal s then Ok (int_go 0 s)
  else Raise (ValueError "invalid literal for int() with base 10").

Definition digit_char (n : nat) : ascii := ascii_of_nat (48 + n).

(** [f"{idx:02d}"] for a non-negative [idx]: the decimal digits, padded
    with zeros on the left to a width of at least two. *)
Fixpoint decimal_go (fuel n : nat) (acc : string) : string :=
  match fuel with
  | O => acc
  | S fuel' =>
      let acc' := String (digit_char (n mod 10)) acc in
      if (n <? 10)%nat then acc' else decimal_go fuel' (n / 10) acc'
  end.

Definition decimal (n : nat) : string := decimal_go (S n) n "".

Definition format_02d (idx : nat) : string :=
  let d := decimal idx in
  if (String.length d <? 2)%nat then "0" +:+ d else d.

(** [enumerate(l, start=start)] *)
Definition enumerate {A} (l : list A) (start : nat) : list (nat * A) :=
  zip (seq start (length l)) l.

(** ** [SpeechSynthesizer.synthesize_directory] *)

Record text_file : Type := TextFile {
  txt_name : string;
  txt_content : string;
  txt_mtime : float;
}.

(** What the driver reads and changes: the modification times of the files
    of [output_dir], the calls made to the synthesis model, and the list
    [generated]. *)
Record synth_state : Type := SynthState {
  audio_files : gmap string float;
  synthesized : list (string * string);
  generated : list string;
}.

Section synthesize.
(** [write_time k] is the modification time the file system stamps on
    the [k]-th file written during the run. *)
Context (write_time : nat → float).

(** [synthesize_to_file(text, output_path)]: one call of the model and
    one file written. *)
Definition synthesize_to_file (text out_path : string) (st : synth_state)
  : synth_state :=
  SynthState
    (<[out_path := write_time (length (synthesized st))]> (audio_files st))
    (synthesized st ++ [(text, out_path)])
    (generated st).

(** [out_path.exists() and txt_mtime <= audio_mtime] *)
Definition up_to_date (txt : text_file) (st : synth_state)
    (out_path : string) : bool :=
  match audio_files st !! out_path with
  | Some audio_mtime => PrimFloat.leb (txt_mtime txt) audio_mtime
  | None => false
  end.

(** The statements both branches run for one output file. *)
Definition emit (txt : text_file) (st : synth_state)
    (chunk_text out_path : string) : synth_state :=
  if up_to_date txt st out_path then st
  else
    let st' := synthesize_to_file chunk_text out_path st in
    SynthState (audio_files st') (synthesized st')
      (generated st' ++ [out_path]).

(** The output paths of one text file, in chunk order. *)
Definition output_paths (base_name suffix : string) (chunks : list string)
  : list string :=
  if (length chunks =? 1)%nat then [base_name +:+ suffix]
  else map (fun '(idx, _) => base_name +:+ "-" +:+ format_02d idx +:+ suffix)
         (enumerate chunks 1).

(** Body of [for txt_path in sorted(text_dir.glob("*.txt"))]. *)
Definition synthesize_file (suffix : string) (st : synth_state)
    (txt : text_file) : result synth_state :=
  let text := strip (txt_content txt) in
  if negb (nonempty text) then Ok st
  else
    chunks ← _split_text text 100;
    let base_name := stem (txt_name txt) in
    if (length chunks =? 1)%nat then
      Ok (emit txt st (hd "" chunks) (base_name +:+ suffix))
    else
      Ok (foldl
            (fun st '(idx, chunk_text) =>
               emit txt st chunk_text
                 (base_name +:+ "-" +:+ format_02d idx +:+ suffix))
            st (enumerate chunks 1)).

(** [text_dir] is [None] when the directory does not exist; [files] are
    the modification times of the files [output_dir] holds when the run
    starts.  The value Python returns is the field [generated] of the
    final state. *)
Definition synthesize_directory (text_dir : option (list text_file))
    (suffix : string) (files : gmap string float) : result synth_state :=
  match text_dir with
  | None => Raise (FileNotFoundError "Text directory not found")
  | Some entries =>
      for_each (synthesize_file suffix)
        (py_sorted txt_name String.leb
           (filter (fun f => ends_with ".txt" (txt_name f)) entries))
        (SynthState files [] [])
  end.
End synthesize.

(** ** [VideoProducer.create_video_from_directory] *)

(** The base name and chunk index of an audio stem (lines 99 to 106);
    [int(suffix)] may raise. *)
Definition base_and_index (stem : string) : result (string * Z) :=
  match rsplit1 "-"%char stem with
  | Some (base_candidate, suffix) =>
      if isdigit suffix then
        idx ← int suffix;
        Ok (base_candidate, idx)
      else Ok (stem, 0)
  | None => Ok (stem, 0)
  end.

(** Body of the loop of lines 98 to 108, which ends in
    [audio_groups.setdefault(base, []).append((idx, p))]. *)
Definition add_audio (groups : gmap string (list (Z * string))) (p : string)
  : result (gmap string (list (Z * string))) :=
  '(base, idx) ← base_and_index (stem p);
  Ok (<[base := default [] (groups !! base) ++ [(idx, p)]]> groups).

Definition audio_groups_of (audio_entries : list string)
  : result (gmap string (list (Z * string))) :=
  for_each add_audio (py_sorted lower String.leb (glob ".wav" audio_entries)) ∅.

(** [{p.stem: p for p in image_files}] *)
Definition image_map_of (image_entries : list string) : gmap string string :=
  foldl (fun m p => <[stem p := p]> m) ∅
    (py_sorted lower String.leb (glob ".png" image_entries)).

(** [sorted(set(image_map.keys()) & set(audio_groups.keys()), key=lower)];
    [set_order] gives the order in which the intersection is iterated. *)
Definition common_stems_of (set_order : gset string → list string)
    (image_map : gmap string string)
    (audio_groups : gmap string (list (Z * string))) : list string :=
  py_sorted lower String.leb (set_order (dom image_map ∩ dom audio_groups)).

(** One segment of the timeline: the still image, its audio file, the
    duration given to [with_duration] and the start given to
    [with_start]. *)
Record clip : Type := Clip {
  clip_image : string;
  clip_audio : string;
  clip_duration : float;
  audio_start : float;
}.

Definition lead_in : float := 1.0%float.

(** Body of [for idx, wav_path in chunks]; [duration_of] is the duration
    [AudioFileClip] reports for a file. *)
Definition make_clip (duration_of : string → float)
    (img_path wav_path : string) : clip :=
  let total_duration := (duration_of wav_path + lead_in)%float in
  Clip img_path wav_path total_duration lead_in.

(** [d[k]] *)
Definition getitem {V} (d : gmap string V) (k : string) : result V :=
  match d !! k with
  | Some v => Ok v
  | None => Raise (KeyError k)
  end.

(** [sorted(audio_groups[stem], key=lambda t: t[0])] *)
Definition ordered_chunks (group : list (Z * string)) : list (Z * string) :=
  py_sorted fst Z.leb group.

(** Body of [for stem in common_stems]. *)
Definition add_clips (duration_of : string → float)
    (image_map : gmap string string)
    (audio_groups : gmap string (list (Z * string)))
    (clips : list clip) (stem : string) : result (list clip) :=
  img_path ← getitem image_map stem;
  group ← getitem audio_groups stem;
  Ok (clips ++ map (fun '(_, wav_path) => make_clip duration_of img_path wav_path)
                (ordered_chunks group)).

(** The media files and the collaborators of one run. *)
Record video_inputs : Type := VideoInputs {
  image_entries : list string;
  audio_entries : list string;
  duration_of : string → float;
  set_order : gset string → list string;
  write_videofile : string → list clip → result ();
  output_path : string;
}.

(** Lines 91 to 151: the clips in assembly order. *)
Definition assemble (i : video_inputs) : result (list clip) :=
  let image_map := image_map_of (image_entries i) in
  audio_groups ← audio_groups_of (audio_entries i);
  let common_stems := common_stems_of (set_order i) image_map audio_groups in
  if negb (truthy common_stems)
  then Raise (FileNotFoundError "No matching (png,wav) pairs found")
  else for_each (add_clips (duration_of i) image_map audio_groups)
         common_stems [].

(** Clip objects that hold resources until [close()] is called. *)
Inductive handle : Type :=
  | ClipHandle (index : nat)
  | FinalHandle.

Record resources : Type := Resources {
  open_handles : list handle;
  closed_handles : list handle;
}.

#[global] Instance handle_eq_dec : EqDecision handle.
Proof. solve_decision. Defined.

Definition open_handle (h : handle) (r : resources) : resources :=
  Resources (open_handles r ++ [h]) (closed_handles r).

Definition close (r : resources) (h : handle) : resources :=
  Resources (filter (fun h' => bool_decide (h' ≠ h)) (open_handles r))
    (closed_handles r ++ [h]).

(** The whole method: what it returns or raises, and the handles it leaves
    open and closed.  [assemble] raises while the audio files are scanned
    or when no pair matches, both before the first clip is made, so no
    handle is open then. *)
Definition create_video_from_directory (i : video_inputs)
  : result string * resources :=
  match assemble i with
  | Raise e => (Raise e, Resources [] [])
  | Ok clips =>
      let handles := map ClipHandle (seq 0 (length clips)) in
      let r := foldl (fun r h => open_handle h r) (Resources [] []) handles in
      let r := open_handle FinalHandle r in
      match write_videofile i (output_path i) clips with
      | Raise e => (Raise e, r)
      | Ok _ =>
          let r := foldl close r handles in
          let r := close r FinalHandle in
          (Ok (output_path i), r)
      end
  end.

(** * Vocabulary of the statements *)

Definition scan_step (c : ascii) (p : string * list string)
  : string * list string :=
  if isspace c then ("", push p.1 p.2) else (String c p.1, p.2).

Definition words_of_scan (p : string * list string) : list string :=
  push p.1 p.2.

(** The scan of the pieces of a string that was cut at whitespace. *)
Definition pieces_scan (pieces : list string) : string * list string :=
  match pieces with
  | [] => ("", [])
  | p :: ps =>
      ((scan_words p).1, (scan_words p).2 ++ concat (map split_ws ps))
  end.

(** A word: non-empty and free of whitespace. *)
Definition atom (w : string) : Prop := w ≠ "" ∧ scan_words w = (w, []).

(** The [cnt] consecutive windows of [m] elements of [l]. *)
Definition windows {A} (m cnt : nat) (l : list A) : list (list A) :=
  map (λ k, take m (drop (k * m) l)) (seq 0 cnt).

(** The number of windows [range(0, n, max_words)] produces. *)
Definition window_count (m len : nat) : nat := ((len - 1) / m + 1)%nat.

Definition words_in (l : list string) : list string := concat (map split_ws l).

Definition emitted_words (st : packer) : list string :=
  words_in (chunks st) ++ words_in (current_sentences st).

Definition within (max_words : Z) (c : string) : Prop :=
  Z.of_nat (length (split_ws c)) ≤ max_words.

Record packer_ok (max_words : Z) (st : packer) : Prop := PackerOk {
  ok_count : word_count st = Z.of_nat (length (words_in (current_sentences st)));
  ok_bound : word_count st ≤ max_words;
  ok_chunks : Forall (within max_words) (chunks st);
}.

(** What [_split_text] returns when its loop ends in the state [st]: the
    chunks emitted so far and, when sentences are accumulated, the chunk
    they make (lines 120 to 127). *)
Definition final_chunks (st : packer) : list string :=
  if truthy (current_sentences st)
  then chunks st ++ [join " " (current_sentences st)]
  else chunks st.

(** The state [st] with the chunks [cs] emitted before its own. *)
Definition after_chunks (cs : list string) (st : packer) : packer :=
  Packer (cs ++ chunks st) (current_sentences st) (word_count st).

(** All sentences of a text, in the order in which the two loops visit
    them. *)
Definition all_sentences (text : string) : list string :=
  concat (map sentences_of (paragraphs_of text)).

Definition chunk_path (base_name suffix : string) (idx : nat) : string :=
  base_name +:+ "-" +:+ format_02d idx +:+ suffix.

(** One sentence of 9901 words. *)
Definition long_text : string := join " " (replicate (99 * 100 + 1) "a").

(** The chunks of a text file; none when its trimmed text is empty. *)
Definition chunks_of (txt : text_file) : list string :=
  let text := strip (txt_content txt) in
  if nonempty text then
    match _split_text text 100 with
    | Ok cs => cs
    | Raise _ => []
    end
  else [].

(** The outputs of a text file, in the order in which they are visited:
    the file, the chunk and the output path. *)
Definition outputs_of (suffix : string) (txt : text_file)
  : list (text_file * string * string) :=
  let cs := chunks_of txt in
  map (λ '(c, p), (txt, c, p))
    (zip cs (output_paths (stem (txt_name txt)) suffix cs)).

Definition emit_output (write_time : nat → float) (st : synth_state)
    (o : text_file * string * string) : synth_state :=
  emit write_time o.1.1 st o.1.2 o.2.

(** The output is missing from [st] or older than its text file. *)
Definition needs_synthesis (st : synth_state)
    (o : text_file * string * string) : Prop :=
  up_to_date o.1.1 st o.2 = false.

#[global] Instance needs_synthesis_dec st o : Decision (needs_synthesis st o).
Proof. unfold needs_synthesis. apply _. Defined.

(** The base name and the index of an audio file. *)
(** The index of the audio file [p] can be read: [int] accepts the digits
    its stem ends in, if it ends in digits. *)
Definition readable (p : string) : bool :=
  match base_and_index (stem p) with
  | Ok _ => true
  | Raise _ => false
  end.

(** The base name and the index read from the audio file [p]; its stem
    and 0 when the index cannot be read. *)
Definition parts_of (p : string) : string * Z :=
  match base_and_index (stem p) with
  | Ok parts => parts
  | Raise _ => (stem p, 0)
  end.

Definition base_of (p : string) : string := (parts_of p).1.

Definition index_of (p : string) : Z := (parts_of p).2.

(** What [add_audio] does with a file whose index can be read. *)
Definition add_entry (groups : gmap string (list (Z * string))) (p : string)
  : gmap string (list (Z * string)) :=
  <[base_of p := default [] (groups !! base_of p) ++ [(index_of p, p)]]> groups.

(** The audio groups the scan builds when every index can be read. *)
Definition audio_groups_read (audio_entries : list string)
  : gmap string (list (Z * string)) :=
  foldl add_entry ∅ (py_sorted lower String.leb (glob ".wav" audio_entries)).

(** [s.isdecimal()], the strings [int] converts. *)
Definition isdecimal (s : string) : bool := nonempty s && all_decimal s.

(** The superscript two, a digit that [int] refuses. *)
Definition superscript_two : ascii := "178"%char.

(** The entries that the files of [files] add to the group of [base]. *)
Definition group_entries (base : string) (files : list string)
  : list (Z * string) :=
  map (λ p, (index_of p, p)) (filter (λ p, base_of p = base) files).

(** The clips one matched stem contributes, in chunk order. *)
Definition stem_clips (duration_of : string → float)
    (image_map : gmap string string)
    (audio_groups : gmap string (list (Z * string))) (s : string) : list clip :=
  match image_map !! s, audio_groups !! s with
  | Some img_path, Some group =>
      map (λ '(_, wav_path), make_clip duration_of img_path wav_path)
        (ordered_chunks group)
  | _, _ => []
  end.

(** Inputs used to instantiate the statements below. *)
Definition sample_inputs : video_inputs :=
  VideoInputs ["b.png"; "intro.png"; "a.png"]
    ["intro-02.wav"; "a.wav"; "intro.wav"; "intro-01.wav"; "c.wav"]
    (λ _, 4%float) elements (λ _ _, Ok ()) "final.mp4".

(** The same files, listed in two orders by the file system. *)
Definition listing1 : video_inputs :=
  VideoInputs ["intro.png"; "a.png"; "b.png"]
    ["intro-02.wav"; "a.wav"; "intro.wav"; "intro-01.wav"]
    (λ _, 4%float) elements (λ _ _, Ok ()) "final.mp4".

Definition listing2 : video_inputs :=
  VideoInputs ["b.png"; "a.png"; "intro.png"]
    ["intro.wav"; "intro-01.wav"; "a.wav"; "intro-02.wav"]
    (λ _, 4%float) (λ X, reverse (elements X)) (λ _ _, Ok ()) "final.mp4".

(** A chunk [g] was closed because the first sentence of the next chunk
    [g'] did not fit into it any more. *)
Definition greedy (max_words : Z) (g g' : list string) : Prop :=
  max_words
  < Z.of_nat (length (words_in g)) + Z.of_nat (length (split_ws (hd "" g'))).

(** The closed groups of sentences and, when there is one, the group that
    is still being filled. *)
Definition open_groups (gs : list (list string)) (cur : list string)
  : list (list string) :=
  if truthy cur then gs ++ [cur] else gs.

(** Loop invariant of [_split_text] while no sentence is oversized:
    [seen] are the sentences visited so far and [gs] the groups of
    sentences behind the chunks emitted so far. *)
Record grouped (max_words : Z) (seen : list string) (st : packer)
    (gs : list (list string)) : Prop := Grouped {
  grouped_chunks : chunks st = map (join " ") gs;
  grouped_seen : concat gs ++ current_sentences st = seen;
  grouped_nonempty : Forall (λ g, g ≠ []) gs;
  grouped_fit : Forall (λ g, Z.of_nat (length (words_in g)) ≤ max_words)
                  (open_groups gs (current_sentences st));
  grouped_greedy : Sorted (greedy max_words)
                     (open_groups gs (current_sentences st));
  grouped_count : word_count st
                  = Z.of_nat (length (words_in (current_sentences st)));
  grouped_start : current_sentences st = [] → gs = [];
}.

(** What a run keeps true of the files and of its two lists. *)
Record run_ok (write_time : nat → float) (files : gmap string float)
    (outs : list (text_file * string * string)) (st : synth_state) : Prop := RunOk {
  run_frame : ∀ p, (∀ o, o ∈ outs → o.2 ≠ p) → audio_files st !! p = files !! p;
  run_keeps : ∀ p, is_Some (files !! p) → is_Some (audio_files st !! p);
  run_generated : generated st = (synthesized st).*2;
  run_calls : ∀ cp, cp ∈ synthesized st → ∃ o, o ∈ outs ∧ cp = (o.1.2, o.2);
  run_stamped : ∀ p, p ∈ generated st →
                ∃ k, (k < length (synthesized st))%nat ∧
                     audio_files st !! p = Some (write_time k);
}.

(** The outputs a run over [entries] visits, in order. *)
Definition run_outputs (suffix : string) (entries : list text_file)
  : list (text_file * string * string) :=
  concat (map (outputs_of suffix)
            (py_sorted txt_name String.leb
               (filter (λ f, ends_with ".txt" (txt_name f)) entries))).

(** One sentence of 101 words, which the driver cuts into two chunks. *)
Definition two_chunk_text : string := join " " (replicate 101 "w").

(** A text directory in which two text files share an output path: the
    only chunk of [a-01.txt] and the first chunk of [a.txt] are both
    written to [a-01.wav]. *)
Definition shared_output_texts : list text_file :=
  [TextFile "a.txt" two_chunk_text 1%float;
   TextFile "a-01.txt" "Hello." 1%float].

(** A text directory and an output directory for the statements below. *)
Definition sample_texts : list text_file :=
  [TextFile "b.txt" "Second text. It has two sentences." 1%float;
   TextFile "notes.md" "Not a text file." 1%float;
   TextFile "a.txt" "First text." 1%float;
   TextFile "blank.txt" " " 1%float].

Definition sample_audio : gmap string float :=
  {["old.wav" := 0%float; "b.wav" := 0%float]}.

Definition sample_after : synth_state :=
  SynthState
    {["old.wav" := 0%float; "b.wav" := 2%float; "a.wav" := 2%float]}
    [("First text.", "a.wav"); ("Second text. It has two sentences.", "b.wav")]
    ["a.wav"; "b.wav"].

(** No carriage return occurs in [s]. *)
Fixpoint no_cr (s : string) : bool :=
  match s with
  | "" => true
  | String c s' => negb (Ascii.eqb c CR) && no_cr s'
  end.

(** Every two adjacent characters of [s] satisfy [R]. *)
Fixpoint all_pairs (R : ascii → ascii → bool) (s : string) : bool :=
  match s with
  | String c s' =>
      match s' with
      | String c' _ => R c c' && all_pairs R s'
      | "" => true
      end
  | "" => true
  end.

(** [s] starts with a character that is not whitespace. *)
Definition first_nonspace (s : string) : bool :=
  match s with
  | String c _ => negb (isspace c)
  | "" => false
  end.

(** [s] ends with a character that is not whitespace. *)
Fixpoint last_nonspace (s : string) : bool :=
  match s with
  | String c s' =>
      match s' with
      | "" => negb (isspace c)
      | _ => last_nonspace s'
      end
  | "" => false
  end.

(** [s] holds no blank line: no two line feeds in a row. *)
Definition no_blank_line (s : string) : bool :=
  all_pairs (λ c c', negb (Ascii.eqb c LF && Ascii.eqb c' LF)) s.

(** No sentence terminator of [s] is followed by whitespace. *)
Definition unbroken (s : string) : bool :=
  all_pairs (λ c c', negb (is_terminator c && isspace c')) s.

(** Where whitespace follows a sentence terminator of [s], it is one
    space, followed by a character that is not whitespace;
    [after_terminator] tells whether [s] itself follows a terminator. *)
Fixpoint single_spaced (after_terminator : bool) (s : string) : bool :=
  match s with
  | String c s' =>
      if after_terminator && isspace c
      then Ascii.eqb c " " && first_nonspace s' && single_spaced false s'
      else single_spaced (is_terminator c) s'
  | "" => true
  end.

(** A text in the form in which [_split_text] emits its chunks. *)
Record settled (s : string) : Prop := Settled {
  settled_first : first_nonspace s = true;
  settled_last : last_nonspace s = true;
  settled_no_cr : no_cr s = true;
  settled_no_blank_line : no_blank_line s = true;
  settled_single_spaced : single_spaced false s = true;
}.

(** * Properties *)

(** ** Words of a string *)

Lemma append_cons c s t : String c s +:+ t = String c (s +:+ t).
Proof. reflexivity. Qed.

Lemma append_nil_l t : "" +:+ t = t.
Proof. reflexivity. Qed.

Lemma scan_words_cons c s : scan_words (String c s) = scan_step c (scan_words s).
Proof. simpl. destruct (scan_words s) as [w ws]. reflexivity. Qed.

Lemma split_ws_scan s : split_ws s = words_of_scan (scan_words s).
Proof. unfold split_ws. destruct (scan_words s) as [w ws]. reflexivity. Qed.

Lemma push_app w ws rest : push w (ws ++ rest) = push w ws ++ rest.
Proof. destruct w; reflexivity. Qed.

Lemma scan_step_space c d p :
  isspace c = true → isspace d = true → scan_step c p = scan_step d p.
Proof. unfold scan_step. intros -> ->. reflexivity. Qed.

Lemma scan_step_space_words c p :
  isspace c = true → scan_step c p = ("", words_of_scan p).
Proof. unfold scan_step. intros ->. reflexivity. Qed.

Lemma words_of_scan_step_space c p :
  isspace c = true → words_of_scan (scan_step c p) = words_of_scan p.
Proof. intros H. rewrite scan_step_space_words by done. reflexivity. Qed.

Lemma scan_step_glue c p rest :
  scan_step c (p.1, p.2 ++ rest) = ((scan_step c p).1, (scan_step c p).2 ++ rest).
Proof.
  unfold scan_step. destruct (isspace c); simpl; [|done].
  by rewrite push_app.
Qed.

Lemma split_ws_cons_space c s : isspace c = true → split_ws (String c s) = split_ws s.
Proof.
  intros H. rewrite !split_ws_scan, scan_words_cons.
  by apply words_of_scan_step_space.
Qed.

Lemma split_ws_nil : split_ws "" = [].
Proof. reflexivity. Qed.

(** Whitespace between two strings separates their words. *)
Lemma scan_words_app_space a c b :
  isspace c = true →
  scan_words (a +:+ String c b) = ((scan_words a).1, (scan_words a).2 ++ split_ws b).
Proof.
  intros Hc. induction a as [|x a IH].
  - rewrite append_nil_l, scan_words_cons, scan_step_space_words by done.
    by rewrite split_ws_scan.
  - rewrite append_cons, !scan_words_cons, IH. apply scan_step_glue.
Qed.

Lemma split_ws_app_space a c b :
  isspace c = true → split_ws (a +:+ String c b) = split_ws a ++ split_ws b.
Proof.
  intros Hc. rewrite (split_ws_scan (_ +:+ _)), scan_words_app_space by done.
  rewrite (split_ws_scan a). unfold words_of_scan. simpl. apply push_app.
Qed.

Lemma scan_words_atoms s :
  scan_words (scan_words s).1 = ((scan_words s).1, []) ∧
  Forall atom (scan_words s).2.
Proof.
  induction s as [|c s [IH1 IH2]]; [by split|].
  rewrite scan_words_cons. unfold scan_step.
  destruct (isspace c) eqn:Hc; cbn [fst snd].
  - split; [done|]. destruct (scan_words s).1 eqn:Hw; cbn [push]; [done|].
    constructor; [|done]. by split.
  - split; [|done]. rewrite scan_words_cons, IH1. unfold scan_step.
    by rewrite Hc.
Qed.

Lemma split_ws_atoms s : Forall atom (split_ws s).
Proof.
  rewrite split_ws_scan. unfold words_of_scan.
  destruct (scan_words_atoms s) as [H1 H2].
  destruct (scan_words s).1 eqn:Hw; simpl; [done|].
  constructor; [|done]. by split.
Qed.

Lemma split_ws_atom w : atom w → split_ws w = [w].
Proof.
  intros [Hne Hw]. rewrite split_ws_scan, Hw. unfold words_of_scan. simpl.
  by destruct w.
Qed.

Lemma join_cons2 sep x y l : join sep (x :: y :: l) = x +:+ sep +:+ join sep (y :: l).
Proof. reflexivity. Qed.

(** The words of [" ".join(l)] are the words of the members of [l]. *)
Lemma split_ws_join l : split_ws (join " " l) = concat (map split_ws l).
Proof.
  induction l as [|x [|y l] IH]; [done| |].
  - simpl. by rewrite app_nil_r.
  - rewrite join_cons2. change (" " +:+ ?t) with (String " "%char t).
    rewrite split_ws_app_space by done. by rewrite IH.
Qed.

Lemma split_ws_join_atoms ws : Forall atom ws → split_ws (join " " ws) = ws.
Proof.
  intros H. rewrite split_ws_join. induction H as [|w ws Hw _ IH]; [done|].
  simpl. by rewrite split_ws_atom, IH.
Qed.

(** ** Stripping and cutting keep the words *)

Lemma split_ws_lstrip s : split_ws (lstrip s) = split_ws s.
Proof.
  induction s as [|c s IH]; [done|]. simpl.
  destruct (isspace c) eqn:Hc; [|done]. by rewrite split_ws_cons_space.
Qed.

Lemma scan_words_rstrip s : scan_words (rstrip s) = scan_words s.
Proof.
  induction s as [|c s IH]; [done|].
  rewrite scan_words_cons, <-IH. cbn [rstrip].
  destruct (rstrip s) as [|r0 r] eqn:Hr.
  - unfold scan_step. by destruct (isspace c) eqn:Hc; cbn; rewrite ?Hc.
  - by rewrite (scan_words_cons c).
Qed.

Lemma split_ws_strip s : split_ws (strip s) = split_ws s.
Proof.
  unfold strip. by rewrite split_ws_lstrip, !split_ws_scan, scan_words_rstrip.
Qed.

Lemma nonempty_false s : nonempty s = false → s = "".
Proof. by destruct s. Qed.

Lemma words_stripped_nonempty l :
  concat (map split_ws (filter (λ s, nonempty s) (map strip l)))
  = concat (map split_ws l).
Proof.
  induction l as [|x l IH]; [done|]. simpl.
  rewrite filter_cons. destruct (decide _) as [Hx|Hx]; simpl.
  - by rewrite split_ws_strip, IH.
  - rewrite IH, <-(split_ws_strip x).
    destruct (strip x); [done|]. by destruct Hx.
Qed.

Lemma pieces_scan_words l :
  concat (map split_ws l) = words_of_scan (pieces_scan l).
Proof.
  destruct l as [|p ps]; [done|]. cbn [map concat pieces_scan].
  rewrite split_ws_scan. unfold words_of_scan. cbn [fst snd].
  by rewrite push_app.
Qed.

Lemma pieces_scan_cons_hd c l :
  pieces_scan (cons_hd c l) = scan_step c (pieces_scan l).
Proof.
  destruct l as [|p ps]; cbn [cons_hd pieces_scan].
  - rewrite scan_words_cons. cbn. unfold scan_step.
    by destruct (isspace c); cbn; rewrite ?app_nil_r.
  - rewrite scan_words_cons. symmetry. apply scan_step_glue.
Qed.

Lemma pieces_scan_empty_hd l :
  pieces_scan ("" :: l) = ("", words_of_scan (pieces_scan l)).
Proof. cbn [pieces_scan]. by rewrite pieces_scan_words. Qed.

Lemma scan_split_pair a b s :
  isspace a = true → isspace b = true →
  pieces_scan (split_pair a b s) = scan_words s.
Proof.
  intros Ha Hb.
  cut (pieces_scan (split_pair a b s) = scan_words s ∧
       ∀ c, pieces_scan (split_pair a b (String c s)) = scan_words (String c s)).
  { by intros [? _]. }
  induction s as [|x s [IH1 IH2]].
  - split; [done|]. intros c. cbn. by destruct (isspace c).
  - split; [apply IH2|]. intros c.
    change (split_pair a b (String c (String x s)))
      with (if Ascii.eqb c a && Ascii.eqb x b
            then "" :: split_pair a b s
            else cons_hd c (split_pair a b (String x s))).
    destruct (Ascii.eqb c a && Ascii.eqb x b) eqn:E.
    + apply andb_true_iff in E as [->%Ascii.eqb_eq ->%Ascii.eqb_eq].
      rewrite pieces_scan_empty_hd, IH1, !scan_words_cons.
      by rewrite !scan_step_space_words.
    + by rewrite pieces_scan_cons_hd, IH2, <-scan_words_cons.
Qed.

Lemma scan_replace_pair a b n s :
  isspace a = true → isspace b = true → isspace n = true →
  scan_words (replace_pair a b (String n "") s) = scan_words s.
Proof.
  intros Ha Hb Hn.
  cut (scan_words (replace_pair a b (String n "") s) = scan_words s ∧
       ∀ c, scan_words (replace_pair a b (String n "") (String c s))
            = scan_words (String c s)).
  { by intros [? _]. }
  induction s as [|x s [IH1 IH2]]; [by split|].
  split; [apply IH2|]. intros c.
  change (replace_pair a b (String n "") (String c (String x s)))
    with (if Ascii.eqb c a && Ascii.eqb x b
          then String n "" +:+ replace_pair a b (String n "") s
          else String c (replace_pair a b (String n "") (String x s))).
  destruct (Ascii.eqb c a && Ascii.eqb x b) eqn:E.
  - apply andb_true_iff in E as [->%Ascii.eqb_eq ->%Ascii.eqb_eq].
    rewrite append_cons, append_nil_l, !scan_words_cons, IH1.
    by rewrite !scan_step_space_words.
  - by rewrite scan_words_cons, IH2, <-scan_words_cons.
Qed.

Lemma scan_replace_char a n s :
  isspace a = true → isspace n = true →
  scan_words (replace_char a (String n "") s) = scan_words s.
Proof.
  intros Ha Hn. induction s as [|c s IH]; [done|]. simpl replace_char.
  destruct (Ascii.eqb c a) eqn:E.
  - apply Ascii.eqb_eq in E as ->.
    rewrite append_cons, append_nil_l, !scan_words_cons, IH.
    by apply scan_step_space.
  - by rewrite !scan_words_cons, IH.
Qed.

Lemma split_ws_normalize text : split_ws (normalize text) = split_ws text.
Proof.
  unfold normalize.
  by rewrite !split_ws_scan, scan_replace_char, scan_replace_pair.
Qed.

Lemma scan_re_split_go s :
  (∀ m, pieces_scan (re_split_go (Outside m) s) = scan_words s) ∧
  concat (map split_ws (re_split_go InSeparator s)) = split_ws s.
Proof.
  induction s as [|c s [IH1 IH2]]; [by split|]. split.
  - intros m. rewrite scan_words_cons.
    assert (pieces_scan (cons_hd c (re_split_go (Outside (is_terminator c)) s))
            = scan_step c (scan_words s)) as Hcons.
    { by rewrite pieces_scan_cons_hd, IH1. }
    destruct m; simpl; [|done].
    destruct (isspace c) eqn:Hc; [|done].
    rewrite pieces_scan_words in IH2.
    rewrite scan_step_space_words by done. simpl.
    by rewrite pieces_scan_words, IH2, split_ws_scan.
  - simpl. destruct (isspace c) eqn:Hc.
    + by rewrite IH2, split_ws_cons_space.
    + by rewrite pieces_scan_words, pieces_scan_cons_hd, IH1,
        <-scan_words_cons, <-split_ws_scan.
Qed.

Lemma words_sentences_of p :
  concat (map split_ws (sentences_of p)) = split_ws p.
Proof.
  unfold sentences_of, re_split_sentences.
  rewrite words_stripped_nonempty, pieces_scan_words.
  by rewrite (proj1 (scan_re_split_go p)), split_ws_scan.
Qed.

Lemma words_paragraphs_of text :
  concat (map split_ws (paragraphs_of text)) = split_ws text.
Proof.
  unfold paragraphs_of.
  rewrite words_stripped_nonempty, pieces_scan_words, scan_split_pair by done.
  by rewrite <-split_ws_scan, split_ws_normalize.
Qed.

(** ** Windows of an oversized sentence *)

Lemma windows_succ {A} (m cnt : nat) (l : list A) :
  windows m (S cnt) l = take m l :: windows m cnt (drop m l).
Proof.
  unfold windows. cbn [seq map]. rewrite drop_0. f_equal.
  rewrite <-seq_shift, map_map. apply map_ext. intros k.
  rewrite drop_drop. reflexivity.
Qed.

Lemma windows_concat {A} (m cnt : nat) (l : list A) :
  (length l ≤ cnt * m)%nat → concat (windows m cnt l) = l.
Proof.
  revert l. induction cnt as [|cnt IH]; intros l Hl.
  - rewrite (nil_length_inv l); [done|lia].
  - rewrite windows_succ. cbn [concat]. rewrite IH, take_drop; [done|].
    rewrite length_drop. lia.
Qed.

Lemma windows_lookup {A} (m cnt : nat) (l : list A) k w :
  windows m cnt l !! k = Some w →
  (k < cnt)%nat ∧ w = take m (drop (k * m) l).
Proof.
  unfold windows. rewrite list_lookup_fmap. intros H.
  destruct (seq 0 cnt !! k) as [j|] eqn:Hj; [|done].
  apply lookup_seq in Hj as [-> ?]. simplify_eq/=. done.
Qed.

Lemma windows_length {A} (m cnt : nat) (l : list A) :
  length (windows m cnt l) = cnt.
Proof. unfold windows. by rewrite length_map, length_seq. Qed.

Lemma slice_window {A} (l : list A) (m k : nat) :
  slice l (Z.of_nat k * Z.of_nat m) (Z.of_nat k * Z.of_nat m + Z.of_nat m)
  = take m (drop (k * m) l).
Proof.
  unfold slice, clamp_index. rewrite <-Nat2Z.inj_mul.
  generalize (k * m)%nat as p. intros p.
  rewrite !(proj2 (Z.ltb_ge _ _)) by lia.
  destruct (decide (p ≤ length l)%nat) as [Hk|Hk].
  - replace (Z.to_nat (Z.of_nat p `min` Z.of_nat (length l))) with p by lia.
    destruct (decide (m ≤ length l - p)%nat).
    + f_equal. lia.
    + rewrite !take_ge; [done|rewrite length_drop; lia..].
  - rewrite !drop_ge by lia. by rewrite !take_nil.
Qed.

Lemma py_range_windows (n mw : Z) :
  0 < mw → 0 < n →
  py_range 0 n mw
  = Ok (map (λ k, Z.of_nat k * mw) (seq 0 (Z.to_nat ((n - 1) / mw + 1)))).
Proof.
  intros Hmw Hn. unfold py_range.
  rewrite (proj2 (Z.eqb_neq _ _)) by lia.
  rewrite (proj2 (Z.ltb_lt _ _)) by lia.
  rewrite (proj2 (Z.ltb_lt 0 n)) by lia.
  f_equal. replace (n - 0 - 1) with (n - 1) by lia.
  apply map_ext. intros k. lia.
Qed.

Lemma window_count_bounds (m len : nat) :
  (0 < m)%nat → (0 < len)%nat →
  ((window_count m len - 1) * m < len ≤ window_count m len * m)%nat.
Proof.
  intros Hm Hl. unfold window_count.
  pose proof (Nat.div_mod (len - 1) m ltac:(lia)) as E.
  pose proof (Nat.mod_upper_bound (len - 1) m ltac:(lia)) as B.
  replace ((len - 1) / m + 1 - 1)%nat with ((len - 1) / m)%nat by lia.
  nia.
Qed.

Lemma window_count_Z (mw n : Z) :
  0 < mw → 0 < n →
  Z.to_nat ((n - 1) / mw + 1) = window_count (Z.to_nat mw) (Z.to_nat n).
Proof.
  intros Hmw Hn. unfold window_count.
  rewrite Z2Nat.inj_add, Z2Nat.inj_div by (try apply Z.div_pos; lia).
  f_equal. f_equal. lia.
Qed.

(** ** The packing loop *)

Lemma words_in_app l1 l2 : words_in (l1 ++ l2) = words_in l1 ++ words_in l2.
Proof. unfold words_in. by rewrite map_app, concat_app. Qed.

Lemma words_in_singleton s : words_in [s] = split_ws s.
Proof. unfold words_in. cbn. by rewrite app_nil_r. Qed.

Lemma words_in_join_windows (ws : list (list string)) :
  Forall (Forall atom) ws → words_in (map (join " ") ws) = concat ws.
Proof.
  unfold words_in. induction 1 as [|w ws Hw _ IH]; [done|].
  cbn [map concat]. by rewrite split_ws_join_atoms, IH.
Qed.

Lemma windows_atoms (m cnt : nat) (l : list string) :
  Forall atom l → Forall (Forall atom) (windows m cnt l).
Proof.
  intros Hl. apply Forall_forall. intros w [k Hk]%list_elem_of_lookup.
  apply windows_lookup in Hk as [_ ->]. by apply Forall_take, Forall_drop.
Qed.

Lemma truthy_false {A} (l : list A) : truthy l = false → l = [].
Proof. by destruct l. Qed.

Lemma truthy_true {A} (l : list A) : truthy l = true → l ≠ [].
Proof. by destruct l. Qed.

(** What [pack_sentence] does with a sentence of more than [max_words]
    words. *)
Lemma pack_sentence_oversized max_words st sentence :
  1 ≤ max_words →
  max_words < Z.of_nat (length (split_ws sentence)) →
  pack_sentence max_words st sentence
  = Ok (Packer
          (chunks st
             ++ (if truthy (current_sentences st)
                 then [join " " (current_sentences st)] else [])
             ++ map (join " ")
                  (windows (Z.to_nat max_words)
                     (window_count (Z.to_nat max_words)
                        (length (split_ws sentence)))
                     (split_ws sentence)))
          []
          (if truthy (current_sentences st) then 0 else word_count st)).
Proof.
  intros Hmw Hn. unfold pack_sentence.
  rewrite (proj2 (Z.eqb_neq _ _)) by lia.
  rewrite (proj2 (Z.ltb_lt _ _)) by lia.
  rewrite py_range_windows by lia. cbn [mbind result_bind].
  rewrite window_count_Z, Nat2Z.id by lia.
  rewrite map_map.
  rewrite (map_ext _ (λ k, join " "
             (take (Z.to_nat max_words)
                (drop (k * Z.to_nat max_words) (split_ws sentence))))).
  2:{ intros k. f_equal.
      rewrite <-(Z2Nat.id max_words) at 1 2 3 by lia. apply slice_window. }
  unfold windows. rewrite map_map.
  destruct (truthy (current_sentences st)) eqn:Ht; cbn.
  - by rewrite <-app_assoc.
  - apply truthy_false in Ht. by rewrite Ht.
Qed.

Lemma windows_within (max_words : Z) (cnt : nat) (l : list string) :
  1 ≤ max_words → Forall atom l →
  Forall (within max_words)
    (map (join " ") (windows (Z.to_nat max_words) cnt l)).
Proof.
  intros Hmw Hl. apply Forall_map, Forall_forall.
  intros w [k Hk]%list_elem_of_lookup.
  apply windows_lookup in Hk as [_ ->]. unfold within.
  rewrite split_ws_join_atoms by by apply Forall_take, Forall_drop.
  rewrite length_take. lia.
Qed.

(** One iteration keeps the loop invariant and adds exactly the words of the
    sentence. *)
Lemma pack_sentence_ok max_words st sentence :
  1 ≤ max_words → packer_ok max_words st →
  ∃ st', pack_sentence max_words st sentence = Ok st' ∧
         packer_ok max_words st' ∧
         emitted_words st' = emitted_words st ++ split_ws sentence.
Proof.
  intros Hmw [Hcnt Hbound Hchunks].
  destruct (decide (max_words < Z.of_nat (length (split_ws sentence)))) as [Hbig|Hfit].
  { eexists. split; [by apply pack_sentence_oversized|].
    pose proof (window_count_bounds (Z.to_nat max_words)
                  (length (split_ws sentence)) ltac:(lia) ltac:(lia)) as [_ Hcov].
    split.
    - split; cbn [chunks current_sentences word_count].
      + destruct (truthy (current_sentences st)) eqn:Ht; [done|].
        apply truthy_false in Ht. by rewrite Hcnt, Ht.
      + destruct (truthy _); lia.
      + rewrite !Forall_app. split_and!; [done| |].
        * destruct (truthy _); [|done]. constructor; [|done].
          unfold within. rewrite split_ws_join. fold (words_in (current_sentences st)).
          lia.
        * apply windows_within; [done|apply split_ws_atoms].
    - unfold emitted_words. cbn [chunks current_sentences].
      rewrite !words_in_app, words_in_join_windows
        by apply windows_atoms, split_ws_atoms.
      rewrite windows_concat by done.
      rewrite app_nil_r, <-!app_assoc. do 2 f_equal.
      destruct (truthy (current_sentences st)) eqn:Ht.
      + rewrite words_in_singleton. by rewrite split_ws_join.
      + apply truthy_false in Ht. by rewrite Ht. }
  unfold pack_sentence.
  destruct (Z.eqb_spec (Z.of_nat (length (split_ws sentence))) 0) as [Hz|Hnz].
  { exists st. split_and!; [done..|].
    rewrite (nil_length_inv (split_ws sentence)) by lia. by rewrite app_nil_r. }
  rewrite (proj2 (Z.ltb_ge _ _)) by lia.
  destruct (_ && _) eqn:Hclose.
  - apply andb_true_iff in Hclose as [Hover%Z.ltb_lt Ht].
    eexists. split; [done|]. split.
    + split; cbn [chunks current_sentences word_count].
      * by rewrite words_in_singleton.
      * lia.
      * rewrite Forall_app. split; [done|]. constructor; [|done].
        unfold within. rewrite split_ws_join.
        fold (words_in (current_sentences st)). lia.
    + unfold emitted_words. cbn [chunks current_sentences].
      by rewrite !words_in_app, !words_in_singleton, split_ws_join.
  - eexists. split; [done|]. split.
    + split; cbn [chunks current_sentences word_count]; [| |done].
      * rewrite words_in_app, words_in_singleton, length_app. lia.
      * apply andb_false_iff in Hclose as [Hle%Z.ltb_ge|Ht]; [lia|].
        apply truthy_false in Ht. rewrite Hcnt, Ht. cbn. lia.
    + unfold emitted_words. cbn [chunks current_sentences].
      by rewrite words_in_app, words_in_singleton, app_assoc.
Qed.

Lemma for_each_app {A S} (body : S → A → result S) l1 l2 s :
  for_each body (l1 ++ l2) s = (s' ← for_each body l1 s; for_each body l2 s').
Proof.
  revert s. induction l1 as [|x l1 IH]; intros s; [done|].
  cbn [for_each app]. destruct (body s x); cbn; [apply IH|done].
Qed.

Lemma for_each_concat {A B S} (body : S → B → result S) (f : A → list B) l s :
  for_each (λ s x, for_each body (f x) s) l s
  = for_each body (concat (map f l)) s.
Proof.
  revert s. induction l as [|x l IH]; intros s; [done|].
  cbn [for_each map concat]. rewrite for_each_app.
  destruct (for_each body (f x) s); cbn; [apply IH|done].
Qed.

Lemma words_all_sentences text : words_in (all_sentences text) = split_ws text.
Proof.
  unfold all_sentences, words_in.
  rewrite <-words_paragraphs_of.
  induction (paragraphs_of text) as [|p ps IH]; [done|].
  cbn [map concat]. by rewrite map_app, concat_app, IH, words_sentences_of.
Qed.

Lemma pack_all_ok max_words ss st :
  1 ≤ max_words → packer_ok max_words st →
  ∃ st', for_each (pack_sentence max_words) ss st = Ok st' ∧
         packer_ok max_words st' ∧
         emitted_words st' = emitted_words st ++ words_in ss.
Proof.
  intros Hmw. revert st. induction ss as [|s ss IH]; intros st Hst.
  - exists st. split_and!; [done..|]. by rewrite app_nil_r.
  - destruct (pack_sentence_ok max_words st s Hmw Hst) as (st1 & E1 & Hok1 & Hw1).
    destruct (IH st1 Hok1) as (st2 & E2 & Hok2 & Hw2).
    exists st2. split_and!; [|done|].
    + cbn [for_each]. by rewrite E1.
    + rewrite Hw2, Hw1, <-app_assoc. f_equal.
Qed.

Lemma split_text_unfold text max_words :
  _split_text text max_words
  = (st ← for_each (pack_sentence max_words) (all_sentences text) (Packer [] [] 0);
     Ok (if truthy (current_sentences st)
         then chunks st ++ [join " " (current_sentences st)]
         else chunks st)).
Proof.
  unfold _split_text, all_sentences, pack_paragraph.
  by rewrite for_each_concat.
Qed.

Lemma packer_ok_init max_words : 1 ≤ max_words → packer_ok max_words (Packer [] [] 0).
Proof. intros. split; cbn; [done|lia|done]. Qed.

(** The result of [_split_text] for a positive limit. *)
Lemma split_text_ok text max_words :
  1 ≤ max_words →
  ∃ cs, _split_text text max_words = Ok cs ∧
        words_in cs = split_ws text ∧
        Forall (within max_words) cs.
Proof.
  intros Hmw. rewrite split_text_unfold.
  destruct (pack_all_ok max_words (all_sentences text) _ Hmw
              (packer_ok_init _ Hmw)) as (st & E & [Hcnt Hbound Hchunks] & Hw).
  rewrite E. cbn [mbind result_bind]. eexists. split; [done|].
  unfold emitted_words in Hw. cbn in Hw. rewrite words_all_sentences in Hw.
  destruct (truthy (current_sentences st)) eqn:Ht.
  - split.
    + rewrite words_in_app, words_in_singleton, split_ws_join. exact Hw.
    + rewrite Forall_app. split; [done|]. constructor; [|done].
      unfold within. rewrite split_ws_join.
      fold (words_in (current_sentences st)). lia.
  - apply truthy_false in Ht. rewrite Ht in Hw. cbn in Hw.
    rewrite app_nil_r in Hw. done.
Qed.

Lemma windows_sizes {A} (m : nat) (l : list A) k w :
  (0 < m)%nat → (0 < length l)%nat →
  windows m (window_count m (length l)) l !! k = Some w →
  (1 ≤ length w ≤ m)%nat ∧
  (S k < length (windows m (window_count m (length l)) l) → length w = m)%nat.
Proof.
  intros Hm Hl Hk. rewrite windows_length.
  apply windows_lookup in Hk as [Hlt ->].
  destruct (window_count_bounds m (length l) Hm Hl) as [Hlo Hhi].
  rewrite length_take, length_drop.
  assert (k * m ≤ (window_count m (length l) - 1) * m)%nat by nia.
  split; [lia|]. intros Hnext.
  assert (k * m + m ≤ (window_count m (length l) - 1) * m)%nat by nia.
  lia.
Qed.

Lemma words_in_length_bound max_words cs :
  Forall (within max_words) cs →
  Z.of_nat (length (words_in cs)) ≤ Z.of_nat (length cs) * max_words.
Proof.
  unfold words_in, within. induction 1 as [|c cs Hc _ IH]; [done|].
  cbn [map concat length]. rewrite length_app. lia.
Qed.

(** While everything fits into one chunk, no chunk is closed. *)
Lemma pack_all_small max_words ss st :
  chunks st = [] → 0 ≤ word_count st →
  word_count st + Z.of_nat (length (words_in ss)) ≤ max_words →
  ∃ st', for_each (pack_sentence max_words) ss st = Ok st' ∧ chunks st' = [].
Proof.
  revert st. induction ss as [|s ss IH]; intros st Hch Hwc Hfit; [by exists st|].
  change (words_in (s :: ss)) with (split_ws s ++ words_in ss) in Hfit.
  rewrite length_app in Hfit. cbn [for_each]. unfold pack_sentence.
  destruct (Z.eqb_spec (Z.of_nat (length (split_ws s))) 0) as [Hz|Hnz].
  { cbn [mbind result_bind]. apply IH; [done..|lia]. }
  rewrite (proj2 (Z.ltb_ge _ _)) by lia.
  rewrite (proj2 (Z.ltb_ge max_words _)) by lia.
  cbn [andb mbind result_bind]. apply IH; cbn; [done|lia..].
Qed.

(** ** Claims about [_split_text] *)

(** C1 (as amended). Chunk coverage: for every input text and every
    [max_words >= 1], [_split_text] returns, and the words of the returned
    chunks, concatenated in order, are the words of the trimmed input: no
    word is dropped, duplicated or reordered. *)
Theorem split_text_coverage text max_words :
  1 ≤ max_words →
  ∃ cs, _split_text text max_words = Ok cs ∧
        concat (map split_ws cs) = split_ws (strip text).
Proof.
  intros Hmw. destruct (split_text_ok text max_words Hmw) as (cs & E & Hw & _).
  exists cs. split; [done|]. by rewrite split_ws_strip.
Qed.

Lemma split_text_coverage_witness :
  ∃ cs, _split_text "One. Two three four. Five" 2 = Ok cs ∧
        concat (map split_ws cs) = split_ws (strip "One. Two three four. Five").
Proof. apply (split_text_coverage "One. Two three four. Five" 2). lia. Defined.

(** C1 as stated fails for a limit below one: with [max_words = -1] the
    only sentence counts as oversized and [range(0, 1, -1)] is empty, so
    the word is dropped. *)
Lemma split_text_coverage_counterexample :
  _split_text "a" (-1) = Ok [] ∧
  concat (map split_ws []) ≠ split_ws (strip "a").
Proof. split; [reflexivity|discriminate]. Qed.

Lemma pack_sentence_after_chunks cs max_words st sentence :
  pack_sentence max_words (after_chunks cs st) sentence
  = after_chunks cs <$> pack_sentence max_words st sentence.
Proof.
  unfold pack_sentence, after_chunks. cbn [chunks current_sentences word_count].
  destruct (Z.of_nat (length (split_ws sentence)) =? 0); [done|].
  destruct (max_words <? Z.of_nat (length (split_ws sentence))).
  - destruct (py_range 0 _ max_words) as [starts|e]; [|done].
    cbn [mbind result_bind fmap result_fmap].
    destruct (truthy (current_sentences st));
      cbn [flush chunks current_sentences word_count];
      by rewrite <-?app_assoc.
  - destruct (_ && _); cbn [fmap result_fmap chunks current_sentences word_count];
      by rewrite <-?app_assoc.
Qed.

Lemma for_each_after_chunks cs max_words ss st :
  for_each (pack_sentence max_words) ss (after_chunks cs st)
  = after_chunks cs <$> for_each (pack_sentence max_words) ss st.
Proof.
  revert st. induction ss as [|s ss IH]; intros st; [done|].
  cbn [for_each]. rewrite pack_sentence_after_chunks.
  destruct (pack_sentence max_words st s) as [st'|e]; [|done].
  cbn [fmap result_fmap mbind result_bind]. apply IH.
Qed.

Lemma final_chunks_after_chunks cs st :
  final_chunks (after_chunks cs st) = cs ++ final_chunks st.
Proof.
  unfold final_chunks, after_chunks. cbn [chunks current_sentences].
  destruct (truthy (current_sentences st)); [by rewrite app_assoc|done].
Qed.

(** C2. Chunk size bound: for every input text and every [max_words >= 1]
    each returned chunk has at most [max_words] words; and where a
    sentence of the text has more than [max_words] words, the returned
    list is made of three parts in this order: what the sentences before
    it give, with their accumulated chunk flushed; the consecutive windows
    of the sentence, each one a chunk of its own; what the sentences after
    it give, accumulated afresh.  The windows concatenate to the words of
    the sentence, every window but the last has exactly [max_words] words
    and the last has between one and [max_words]. *)
Theorem split_text_chunk_bound text max_words :
  1 ≤ max_words →
  ∃ cs, _split_text text max_words = Ok cs ∧
    Forall (λ c, Z.of_nat (length (split_ws c)) ≤ max_words) cs ∧
    ∀ before sentence after,
      concat (map sentences_of (paragraphs_of text))
      = before ++ sentence :: after →
      max_words < Z.of_nat (length (split_ws sentence)) →
      ∃ st1 st2 (ws : list (list string)),
        for_each (pack_sentence max_words) before (Packer [] [] 0) = Ok st1 ∧
        for_each (pack_sentence max_words) after (Packer [] [] 0) = Ok st2 ∧
        cs = final_chunks st1 ++ map (join " ") ws ++ final_chunks st2 ∧
        concat ws = split_ws sentence ∧
        (∀ k w, ws !! k = Some w →
           split_ws (join " " w) = w ∧
           (1 ≤ length w ≤ Z.to_nat max_words)%nat ∧
           (S k < length ws → length w = Z.to_nat max_words)%nat).
Proof.
  intros Hmw.
  destruct (split_text_ok text max_words Hmw) as (cs & E & _ & Hb).
  exists cs. split_and!; [done..|].
  intros before sentence after Hss Hbig.
  rewrite split_text_unfold in E. unfold all_sentences in E.
  rewrite Hss, for_each_app in E.
  destruct (pack_all_ok max_words before _ Hmw (packer_ok_init _ Hmw))
    as (st1 & E1 & [Hcnt _ _] & _).
  destruct (pack_all_ok max_words after _ Hmw (packer_ok_init _ Hmw))
    as (st2 & E2 & _ & _).
  set (ws := windows (Z.to_nat max_words)
               (window_count (Z.to_nat max_words) (length (split_ws sentence)))
               (split_ws sentence)).
  exists st1, st2, ws. split_and!; [done|done|..].
  - rewrite E1 in E. cbn [mbind result_bind for_each] in E.
    rewrite pack_sentence_oversized in E by done.
    cbn [mbind result_bind] in E. fold ws in E.
    assert (Packer
              (chunks st1
                 ++ (if truthy (current_sentences st1)
                     then [join " " (current_sentences st1)] else [])
                 ++ map (join " ") ws)
              [] (if truthy (current_sentences st1) then 0 else word_count st1)
            = after_chunks (final_chunks st1 ++ map (join " ") ws)
                (Packer [] [] 0)) as Est.
    { unfold after_chunks, final_chunks. cbn [chunks current_sentences word_count].
      rewrite app_nil_r.
      destruct (truthy (current_sentences st1)) eqn:Ht.
      - by rewrite <-app_assoc.
      - apply truthy_false in Ht. by rewrite Hcnt, Ht. }
    rewrite Est, for_each_after_chunks, E2 in E.
    cbn [fmap result_fmap] in E.
    trans (final_chunks
             (after_chunks (final_chunks st1 ++ map (join " ") ws) st2)).
    + by injection E as <-.
    + by rewrite final_chunks_after_chunks, <-app_assoc.
  - pose proof (window_count_bounds (Z.to_nat max_words)
                  (length (split_ws sentence)) ltac:(lia) ltac:(lia)) as [_ Hcov].
    by apply windows_concat.
  - intros k w Hk. split.
    + apply split_ws_join_atoms.
      pose proof (windows_atoms (Z.to_nat max_words)
                    (window_count (Z.to_nat max_words) (length (split_ws sentence)))
                    (split_ws sentence) (split_ws_atoms _)) as Hat.
      rewrite Forall_forall in Hat. apply Hat. by eapply list_elem_of_lookup_2.
    + eapply windows_sizes; [lia|lia|done].
Qed.

Lemma split_text_chunk_bound_witness :
  ∃ cs, _split_text "One two. a b c d e f g. Three four." 3 = Ok cs ∧
    Forall (λ c, Z.of_nat (length (split_ws c)) ≤ 3) cs ∧
    ∀ before sentence after,
      concat (map sentences_of
                (paragraphs_of "One two. a b c d e f g. Three four."))
      = before ++ sentence :: after →
      3 < Z.of_nat (length (split_ws sentence)) →
      ∃ st1 st2 (ws : list (list string)),
        for_each (pack_sentence 3) before (Packer [] [] 0) = Ok st1 ∧
        for_each (pack_sentence 3) after (Packer [] [] 0) = Ok st2 ∧
        cs = final_chunks st1 ++ map (join " ") ws ++ final_chunks st2 ∧
        concat ws = split_ws sentence ∧
        (∀ k w, ws !! k = Some w →
           split_ws (join " " w) = w ∧
           (1 ≤ length w ≤ Z.to_nat 3)%nat ∧
           (S k < length ws → length w = Z.to_nat 3)%nat).
Proof.
  apply (split_text_chunk_bound "One two. a b c d e f g. Three four." 3). lia.
Defined.

(** The oversized-sentence example in full: the accumulated chunk, the
    three windows of the long sentence, and the chunk of what follows. *)
Example example_oversized_sentence :
  _split_text "One two. a b c d e f g. Three four." 3
  = Ok ["One two."; "a b c"; "d e f"; "g."; "Three four."].
Proof. vm_compute. reflexivity. Qed.

(** C8 (as amended). Chunk count: for every [max_words >= 1] and every
    input text with [W] words, [_split_text] returns; it returns at least
    one chunk when [W >= 1], exactly one chunk when [1 <= W <= max_words]
    (with or without paragraph breaks), and at least [ceil(W / max_words)]
    chunks, in particular for one unbroken sentence of [W] words. *)
Theorem split_text_chunk_count text max_words :
  1 ≤ max_words →
  ∃ cs, _split_text text max_words = Ok cs ∧
        (split_ws text ≠ [] → (1 ≤ length cs)%nat) ∧
        (split_ws text ≠ [] →
         Z.of_nat (length (split_ws text)) ≤ max_words → length cs = 1%nat) ∧
        (Z.of_nat (length (split_ws text)) + max_words - 1) / max_words
          ≤ Z.of_nat (length cs).
Proof.
  intros Hmw.
  destruct (split_text_ok text max_words Hmw) as (cs & E & Hw & Hb).
  exists cs. split; [done|].
  assert (split_ws text ≠ [] → cs ≠ []) as Hne.
  { intros Hne ->. by apply Hne. }
  split_and!.
  - intros H%Hne. destruct cs; [done|]. cbn. lia.
  - intros H%Hne Hfit. rewrite split_text_unfold in E.
    destruct (pack_all_small max_words (all_sentences text) (Packer [] [] 0))
      as (st & Est & Hch); [done|done|..].
    { cbn. by rewrite words_all_sentences. }
    rewrite Est in E. cbn [mbind result_bind] in E. rewrite Hch in E.
    destruct (truthy (current_sentences st)); by simplify_eq.
  - apply words_in_length_bound in Hb. rewrite Hw in Hb.
    apply Z.lt_succ_r, Z.div_lt_upper_bound; lia.
Qed.

Lemma split_text_chunk_count_witness :
  ∃ cs, _split_text "Hi there. Bye" 3 = Ok cs ∧
        (split_ws "Hi there. Bye" ≠ [] → (1 ≤ length cs)%nat) ∧
        (split_ws "Hi there. Bye" ≠ [] →
         Z.of_nat (length (split_ws "Hi there. Bye")) ≤ 3 → length cs = 1%nat) ∧
        (Z.of_nat (length (split_ws "Hi there. Bye")) + 3 - 1) / 3
          ≤ Z.of_nat (length cs).
Proof. apply (split_text_chunk_count "Hi there. Bye" 3). lia. Defined.

(** C8 as stated fails: a text of one space is not empty and has no
    paragraph break, yet it yields no chunk; and with a limit below one a
    one-word text yields no chunk either. *)
Lemma split_text_chunk_count_counterexample :
  " " ≠ "" ∧ _split_text " " 100 = Ok [] ∧ _split_text "a" (-1) = Ok [].
Proof. split_and!; [discriminate|reflexivity..]. Qed.

(** ** Strings and decimal numerals *)

Lemma append_nil_r s : s +:+ "" = s.
Proof. induction s as [|c s IH]; [done|]. by rewrite append_cons, IH. Qed.

Lemma append_assoc s t u : (s +:+ t) +:+ u = s +:+ t +:+ u.
Proof. induction s as [|c s IH]; [done|]. by rewrite !append_cons, IH. Qed.

Lemma length_append s t :
  String.length (s +:+ t) = (String.length s + String.length t)%nat.
Proof. induction s as [|c s IH]; [done|]. rewrite append_cons. cbn. by rewrite IH. Qed.

Lemma append_inv_tail s t u : s +:+ u = t +:+ u → s = t.
Proof.
  revert t. induction s as [|c s IH]; intros [|d t] H.
  - done.
  - apply (f_equal String.length) in H.
    rewrite !length_append in H. cbn in H. lia.
  - apply (f_equal String.length) in H.
    rewrite !length_append in H. cbn in H. lia.
  - rewrite !append_cons in H. simplify_eq. f_equal. by apply IH.
Qed.

Lemma int_go_app a s t : int_go a (s +:+ t) = int_go (int_go a s) t.
Proof.
  revert a. induction s as [|c s IH]; intros a; [done|].
  rewrite append_cons. cbn [int_go]. apply IH.
Qed.

Lemma all_digits_app s t : all_digits (s +:+ t) = all_digits s && all_digits t.
Proof.
  induction s as [|c s IH]; [done|].
  rewrite append_cons. cbn [all_digits]. by rewrite IH, andb_assoc.
Qed.

Lemma all_decimal_app s t :
  all_decimal (s +:+ t) = all_decimal s && all_decimal t.
Proof.
  induction s as [|c s IH]; [done|].
  rewrite append_cons. cbn [all_decimal]. by rewrite IH, andb_assoc.
Qed.

Lemma is_decimal_digit c : is_decimal c = true → is_digit c = true.
Proof. unfold is_digit. by intros ->. Qed.

Lemma all_decimal_digits s : all_decimal s = true → all_digits s = true.
Proof.
  induction s as [|c s IH]; [done|]. cbn [all_decimal all_digits].
  intros [Hc Hs]%andb_true_iff. by rewrite is_decimal_digit, IH.
Qed.

Lemma int_decimal s :
  s ≠ "" → all_decimal s = true → int s = Ok (int_go 0 s).
Proof. intros Hne Hs. unfold int. rewrite Hs. by destruct s. Qed.

Lemma int_not_decimal s :
  all_decimal s = false →
  int s = Raise (ValueError "invalid literal for int() with base 10").
Proof. intros Hs. unfold int. by rewrite Hs, andb_false_r. Qed.

Lemma digit_char_value k :
  (k < 10)%nat → nat_of_ascii (digit_char k) = (48 + k)%nat.
Proof. intros Hk. unfold digit_char. apply nat_ascii_embedding. lia. Qed.

Lemma digit_char_is_digit k : (k < 10)%nat → is_decimal (digit_char k) = true.
Proof.
  intros Hk. unfold is_decimal. rewrite digit_char_value by done.
  apply andb_true_iff. split; apply Nat.leb_le; lia.
Qed.

Lemma mod10_is_digit n : is_decimal (digit_char (n mod 10)) = true.
Proof. apply digit_char_is_digit, Nat.mod_upper_bound. lia. Qed.

Lemma mod10_value n :
  Z.of_nat (nat_of_ascii (digit_char (n mod 10))) - 48 = Z.of_nat (n mod 10).
Proof.
  rewrite digit_char_value by (apply Nat.mod_upper_bound; lia). lia.
Qed.

(** [decimal_go] puts the digits of [n] in front of [acc]. *)
Lemma decimal_go_spec fuel n acc :
  (n < fuel)%nat →
  ∃ d, decimal_go fuel n acc = d +:+ acc ∧ d ≠ "" ∧ all_decimal d = true ∧
       int_go 0 d = Z.of_nat n.
Proof.
  revert n acc. induction fuel as [|fuel IH]; intros n acc Hn; [lia|].
  cbn [decimal_go]. destruct (Nat.ltb_spec n 10) as [Hlt|Hge].
  - exists (String (digit_char (n mod 10)) ""). split_and!; [done|done|..].
    + cbn [all_decimal]. by rewrite mod10_is_digit.
    + cbn [int_go]. rewrite mod10_value, Nat.mod_small by done. lia.
  - destruct (IH (n / 10)%nat (String (digit_char (n mod 10)) acc))
      as (d & E & Hne & Hd & Hv).
    { pose proof (Nat.div_lt n 10). lia. }
    exists (d +:+ String (digit_char (n mod 10)) ""). split_and!.
    + by rewrite E, append_assoc.
    + by destruct d.
    + rewrite all_decimal_app, Hd. cbn [all_decimal]. by rewrite mod10_is_digit.
    + rewrite int_go_app, Hv. cbn [int_go]. rewrite mod10_value.
      pose proof (Nat.div_mod n 10 ltac:(lia)). lia.
Qed.

Lemma decimal_spec n :
  decimal n ≠ "" ∧ all_decimal (decimal n) = true ∧
  int_go 0 (decimal n) = Z.of_nat n.
Proof.
  unfold decimal.
  destruct (decimal_go_spec (S n) n "" ltac:(lia)) as (d & E & ? & ? & ?).
  rewrite E, append_nil_r. done.
Qed.

Lemma format_02d_decimal idx :
  format_02d idx ≠ "" ∧ all_decimal (format_02d idx) = true ∧
  int_go 0 (format_02d idx) = Z.of_nat idx.
Proof.
  destruct (decimal_spec idx) as (Hne & Hd & Hv). unfold format_02d.
  destruct (_ <? 2)%nat; [|done].
  change ("0" +:+ decimal idx) with (String "0"%char (decimal idx)).
  split_and!; [done| |exact Hv]. cbn [all_decimal]. by rewrite Hd.
Qed.

(** The index written by the synthesis driver is read back by [isdigit]
    and [int]. *)
Lemma format_02d_spec idx :
  isdigit (format_02d idx) = true ∧ int (format_02d idx) = Ok (Z.of_nat idx).
Proof.
  destruct (format_02d_decimal idx) as (Hne & Hd & Hv). split.
  - unfold isdigit. rewrite all_decimal_digits by done.
    by destruct (format_02d idx).
  - by rewrite int_decimal, Hv.
Qed.

Lemma format_02d_width idx : (2 ≤ String.length (format_02d idx))%nat.
Proof.
  destruct (decimal_spec idx) as (Hne & _). unfold format_02d.
  destruct (Nat.ltb_spec (String.length (decimal idx)) 2) as [Hlt|Hge]; [|done].
  change ("0" +:+ decimal idx) with (String "0"%char (decimal idx)).
  destruct (decimal idx); [done|]. cbn. lia.
Qed.

Lemma format_02d_inj i j : format_02d i = format_02d j → i = j.
Proof.
  intros H. apply Nat2Z.inj.
  destruct (format_02d_decimal i) as (_ & _ & <-).
  destruct (format_02d_decimal j) as (_ & _ & <-).
  by rewrite H.
Qed.

Lemma format_02d_two_digits idx :
  (idx < 100)%nat →
  format_02d idx
  = String (digit_char (idx / 10)) (String (digit_char (idx mod 10)) "").
Proof.
  intros H. do 100 (destruct idx as [|idx]; [reflexivity|]). lia.
Qed.

(** ** The synthesis driver *)

Lemma lstrip_head s c r : lstrip s = String c r → isspace c = false.
Proof.
  induction s as [|x s IH]; [done|]. cbn [lstrip].
  destruct (isspace x) eqn:Hx; [done|]. by intros [= <- _].
Qed.

Lemma split_ws_strip_nonempty s : nonempty (strip s) = true → split_ws (strip s) ≠ [].
Proof.
  unfold strip. destruct (lstrip (rstrip s)) as [|c r] eqn:E; [done|].
  intros _. apply lstrip_head in E.
  rewrite split_ws_scan, scan_words_cons. unfold scan_step. rewrite E.
  destruct (scan_words r). done.
Qed.

(** A text that is not empty after trimming has at least one chunk. *)
Lemma split_text_stripped content :
  nonempty (strip content) = true →
  ∃ cs, _split_text (strip content) 100 = Ok cs ∧ cs ≠ [].
Proof.
  intros Hne. destruct (split_text_ok (strip content) 100 ltac:(lia)) as (cs & E & Hw & _).
  exists cs. split; [done|]. intros ->.
  by apply (split_ws_strip_nonempty content).
Qed.

Lemma enumerate_paths {A} (f : nat → string) (l : list A) start :
  map (λ '(idx, _), f idx) (zip (seq start (length l)) l)
  = map f (seq start (length l)).
Proof.
  revert start. induction l as [|x l IH]; intros start; [done|].
  cbn. by rewrite IH.
Qed.

Lemma output_paths_multi base_name suffix cs :
  length cs ≠ 1%nat →
  output_paths base_name suffix cs
  = map (chunk_path base_name suffix) (seq 1 (length cs)).
Proof.
  intros H. unfold output_paths.
  rewrite (proj2 (Nat.eqb_neq _ _)) by done.
  apply (enumerate_paths (chunk_path base_name suffix)).
Qed.

Lemma output_paths_length base_name suffix cs :
  cs ≠ [] → length (output_paths base_name suffix cs) = length cs.
Proof.
  intros Hne. unfold output_paths. destruct (Nat.eqb_spec (length cs) 1) as [->|_].
  - done.
  - unfold enumerate. by rewrite length_map, length_zip, length_seq, Nat.min_id.
Qed.

#[local] Instance chunk_path_inj base_name suffix :
  Inj (=) (=) (chunk_path base_name suffix).
Proof.
  intros i j H. unfold chunk_path in H.
  apply (inj (String.app base_name)), (inj (String.app "-")) in H.
  by apply append_inv_tail, format_02d_inj in H.
Qed.

Lemma output_paths_NoDup base_name suffix cs :
  NoDup (output_paths base_name suffix cs).
Proof.
  destruct (decide (length cs = 1%nat)) as [H1|H1].
  - unfold output_paths. rewrite H1. cbn. apply NoDup_singleton.
  - rewrite output_paths_multi by done. apply NoDup_fmap_2; [apply _|].
    apply NoDup_seq.
Qed.

Section driver.
Context (write_time : nat → float).

Lemma foldl_enumerate (txt : text_file) (f : nat → string) cs start st :
  foldl (λ st '(idx, chunk_text), emit write_time txt st chunk_text (f idx))
    st (zip (seq start (length cs)) cs)
  = foldl (λ st '(chunk_text, path), emit write_time txt st chunk_text path)
      st (zip cs (map f (seq start (length cs)))).
Proof.
  revert start st. induction cs as [|c cs IH]; intros start st; [done|].
  cbn. apply IH.
Qed.

(** [synthesize_file] visits the chunks in order, each with its own
    output path. *)
Lemma synthesize_file_paths suffix st txt cs :
  nonempty (strip (txt_content txt)) = true →
  _split_text (strip (txt_content txt)) 100 = Ok cs →
  synthesize_file write_time suffix st txt
  = Ok (foldl (λ st '(chunk_text, path), emit write_time txt st chunk_text path)
          st (zip cs (output_paths (stem (txt_name txt)) suffix cs))).
Proof.
  intros Hne E. unfold synthesize_file. rewrite Hne, E.
  cbn [negb mbind result_bind].
  destruct (Nat.eqb_spec (length cs) 1) as [H1|H1].
  - destruct cs as [|c [|? ?]]; try done.
  - rewrite output_paths_multi by done. unfold enumerate. f_equal.
    apply (foldl_enumerate txt (chunk_path (stem (txt_name txt)) suffix)).
Qed.

Lemma up_to_date_emit txt st chunk_text p q :
  p ≠ q →
  up_to_date txt (emit write_time txt st chunk_text p) q = up_to_date txt st q.
Proof.
  intros Hpq. unfold emit. destruct (up_to_date txt st p); [done|].
  unfold up_to_date. cbn. by rewrite lookup_insert_ne.
Qed.

Lemma filter_ext_in {A} (P Q : A → Prop) `{∀ x, Decision (P x)}
    `{∀ x, Decision (Q x)} (l : list A) :
  (∀ x, x ∈ l → P x ↔ Q x) → filter P l = filter Q l.
Proof.
  induction l as [|x l IH]; intros HPQ; [done|].
  rewrite !filter_cons.
  rewrite IH by (intros y Hy; apply HPQ; by right).
  destruct (decide (P x)) as [HP|HP], (decide (Q x)) as [HQ|HQ]; try done.
  - destruct HQ. apply HPQ; [by left|done].
  - destruct HP. apply HPQ; [by left|done].
Qed.

(** The outputs needing (re)generation are decided on the state the file
    is entered with: the paths of one text file are pairwise distinct, so
    writing one of them changes the test of no other. *)
Lemma foldl_emit txt (items : list (string * string)) st :
  NoDup items.*2 →
  let st' := foldl (λ st '(chunk_text, path), emit write_time txt st chunk_text path)
               st items in
  generated st'
  = generated st ++ filter (λ p, up_to_date txt st p = false) items.*2 ∧
  synthesized st'
  = synthesized st ++ filter (λ cp, up_to_date txt st cp.2 = false) items.
Proof.
  revert st. induction items as [|[c p] items IH]; intros st Hnd.
  { cbn. by rewrite !app_nil_r. }
  apply NoDup_cons in Hnd as [Hp Hnd]. cbn [foldl].
  destruct (IH (emit write_time txt st c p) Hnd) as [Hg Hs].
  cbn zeta. rewrite Hg, Hs. clear Hg Hs IH.
  rewrite (filter_ext_in _ (λ q, up_to_date txt st q = false) items.*2).
  2:{ intros q Hq. rewrite up_to_date_emit; [done|]. by intros ->. }
  rewrite (filter_ext_in _ (λ cp, up_to_date txt st cp.2 = false) items).
  2:{ intros [c' q] Hq. cbn. rewrite up_to_date_emit; [done|].
      intros ->. apply Hp. apply list_elem_of_fmap. by exists (c', q). }
  cbn [fmap list_fmap]. rewrite !filter_cons. cbn [snd].
  unfold emit. destruct (up_to_date txt st p) eqn:Hup.
  - rewrite !decide_False by done. done.
  - rewrite !decide_True by done. cbn. by rewrite <-!app_assoc.
Qed.

Lemma up_to_date_emit_other txt txt' st chunk_text p q :
  p ≠ q →
  up_to_date txt' (emit write_time txt st chunk_text p) q = up_to_date txt' st q.
Proof.
  intros Hpq. unfold emit. destruct (up_to_date txt st p); [done|].
  unfold up_to_date. cbn. by rewrite lookup_insert_ne.
Qed.

Lemma synthesize_file_outputs suffix st txt :
  synthesize_file write_time suffix st txt
  = Ok (foldl (emit_output write_time) st (outputs_of suffix txt)).
Proof.
  unfold outputs_of, chunks_of.
  destruct (nonempty (strip (txt_content txt))) eqn:Hne.
  - destruct (split_text_stripped _ Hne) as (cs & E & _).
    rewrite (synthesize_file_paths suffix st txt cs Hne E), E. f_equal.
    generalize (output_paths (stem (txt_name txt)) suffix cs). intros paths.
    generalize (zip cs paths). intros items. revert st.
    induction items as [|[c p] items IH]; intros st; [done|]. cbn. apply IH.
  - unfold synthesize_file. by rewrite Hne.
Qed.

Lemma for_each_synthesize_file suffix files st :
  for_each (synthesize_file write_time suffix) files st
  = Ok (foldl (emit_output write_time) st
          (concat (map (outputs_of suffix) files))).
Proof.
  revert st. induction files as [|txt files IH]; intros st; [done|].
  cbn [for_each map concat]. rewrite synthesize_file_outputs.
  cbn [mbind result_bind]. by rewrite IH, foldl_app.
Qed.

(** Across text files too, as long as no output path occurs twice, every
    output is tested on the files the run starts with. *)
Lemma foldl_emit_outputs (outs : list (text_file * string * string)) st :
  NoDup outs.*2 →
  let st' := foldl (emit_output write_time) st outs in
  generated st' = generated st ++ (filter (needs_synthesis st) outs).*2 ∧
  synthesized st'
  = synthesized st ++ map (λ o, (o.1.2, o.2)) (filter (needs_synthesis st) outs).
Proof.
  revert st. induction outs as [|[[txt c] p] outs IH]; intros st Hnd.
  { cbn. by rewrite !app_nil_r. }
  apply NoDup_cons in Hnd as [Hp Hnd]. cbn [foldl].
  destruct (IH (emit_output write_time st (txt, c, p)) Hnd) as [Hg Hs].
  cbn zeta. rewrite Hg, Hs. clear Hg Hs IH.
  rewrite (filter_ext_in _ (needs_synthesis st) outs).
  2:{ intros [[txt' c'] q] Hq. unfold needs_synthesis, emit_output. cbn.
      rewrite up_to_date_emit_other; [done|].
      intros ->. apply Hp. apply list_elem_of_fmap. by exists (txt', c', q). }
  unfold emit_output, emit. cbn [fst snd].
  destruct (decide (needs_synthesis st (txt, c, p))) as [Hn|Hn].
  - rewrite !filter_cons_True by done. unfold needs_synthesis in Hn.
    cbn [fst snd] in Hn. rewrite Hn. cbn. by rewrite <-!app_assoc.
  - rewrite !filter_cons_False by done. unfold needs_synthesis in Hn.
    cbn [fst snd] in Hn. apply not_false_is_true in Hn. by rewrite Hn.
Qed.
End driver.

Lemma for_each_total {A S} (body : S → A → result S) :
  (∀ s x, ∃ s', body s x = Ok s') → ∀ l s, ∃ s', for_each body l s = Ok s'.
Proof.
  intros Hbody l. induction l as [|x l IH]; intros s; [by exists s|].
  destruct (Hbody s x) as [s1 E1]. destruct (IH s1) as [s2 E2].
  exists s2. cbn [for_each]. by rewrite E1.
Qed.

Lemma synthesize_file_total write_time suffix st txt :
  ∃ st', synthesize_file write_time suffix st txt = Ok st'.
Proof.
  destruct (nonempty (strip (txt_content txt))) eqn:Hne.
  - destruct (split_text_stripped _ Hne) as (cs & E & _).
    rewrite (synthesize_file_paths write_time suffix st txt cs Hne E). eauto.
  - unfold synthesize_file. rewrite Hne. eauto.
Qed.

(** ** Claims about [synthesize_directory] *)

(** C6 (as amended). Naming determinism: a text file with stem [S] whose
    trimmed text is not empty has at least one chunk; its chunks are
    visited in order, the [i]-th with the [i]-th output path; one chunk
    gives the single path [S + suffix]; [k > 1] chunks give [S-01],
    [S-02], ... plus the suffix, the index being 1-based and written in
    decimal, padded with zeros to at least two digits: exactly two digits
    for every index below 100. *)
Theorem output_naming write_time suffix st txt :
  nonempty (strip (txt_content txt)) = true →
  let S := stem (txt_name txt) in
  ∃ cs, _split_text (strip (txt_content txt)) 100 = Ok cs ∧
        (1 ≤ length cs)%nat ∧
        synthesize_file write_time suffix st txt
        = Ok (foldl (λ st '(chunk_text, path),
                       emit write_time txt st chunk_text path)
                st (zip cs (output_paths S suffix cs))) ∧
        (length cs = 1%nat → output_paths S suffix cs = [S +:+ suffix]) ∧
        ((1 < length cs)%nat →
         output_paths S suffix cs
         = map (λ idx, S +:+ "-" +:+ format_02d idx +:+ suffix)
             (seq 1 (length cs))) ∧
        (∀ idx, isdigit (format_02d idx) = true ∧
                int (format_02d idx) = Ok (Z.of_nat idx) ∧
                (2 ≤ String.length (format_02d idx))%nat) ∧
        (∀ idx, (idx < 100)%nat →
           format_02d idx
           = String (digit_char (idx / 10))
               (String (digit_char (idx mod 10)) "")).
Proof.
  intros Hne S. destruct (split_text_stripped _ Hne) as (cs & E & Hcs).
  exists cs. split_and!.
  - done.
  - destruct cs; [done|cbn; lia].
  - by apply synthesize_file_paths.
  - intros H1. unfold output_paths. by rewrite H1.
  - intros Hk. rewrite output_paths_multi by lia. done.
  - intros idx. destruct (format_02d_spec idx). split_and!; [done..|].
    apply format_02d_width.
  - apply format_02d_two_digits.
Qed.

Lemma output_naming_witness :
  let txt := TextFile "chapter1.txt" "Once upon a time." 0%float in
  let st := SynthState ∅ [] [] in
  let S := stem (txt_name txt) in
  ∃ cs, _split_text (strip (txt_content txt)) 100 = Ok cs ∧
        (1 ≤ length cs)%nat ∧
        synthesize_file (λ _, 1%float) ".wav" st txt
        = Ok (foldl (λ st '(chunk_text, path),
                       emit (λ _, 1%float) txt st chunk_text path)
                st (zip cs (output_paths S ".wav" cs))) ∧
        (length cs = 1%nat → output_paths S ".wav" cs = [S +:+ ".wav"]) ∧
        ((1 < length cs)%nat →
         output_paths S ".wav" cs
         = map (λ idx, S +:+ "-" +:+ format_02d idx +:+ ".wav")
             (seq 1 (length cs))) ∧
        (∀ idx, isdigit (format_02d idx) = true ∧
                int (format_02d idx) = Ok (Z.of_nat idx) ∧
                (2 ≤ String.length (format_02d idx))%nat) ∧
        (∀ idx, (idx < 100)%nat →
           format_02d idx
           = String (digit_char (idx / 10))
               (String (digit_char (idx mod 10)) "")).
Proof.
  apply (output_naming (λ _, 1%float) ".wav" (SynthState ∅ [] [])
           (TextFile "chapter1.txt" "Once upon a time." 0%float)).
  reflexivity.
Defined.

(** C6 as stated fails from the hundredth chunk on: a text of 9901 words
    has 100 chunks and the last output is [chapter1-100.wav], whose index
    has three digits. *)
Lemma output_naming_counterexample :
  length <$> _split_text (strip long_text) 100 = Ok 100%nat ∧
  (last ∘ generated) <$>
    synthesize_directory (λ _, 9%float)
      (Some [TextFile "chapter1.txt" long_text 3%float]) ".wav" ∅
  = Ok (Some "chapter1-100.wav").
Proof. split; vm_compute; reflexivity. Qed.

(** The two examples of the specification. *)
Example output_paths_chapter1_single c :
  output_paths (stem "chapter1.txt") ".wav" [c] = ["chapter1.wav"].
Proof. reflexivity. Qed.

Example output_paths_chapter1_three c1 c2 c3 :
  output_paths (stem "chapter1.txt") ".wav" [c1; c2; c3]
  = ["chapter1-01.wav"; "chapter1-02.wav"; "chapter1-03.wav"].
Proof. reflexivity. Qed.

(** C7 (as amended). Idempotent skip rule: an output file is up to date
    exactly when it exists and the text is not newer; visiting an
    up-to-date output synthesizes nothing and appends nothing to the
    result; visiting any other output (missing, or older than the text)
    synthesizes it, writes it and appends it to the result; within one
    text file the test of each output is the test on the state the file is
    entered with, chunk by chunk, so that the result holds, besides what it
    held before, exactly the outputs of the file that were missing or older
    than the text; a directory run never raises, whatever outputs are
    missing, and, when no two text files share an output path, it returns
    exactly the outputs that were missing or older than their text when the
    run started, in the order in which they are visited, so that no skipped
    output is in the returned list. *)
Theorem skip_rule write_time suffix st txt :
  (∀ p, up_to_date txt st p = true ↔
        ∃ audio_mtime, audio_files st !! p = Some audio_mtime ∧
                       (txt_mtime txt <=? audio_mtime)%float = true) ∧
  (∀ chunk_text p,
     up_to_date txt st p = true → emit write_time txt st chunk_text p = st) ∧
  (∀ chunk_text p,
     up_to_date txt st p = false →
     emit write_time txt st chunk_text p
     = SynthState
         (<[p := write_time (length (synthesized st))]> (audio_files st))
         (synthesized st ++ [(chunk_text, p)])
         (generated st ++ [p])) ∧
  (∃ st', synthesize_file write_time suffix st txt = Ok st' ∧
     ∀ cs, nonempty (strip (txt_content txt)) = true →
           _split_text (strip (txt_content txt)) 100 = Ok cs →
           let paths := output_paths (stem (txt_name txt)) suffix cs in
           generated st'
           = generated st ++ filter (λ p, up_to_date txt st p = false) paths ∧
           synthesized st'
           = synthesized st
               ++ filter (λ cp, up_to_date txt st cp.2 = false) (zip cs paths) ∧
           (∀ p, p ∈ generated st' ↔
                 p ∈ generated st ∨ p ∈ paths ∧ up_to_date txt st p = false)) ∧
  (nonempty (strip (txt_content txt)) = false → outputs_of suffix txt = []) ∧
  (∀ cs, nonempty (strip (txt_content txt)) = true →
         _split_text (strip (txt_content txt)) 100 = Ok cs →
         outputs_of suffix txt
         = map (λ '(c, p), (txt, c, p))
             (zip cs (output_paths (stem (txt_name txt)) suffix cs))) ∧
  (∀ entries files,
     let outs :=
       concat (map (outputs_of suffix)
                 (py_sorted txt_name String.leb
                    (filter (λ f, ends_with ".txt" (txt_name f)) entries))) in
     ∃ st', synthesize_directory write_time (Some entries) suffix files = Ok st' ∧
            (NoDup outs.*2 →
             generated st'
             = (filter (needs_synthesis (SynthState files [] [])) outs).*2 ∧
             synthesized st'
             = map (λ o, (o.1.2, o.2))
                 (filter (needs_synthesis (SynthState files [] [])) outs))).
Proof.
  split_and!.
  - intros p. unfold up_to_date. destruct (audio_files st !! p) as [m|].
    + split; [eauto|]. by intros (? & [= <-] & ?).
    + split; [done|]. by intros (? & ? & _).
  - intros c p Hup. unfold emit. by rewrite Hup.
  - intros c p Hup. unfold emit. by rewrite Hup.
  - destruct (synthesize_file_total write_time suffix st txt) as [st' E].
    exists st'. split; [done|]. intros cs Hne Ecs paths.
    rewrite (synthesize_file_paths write_time suffix st txt cs Hne Ecs) in E.
    injection E as <-.
    assert (cs ≠ []) as Hcs.
    { destruct (split_text_stripped _ Hne) as (cs' & E' & ?). congruence. }
    pose proof (foldl_emit write_time txt (zip cs paths) st) as H.
    rewrite snd_zip in H by (unfold paths; by rewrite output_paths_length).
    destruct (H (output_paths_NoDup _ _ _)) as [Hg Hs].
    cbn zeta in Hg. unfold paths in *. clear paths H.
    split_and!; [done..|]. intros p.
    rewrite Hg, elem_of_app, list_elem_of_filter. tauto.
  - intros Hne. unfold outputs_of, chunks_of. by rewrite Hne.
  - intros cs Hne E. unfold outputs_of, chunks_of. by rewrite Hne, E.
  - intros entries files outs. unfold synthesize_directory.
    rewrite for_each_synthesize_file. fold outs. eexists. split; [done|].
    intros Hnd.
    exact (foldl_emit_outputs write_time outs (SynthState files [] []) Hnd).
Qed.

(** C7 as stated fails when two text files share an output path:
    [a-01.txt] is visited first and writes [a-01.wav]; when the first chunk
    of [a.txt] is visited, [a-01.wav] exists and is not older than
    [a.txt], so that chunk is skipped and never synthesized, and yet
    [a-01.wav] is in the returned list. *)
Lemma skip_rule_counterexample :
  outputs_of ".wav" (TextFile "a.txt" two_chunk_text 1%float)
  = [(TextFile "a.txt" two_chunk_text 1%float,
      join " " (replicate 100 "w"), "a-01.wav");
     (TextFile "a.txt" two_chunk_text 1%float, "w", "a-02.wav")] ∧
  synthesize_directory (λ _, 2%float) (Some shared_output_texts) ".wav" ∅
  = Ok (SynthState
          {["a-01.wav" := 2%float; "a-02.wav" := 2%float]}
          [("Hello.", "a-01.wav"); ("w", "a-02.wav")]
          ["a-01.wav"; "a-02.wav"]) ∧
  up_to_date (TextFile "a.txt" two_chunk_text 1%float)
    (SynthState {["a-01.wav" := 2%float]} [("Hello.", "a-01.wav")] ["a-01.wav"])
    "a-01.wav" = true ∧
  (run_outputs ".wav" shared_output_texts).*2
  = ["a-01.wav"; "a-01.wav"; "a-02.wav"].
Proof. split_and!; vm_compute; reflexivity. Qed.

(** The skip-rule example of the specification: [chapter1.wav] as new as
    [chapter1.txt] is left alone; an older one is regenerated. *)
Example example_up_to_date_is_skipped :
  synthesize_directory (λ _, 9%float)
    (Some [TextFile "chapter1.txt" "Once upon a time." 2%float]) ".wav"
    {["chapter1.wav" := 2%float]}
  = Ok (SynthState {["chapter1.wav" := 2%float]} [] []).
Proof. vm_compute. reflexivity. Qed.

Example example_newer_text_is_regenerated :
  generated <$>
    (synthesize_directory (λ _, 9%float)
       (Some [TextFile "chapter1.txt" "Once upon a time." 3%float]) ".wav"
       {["chapter1.wav" := 2%float]})
  = Ok ["chapter1.wav"].
Proof. vm_compute. reflexivity. Qed.

(** ** Stable sorting *)

Section py_sorted_facts.
Context {A K : Type} (key : A → K) (leb : K → K → bool).
Hypothesis leb_total : ∀ a b, leb a b = true ∨ leb b a = true.
Hypothesis leb_trans : ∀ a b c, leb a b = true → leb b c = true → leb a c = true.

Local Abbreviation sorted_le := (key_le key leb).

Lemma insert_sorted_perm x l : insert_sorted key leb x l ≡ₚ x :: l.
Proof.
  induction l as [|y l IH]; [done|]. cbn [insert_sorted].
  destruct (leb (key x) (key y)); [done|]. rewrite IH. apply Permutation_swap.
Qed.

Lemma py_sorted_perm l : py_sorted key leb l ≡ₚ l.
Proof.
  induction l as [|x l IH]; [done|].
  cbn [py_sorted foldr]. fold (py_sorted key leb l).
  by rewrite insert_sorted_perm, IH.
Qed.

Lemma insert_sorted_StronglySorted x l :
  StronglySorted sorted_le l → StronglySorted sorted_le (insert_sorted key leb x l).
Proof.
  induction 1 as [|y l Hl IH Hy]; cbn [insert_sorted].
  { repeat constructor. }
  destruct (leb (key x) (key y)) eqn:E.
  - constructor; [by constructor|]. constructor; [done|].
    eapply Forall_impl; [done|]. intros z Hz. by eapply leb_trans.
  - constructor; [done|]. rewrite insert_sorted_perm. constructor; [|done].
    unfold key_le. by destruct (leb_total (key x) (key y)) as [?|?]; [congruence|].
Qed.

Lemma py_sorted_StronglySorted l : StronglySorted sorted_le (py_sorted key leb l).
Proof.
  induction l as [|x l IH]; [constructor|].
  cbn [py_sorted foldr]. by apply insert_sorted_StronglySorted.
Qed.

Lemma filter_insert_sorted (P : A → Prop) `{∀ x, Decision (P x)} x l :
  StronglySorted sorted_le l →
  filter P (insert_sorted key leb x l)
  = if decide (P x) then insert_sorted key leb x (filter P l) else filter P l.
Proof.
  induction 1 as [|y l Hl IH Hy]; cbn [insert_sorted].
  { rewrite filter_cons, filter_nil. by destruct (decide (P x)). }
  destruct (leb (key x) (key y)) eqn:E.
  - rewrite (filter_cons _ x). destruct (decide (P x)) as [HP|HP]; [|done].
    rewrite (filter_cons _ y). destruct (decide (P y)) as [HPy|HPy].
    + cbn [insert_sorted]. by rewrite E.
    + destruct (filter P l) as [|z l'] eqn:Ef; [done|].
      cbn [insert_sorted].
      assert (z ∈ l) as Hz.
      { apply (list_elem_of_filter P). rewrite Ef. by left. }
      rewrite Forall_forall in Hy.
      by rewrite (leb_trans _ _ _ E (Hy z Hz)).
  - rewrite !(filter_cons _ y), IH.
    destruct (decide (P y)), (decide (P x)); try done.
    cbn [insert_sorted]. by rewrite E.
Qed.

(** Sorting commutes with filtering: the sort is stable. *)
Lemma filter_py_sorted (P : A → Prop) `{∀ x, Decision (P x)} l :
  filter P (py_sorted key leb l) = py_sorted key leb (filter P l).
Proof.
  induction l as [|x l IH]; [done|].
  cbn [py_sorted foldr]. fold (py_sorted key leb l).
  rewrite filter_insert_sorted by apply py_sorted_StronglySorted.
  rewrite filter_cons, IH. by destruct (decide (P x)).
Qed.

(** Where the key identifies the element, the result does not depend on
    the order of the input. *)
Lemma py_sorted_unique l1 l2 :
  (∀ a b, leb a b = true → leb b a = true → a = b) →
  (∀ x y, x ∈ l1 → y ∈ l1 → key x = key y → x = y) →
  l1 ≡ₚ l2 → py_sorted key leb l1 = py_sorted key leb l2.
Proof.
  intros Hanti Hinj Hperm.
  apply (StronglySorted_unique_strong sorted_le);
    [|apply py_sorted_StronglySorted..|by rewrite !py_sorted_perm].
  intros x y Hx Hy Hxy Hyx. apply Hinj.
  - by rewrite py_sorted_perm in Hx.
  - by rewrite py_sorted_perm, <-Hperm in Hy.
  - by apply Hanti.
Qed.
End py_sorted_facts.

Lemma string_leb_total a b : String.leb a b = true ∨ String.leb b a = true.
Proof. apply String.leb_total. Qed.

Lemma string_leb_trans a b c :
  String.leb a b = true → String.leb b c = true → String.leb a c = true.
Proof.
  intros H1%Is_true_true H2%Is_true_true. apply Is_true_true.
  exact (transitivity (R := String.le) H1 H2).
Qed.

Lemma string_leb_antisym a b :
  String.leb a b = true → String.leb b a = true → a = b.
Proof. apply String.leb_antisym. Qed.

Lemma Z_leb_total a b : (a <=? b) = true ∨ (b <=? a) = true.
Proof. destruct (Z.leb_spec a b), (Z.leb_spec b a); auto; lia. Qed.

Lemma Z_leb_trans a b c :
  (a <=? b) = true → (b <=? c) = true → (a <=? c) = true.
Proof. rewrite !Z.leb_le. lia. Qed.

(** ** File names *)

Lemma rsplit1_Some sep s before after :
  rsplit1 sep s = Some (before, after) →
  s = before +:+ String sep after ∧ rsplit1 sep after = None.
Proof.
  revert before. induction s as [|c s IH]; intros before; [done|].
  cbn [rsplit1]. destruct (rsplit1 sep s) as [[b a]|] eqn:E.
  - intros [= <- <-]. destruct (IH b eq_refl) as [-> Ha]. done.
  - destruct (Ascii.eqb_spec c sep) as [->|]; [|done].
    intros [= <- <-]. done.
Qed.

Lemma rsplit1_app sep before after :
  rsplit1 sep after = None →
  rsplit1 sep (before +:+ String sep after) = Some (before, after).
Proof.
  intros Ha. induction before as [|c b IH].
  - rewrite append_nil_l. cbn [rsplit1]. by rewrite Ha, Ascii.eqb_refl.
  - rewrite append_cons. cbn [rsplit1]. by rewrite IH.
Qed.

Lemma rsplit1_digits s : all_digits s = true → rsplit1 "-"%char s = None.
Proof.
  induction s as [|c s IH]; [done|]. cbn [all_digits rsplit1].
  intros [Hc Hs]%andb_true_iff. rewrite IH by done.
  destruct (Ascii.eqb_spec c "-"%char) as [->|]; done.
Qed.

Lemma base_and_index_suffixed base digits :
  isdigit digits = true →
  base_and_index (base +:+ "-" +:+ digits)
  = (λ idx, (base, idx)) <$> int digits.
Proof.
  intros Hd. unfold base_and_index.
  change ("-" +:+ digits) with (String "-"%char digits).
  rewrite rsplit1_app, Hd; [by destruct (int digits)|].
  apply rsplit1_digits. unfold isdigit in Hd. by apply andb_true_iff in Hd as [_ ?].
Qed.

Lemma isdecimal_isdigit digits : isdecimal digits = true → isdigit digits = true.
Proof.
  unfold isdecimal, isdigit. intros [-> Hd]%andb_true_iff.
  by rewrite all_decimal_digits.
Qed.

Lemma int_isdecimal digits :
  int digits
  = if isdecimal digits then Ok (int_go 0 digits)
    else Raise (ValueError "invalid literal for int() with base 10").
Proof. done. Qed.

Lemma base_and_index_decimal base digits :
  isdecimal digits = true →
  base_and_index (base +:+ "-" +:+ digits) = Ok (base, int_go 0 digits).
Proof.
  intros Hd. rewrite base_and_index_suffixed by by apply isdecimal_isdigit.
  by rewrite int_isdecimal, Hd.
Qed.

Lemma base_and_index_refused base digits :
  isdigit digits = true → isdecimal digits = false →
  base_and_index (base +:+ "-" +:+ digits)
  = Raise (ValueError "invalid literal for int() with base 10").
Proof.
  intros Hd Hn. rewrite base_and_index_suffixed by done.
  by rewrite int_isdecimal, Hn.
Qed.

Lemma base_and_index_cases stem :
  base_and_index stem = Ok (stem, 0) ∨
  ∃ base digits, stem = base +:+ "-" +:+ digits ∧ isdigit digits = true ∧
                 base_and_index stem = (λ idx, (base, idx)) <$> int digits.
Proof.
  unfold base_and_index.
  destruct (rsplit1 "-"%char stem) as [[b a]|] eqn:E; [|by left].
  destruct (isdigit a) eqn:Hd; [|by left].
  right. exists b, a. apply rsplit1_Some in E as [-> _].
  split_and!; [done..|]. by destruct (int a).
Qed.

(** The only error of [base_and_index] is the one of [int]. *)
Lemma base_and_index_Raise stem e :
  base_and_index stem = Raise e →
  e = ValueError "invalid literal for int() with base 10" ∧
  ∃ base digits, stem = base +:+ "-" +:+ digits ∧ isdigit digits = true ∧
                 isdecimal digits = false.
Proof.
  destruct (base_and_index_cases stem) as [->|(b & d & -> & Hd & ->)]; [done|].
  rewrite int_isdecimal. destruct (isdecimal d) eqn:Hn; [done|].
  intros [= <-]. split; [done|]. by exists b, d.
Qed.

Lemma readable_true p :
  readable p = true ↔ base_and_index (stem p) = Ok (parts_of p).
Proof.
  unfold readable, parts_of. by destruct (base_and_index (stem p)).
Qed.

Lemma parts_of_Ok p parts :
  base_and_index (stem p) = Ok parts → readable p = true ∧ parts_of p = parts.
Proof. unfold readable, parts_of. by intros ->. Qed.

Lemma ends_with_spec ext s :
  ends_with ext s = true ↔ ∃ x, s = x +:+ ext.
Proof.
  induction s as [|c s IH]; cbn [ends_with].
  - rewrite orb_false_r, String.eqb_eq. split.
    + intros <-. by exists "".
    + intros [[|??] H]; [done|]. by rewrite append_cons in H.
  - rewrite orb_true_iff, String.eqb_eq, IH. split.
    + intros [<-|[x ->]]; [by exists ""|]. by exists (String c x).
    + intros [[|d x] H]; [by left|].
      rewrite append_cons in H. injection H as <- ->. right. by exists x.
Qed.

Lemma elem_of_glob ext entries name :
  name ∈ glob ext entries ↔ (∃ x, name = x +:+ ext) ∧ name ∈ entries.
Proof.
  unfold glob. rewrite list_elem_of_filter, <-ends_with_spec.
  by rewrite Is_true_true.
Qed.

(** The stem of a name matched by ["*.wav"] or ["*.png"]. *)
Lemma stem_with_extension x ext :
  rsplit1 "."%char ext = None → ext ≠ "" →
  stem (x +:+ String "."%char ext)
  = match x with "" => String "."%char ext | _ => x end.
Proof.
  intros Hext Hne. unfold stem. rewrite rsplit1_app by done.
  destruct x; [done|]. by destruct ext.
Qed.

Lemma lower_app s t : lower (s +:+ t) = lower s +:+ lower t.
Proof.
  induction s as [|c s IH]; [done|].
  rewrite append_cons. cbn [lower]. by rewrite IH.
Qed.

Lemma lower_length s : String.length (lower s) = String.length s.
Proof. induction s as [|c s IH]; [done|]. cbn. by rewrite IH. Qed.

Lemma lower_char_eq_dash c :
  Ascii.eqb (lower_char c) "-"%char = Ascii.eqb c "-"%char.
Proof. by destruct c as [[] [] [] [] [] [] [] []]. Qed.

Lemma rsplit1_lower s :
  rsplit1 "-"%char (lower s)
  = (λ '(b, a), (lower b, lower a)) <$> rsplit1 "-"%char s.
Proof.
  induction s as [|c s IH]; [done|]. cbn [lower rsplit1]. rewrite IH.
  destruct (rsplit1 "-"%char s) as [[b a]|]; cbn; [done|].
  rewrite lower_char_eq_dash. by destruct (Ascii.eqb c "-"%char).
Qed.

Lemma is_digit_lower_char c : is_digit (lower_char c) = is_digit c.
Proof. by destruct c as [[] [] [] [] [] [] [] []]. Qed.

Lemma lower_char_digit c : is_digit c = true → lower_char c = c.
Proof. by destruct c as [[] [] [] [] [] [] [] []]. Qed.

Lemma isdigit_lower s : isdigit (lower s) = isdigit s.
Proof.
  unfold isdigit. f_equal; [by destruct s|].
  induction s as [|c s IH]; [done|]. cbn [lower all_digits].
  by rewrite is_digit_lower_char, IH.
Qed.

Lemma lower_digits s : all_digits s = true → lower s = s.
Proof.
  induction s as [|c s IH]; [done|]. cbn [all_digits lower].
  intros [Hc Hs]%andb_true_iff. by rewrite lower_char_digit, IH.
Qed.

(** ** The two dictionaries of the producer *)

(** The scan of the audio files raises when the index of a file cannot
    be read, and otherwise adds the entries of all files. *)
Lemma add_audio_spec groups p :
  add_audio groups p
  = if readable p then Ok (add_entry groups p)
    else Raise (ValueError "invalid literal for int() with base 10").
Proof.
  unfold add_audio, add_entry, readable, base_of, index_of, parts_of.
  destruct (base_and_index (stem p)) as [[b idx]|e] eqn:E; [done|].
  cbn. by apply base_and_index_Raise in E as [-> _].
Qed.

Lemma for_each_add_audio files groups :
  for_each add_audio files groups
  = if forallb readable files then Ok (foldl add_entry groups files)
    else Raise (ValueError "invalid literal for int() with base 10").
Proof.
  revert groups. induction files as [|p files IH]; intros groups; [done|].
  cbn [for_each forallb foldl]. rewrite add_audio_spec.
  destruct (readable p); cbn [mbind result_bind andb]; [apply IH|done].
Qed.

Lemma audio_groups_of_spec entries :
  audio_groups_of entries
  = if forallb readable (py_sorted lower String.leb (glob ".wav" entries))
    then Ok (audio_groups_read entries)
    else Raise (ValueError "invalid literal for int() with base 10").
Proof. unfold audio_groups_of. by rewrite for_each_add_audio. Qed.

Lemma forallb_Forall {A} (f : A → bool) (l : list A) :
  forallb f l = true ↔ Forall (λ x, f x = true) l.
Proof.
  induction l as [|x l IH]; cbn [forallb]; [by split|].
  by rewrite andb_true_iff, Forall_cons, IH.
Qed.

Lemma readable_sorted entries :
  forallb readable (py_sorted lower String.leb (glob ".wav" entries)) = true ↔
  Forall (λ p, readable p = true) (glob ".wav" entries).
Proof. by rewrite forallb_Forall, py_sorted_perm. Qed.

Lemma audio_groups_of_Ok entries groups :
  audio_groups_of entries = Ok groups ↔
  Forall (λ p, readable p = true) (glob ".wav" entries) ∧
  groups = audio_groups_read entries.
Proof.
  rewrite audio_groups_of_spec, <-readable_sorted.
  destruct (forallb readable _).
  - split; [by intros [= <-]|by intros [_ ->]].
  - split; [done|]. by intros [? _].
Qed.

Lemma audio_groups_of_Raise entries e :
  audio_groups_of entries = Raise e ↔
  e = ValueError "invalid literal for int() with base 10" ∧
  ∃ p, p ∈ glob ".wav" entries ∧ readable p = false.
Proof.
  rewrite audio_groups_of_spec.
  destruct (forallb readable _) eqn:E.
  - split; [done|]. intros (_ & p & Hp & Hr).
    apply readable_sorted in E. rewrite Forall_forall in E.
    apply E in Hp. congruence.
  - split; [|by intros [-> _]]. intros [= <-]. split; [done|].
    apply not_true_iff_false in E. rewrite readable_sorted in E.
    apply not_Forall_Exists, Exists_exists in E; [|apply _].
    destruct E as (p & Hp & Hr). exists p. split; [done|].
    by apply not_true_is_false.
Qed.

Lemma foldl_add_entry files (m : gmap string (list (Z * string))) base :
  foldl add_entry m files !! base
  = match group_entries base files with
    | [] => m !! base
    | es => Some (default [] (m !! base) ++ es)
    end.
Proof.
  revert m. induction files as [|p files IH]; intros m; [done|].
  cbn [foldl]. rewrite IH. unfold group_entries. rewrite filter_cons.
  unfold add_entry.
  destruct (decide (base_of p = base)) as [->|Hne].
  - rewrite lookup_insert_eq. cbn [map default].
    destruct (map _ (filter _ files)); [done|].
    unfold id. by rewrite <-app_assoc.
  - by rewrite lookup_insert_ne.
Qed.

Lemma audio_groups_lookup entries base :
  audio_groups_read entries !! base
  = match group_entries base (py_sorted lower String.leb (glob ".wav" entries)) with
    | [] => None
    | es => Some es
    end.
Proof. unfold audio_groups_read. rewrite foldl_add_entry, lookup_empty. done. Qed.

Lemma foldl_insert_stem files (m : gmap string string) s :
  foldl (λ m p, <[stem p := p]> m) m files !! s
  = match last (filter (λ p, stem p = s) files) with
    | Some p => Some p
    | None => m !! s
    end.
Proof.
  revert m. induction files as [|p files IH]; intros m; [done|].
  cbn [foldl]. rewrite IH, filter_cons.
  destruct (decide (stem p = s)) as [<-|Hne].
  - rewrite last_cons, lookup_insert_eq. by destruct (last _).
  - by rewrite lookup_insert_ne.
Qed.

Lemma image_map_lookup entries s :
  image_map_of entries !! s
  = last (filter (λ p, stem p = s)
            (py_sorted lower String.leb (glob ".png" entries))).
Proof.
  unfold image_map_of. rewrite foldl_insert_stem, lookup_empty.
  by destruct (last _).
Qed.

(** Two files of one directory scan with the same stem and names of the
    same length are the same file. *)
Lemma same_stem_same_name ext p q :
  rsplit1 "."%char ext = None → ext ≠ "" →
  (∃ x, p = x +:+ String "."%char ext) →
  (∃ y, q = y +:+ String "."%char ext) →
  stem p = stem q → String.length p = String.length q → p = q.
Proof.
  intros Hext Hne [x ->] [y ->] Hstem Hlen.
  rewrite !stem_with_extension in Hstem by done.
  rewrite !length_append in Hlen.
  destruct x, y; cbn in Hlen; try lia; [done|by rewrite Hstem].
Qed.

(** Within one audio group the lower-cased name identifies the file. *)
Lemma lower_inj_in_group p q :
  (∃ x, p = x +:+ ".wav") → (∃ y, q = y +:+ ".wav") →
  base_of p = base_of q → lower p = lower q → p = q.
Proof.
  intros [x ->] [y ->] Hbase Hlow.
  rewrite !lower_app in Hlow. apply append_inv_tail in Hlow.
  unfold base_of, parts_of in Hbase.
  change ".wav" with (String "."%char "wav") in *.
  rewrite !stem_with_extension in Hbase by done.
  destruct x as [|cx x], y as [|cy y]; try done.
  f_equal. revert Hbase Hlow.
  generalize (String cx x) (String cy y). clear. intros x y Hbase Hlow.
  unfold base_and_index in Hbase.
  pose proof (rsplit1_lower x) as Hx. pose proof (rsplit1_lower y) as Hy.
  rewrite Hlow in Hx. rewrite Hx in Hy. clear Hx.
  destruct (rsplit1 "-"%char x) as [[b1 a1]|] eqn:Ex,
           (rsplit1 "-"%char y) as [[b2 a2]|] eqn:Ey; try done.
  injection Hy as Hb Ha.
  assert (isdigit a1 = isdigit a2) as Hd.
  { by rewrite <-(isdigit_lower a1), <-(isdigit_lower a2), Ha. }
  rewrite <-Hd in Hbase. destruct (isdigit a1) eqn:Hd1; [|done].
  assert (a1 = a2) as <-.
  { rewrite <-(lower_digits a1), <-(lower_digits a2), Ha; [done|..].
    - symmetry in Hd. unfold isdigit in Hd. by apply andb_true_iff in Hd as [_ ?].
    - unfold isdigit in Hd1. by apply andb_true_iff in Hd1 as [_ ?]. }
  apply rsplit1_Some in Ex as [-> _]. apply rsplit1_Some in Ey as [Ey _].
  destruct (int a1); cbn in Hbase; [|done]. by subst.
Qed.

(** The audio groups depend on the set of files only, not on the order in
    which the directory lists them. *)
Lemma audio_groups_read_perm l1 l2 :
  l1 ≡ₚ l2 → audio_groups_read l1 = audio_groups_read l2.
Proof.
  intros Hperm. apply map_eq. intros base. rewrite !audio_groups_lookup.
  unfold group_entries.
  rewrite !(filter_py_sorted _ _ string_leb_total string_leb_trans).
  rewrite (py_sorted_unique lower String.leb string_leb_total string_leb_trans
             (filter (λ p, base_of p = base) (glob ".wav" l1))
             (filter (λ p, base_of p = base) (glob ".wav" l2))); [done|..].
  - apply string_leb_antisym.
  - intros p q [Hp [Hpx _]%elem_of_glob]%list_elem_of_filter
                [Hq [Hqx _]%elem_of_glob]%list_elem_of_filter Hlow.
    apply lower_inj_in_group; congruence.
  - unfold glob. by rewrite Hperm.
Qed.

Lemma audio_groups_perm l1 l2 :
  l1 ≡ₚ l2 → audio_groups_of l1 = audio_groups_of l2.
Proof.
  intros Hperm. rewrite !audio_groups_of_spec.
  rewrite (audio_groups_read_perm l1 l2) by done.
  assert (forallb readable (py_sorted lower String.leb (glob ".wav" l1))
          = forallb readable (py_sorted lower String.leb (glob ".wav" l2)))
    as ->; [|done].
  apply eq_true_iff_eq. rewrite !readable_sorted. unfold glob.
  by rewrite Hperm.
Qed.

Lemma image_map_perm l1 l2 :
  l1 ≡ₚ l2 → image_map_of l1 = image_map_of l2.
Proof.
  intros Hperm. apply map_eq. intros s. rewrite !image_map_lookup.
  rewrite !(filter_py_sorted _ _ string_leb_total string_leb_trans).
  rewrite (py_sorted_unique lower String.leb string_leb_total string_leb_trans
             (filter (λ p, stem p = s) (glob ".png" l1))
             (filter (λ p, stem p = s) (glob ".png" l2))); [done|..].
  - apply string_leb_antisym.
  - intros p q [Hp [Hpx _]%elem_of_glob]%list_elem_of_filter
                [Hq [Hqx _]%elem_of_glob]%list_elem_of_filter Hlow.
    apply (same_stem_same_name "png"); [done|done|done|done|congruence|].
    by rewrite <-(lower_length p), <-(lower_length q), Hlow.
  - unfold glob. by rewrite Hperm.
Qed.

(** ** Groups, matched stems and clips *)

Lemma StronglySorted_impl {A} (R R' : A → A → Prop) l :
  (∀ x y, R x y → R' x y) → StronglySorted R l → StronglySorted R' l.
Proof.
  intros HR. induction 1 as [|x l _ IH Hx]; constructor; [done|].
  eapply Forall_impl; [done|]. auto.
Qed.

Lemma StronglySorted_lookup_lt {A} (R : A → A → Prop) l j k x y :
  StronglySorted R l → l !! j = Some x → l !! k = Some y → (j < k)%nat → R x y.
Proof.
  intros Hl. revert j k. induction Hl as [|z l _ IH Hz]; intros j k Hj Hk Hjk.
  { done. }
  destruct k as [|k]; [lia|]. cbn in Hk. destruct j as [|j].
  - cbn in Hj. injection Hj as ->. rewrite Forall_forall in Hz.
    apply Hz. by eapply list_elem_of_lookup_2.
  - cbn in Hj. apply (IH j k); [done..|lia].
Qed.

Lemma ordered_chunks_perm group : ordered_chunks group ≡ₚ group.
Proof. apply py_sorted_perm. Qed.

Lemma ordered_chunks_sorted group :
  StronglySorted (λ a b : Z * string, a.1 ≤ b.1) (ordered_chunks group).
Proof.
  eapply StronglySorted_impl;
    [|apply (py_sorted_StronglySorted fst Z.leb Z_leb_total Z_leb_trans)].
  intros x y H. by apply Z.leb_le.
Qed.

(** An entry of index 0 comes before every entry of index 1 or more. *)
Lemma ordered_chunks_zero_first group j k p q idx :
  ordered_chunks group !! j = Some (0, p) →
  ordered_chunks group !! k = Some (idx, q) →
  1 ≤ idx → (j < k)%nat.
Proof.
  intros Hj Hk Hidx. destruct (decide (j < k)%nat) as [|Hge]; [done|].
  destruct (decide (j = k)) as [->|Hne].
  { rewrite Hj in Hk. injection Hk as <- _. lia. }
  pose proof (StronglySorted_lookup_lt _ _ k j _ _
                (ordered_chunks_sorted group) Hk Hj ltac:(lia)) as H.
  cbn in H. lia.
Qed.

Lemma elem_of_group_entries base files idx p :
  (idx, p) ∈ group_entries base files ↔
  p ∈ files ∧ parts_of p = (base, idx).
Proof.
  unfold group_entries. rewrite list_elem_of_fmap. split.
  - intros (q & [= -> ->] & [Hb Hq]%list_elem_of_filter). split; [done|].
    unfold base_of, index_of in *. destruct (parts_of q). by subst.
  - intros [Hp E]. exists p. unfold index_of, base_of. rewrite E. split; [done|].
    apply list_elem_of_filter. by rewrite E.
Qed.

(** For a file whose index can be read, [parts_of] is what the program
    reads. *)
Lemma parts_of_readable p parts :
  readable p = true →
  parts_of p = parts ↔ base_and_index (stem p) = Ok parts.
Proof.
  unfold readable, parts_of. destruct (base_and_index (stem p)); [|done].
  intros _. split; [by intros ->|by intros [= ->]].
Qed.

Lemma audio_groups_Some entries base group :
  audio_groups_read entries !! base = Some group →
  group ≠ [] ∧
  group = group_entries base (py_sorted lower String.leb (glob ".wav" entries)).
Proof.
  rewrite audio_groups_lookup. destruct (group_entries _ _); [done|].
  by intros [= <-].
Qed.

(** The members of a group of a scan that did not raise. *)
Lemma elem_of_audio_group entries groups base group idx p :
  audio_groups_of entries = Ok groups → groups !! base = Some group →
  (idx, p) ∈ group ↔
  p ∈ glob ".wav" entries ∧ base_and_index (stem p) = Ok (base, idx).
Proof.
  intros [Hr ->]%audio_groups_of_Ok [_ ->]%audio_groups_Some.
  rewrite elem_of_group_entries, py_sorted_perm. rewrite Forall_forall in Hr.
  split.
  - intros [Hp E]. split; [done|]. by apply parts_of_readable; [apply Hr|].
  - intros [Hp E]. split; [done|]. by apply parts_of_readable; [apply Hr|].
Qed.

Lemma elem_of_dom_audio_groups entries s :
  s ∈ dom (audio_groups_read entries) ↔
  ∃ p, p ∈ glob ".wav" entries ∧ base_of p = s.
Proof.
  rewrite elem_of_dom, audio_groups_lookup. unfold group_entries. split.
  - intros [es Hes].
    destruct (filter _ _) as [|p l] eqn:Ef; [done|].
    assert (p ∈ filter (λ p, base_of p = s)
              (py_sorted lower String.leb (glob ".wav" entries))) as Hp.
    { rewrite Ef. by left. }
    apply list_elem_of_filter in Hp as [Hb Hp].
    rewrite py_sorted_perm in Hp. eauto.
  - intros (p & Hp & Hb).
    rewrite <-(py_sorted_perm lower String.leb) in Hp.
    assert (p ∈ filter (λ p, base_of p = s)
              (py_sorted lower String.leb (glob ".wav" entries))) as Hf.
    { by apply list_elem_of_filter. }
    destruct (filter _ _); [by apply elem_of_nil in Hf|]. by eexists.
Qed.

Lemma elem_of_dom_image_map entries s :
  s ∈ dom (image_map_of entries) ↔
  ∃ p, p ∈ glob ".png" entries ∧ stem p = s.
Proof.
  rewrite elem_of_dom, image_map_lookup. split.
  - intros [p Hp]. apply last_Some_elem_of in Hp.
    apply list_elem_of_filter in Hp as [Hs Hp].
    rewrite py_sorted_perm in Hp. eauto.
  - intros (p & Hp & Hs).
    rewrite <-(py_sorted_perm lower String.leb) in Hp.
    assert (p ∈ filter (λ p, stem p = s)
              (py_sorted lower String.leb (glob ".png" entries))) as Hf.
    { by apply list_elem_of_filter. }
    destruct (last _) eqn:El; [by eexists|].
    apply last_None in El. rewrite El in Hf. by apply elem_of_nil in Hf.
Qed.

Lemma add_clips_Ok duration_of image_map audio_groups acc s clips :
  add_clips duration_of image_map audio_groups acc s = Ok clips →
  clips = acc ++ stem_clips duration_of image_map audio_groups s.
Proof.
  unfold add_clips, stem_clips, getitem.
  destruct (image_map !! s); [|done]. destruct (audio_groups !! s); [|done].
  cbn. by intros [= <-].
Qed.

Lemma add_clips_matched duration_of image_map audio_groups acc s :
  s ∈ dom image_map → s ∈ dom audio_groups →
  add_clips duration_of image_map audio_groups acc s
  = Ok (acc ++ stem_clips duration_of image_map audio_groups s).
Proof.
  intros [img E1]%elem_of_dom [g E2]%elem_of_dom.
  unfold add_clips, stem_clips, getitem. by rewrite E1, E2.
Qed.

Lemma for_each_add_clips_Ok duration_of image_map audio_groups stems acc clips :
  for_each (add_clips duration_of image_map audio_groups) stems acc = Ok clips →
  clips = acc ++ concat (map (stem_clips duration_of image_map audio_groups) stems).
Proof.
  revert acc. induction stems as [|s stems IH]; intros acc.
  { cbn. intros [= <-]. by rewrite app_nil_r. }
  cbn [for_each map concat].
  destruct (add_clips _ _ _ acc s) as [acc'|e] eqn:E; [|done].
  cbn [mbind result_bind]. intros H%IH. apply add_clips_Ok in E.
  by rewrite H, E, <-app_assoc.
Qed.

Lemma for_each_add_clips_matched duration_of image_map audio_groups stems acc :
  Forall (λ s, s ∈ dom image_map ∧ s ∈ dom audio_groups) stems →
  for_each (add_clips duration_of image_map audio_groups) stems acc
  = Ok (acc ++ concat (map (stem_clips duration_of image_map audio_groups) stems)).
Proof.
  intros H. revert acc. induction H as [|s stems [H1 H2] _ IH]; intros acc.
  { cbn. by rewrite app_nil_r. }
  cbn [for_each map concat]. rewrite add_clips_matched by done.
  cbn [mbind result_bind]. by rewrite IH, <-app_assoc.
Qed.

Lemma elem_of_common_stems set_order (image_map : gmap string string)
    (audio_groups : gmap string (list (Z * string))) s :
  (∀ X, set_order X ≡ₚ elements X) →
  s ∈ common_stems_of set_order image_map audio_groups ↔
  s ∈ dom image_map ∧ s ∈ dom audio_groups.
Proof.
  intros Horder. unfold common_stems_of.
  by rewrite py_sorted_perm, Horder, elem_of_elements, elem_of_intersection.
Qed.

Lemma common_stems_nil set_order (image_map : gmap string string)
    (audio_groups : gmap string (list (Z * string))) :
  (∀ X, set_order X ≡ₚ elements X) →
  common_stems_of set_order image_map audio_groups = [] ↔
  dom image_map ∩ dom audio_groups = ∅.
Proof.
  intros Horder. unfold common_stems_of. split.
  - intros H. apply leibniz_equiv, elements_empty_iff, Permutation_nil_r.
    by rewrite <-Horder, <-(py_sorted_perm lower String.leb), H.
  - intros H. apply Permutation_nil_r.
    by rewrite py_sorted_perm, Horder, H, elements_empty.
Qed.

(** The keys of the groups of a scan that did not raise. *)
Lemma elem_of_dom_audio_groups_Ok entries groups s :
  audio_groups_of entries = Ok groups →
  s ∈ dom groups ↔
  ∃ p idx, p ∈ glob ".wav" entries ∧ base_and_index (stem p) = Ok (s, idx).
Proof.
  intros [Hr ->]%audio_groups_of_Ok. rewrite elem_of_dom_audio_groups.
  rewrite Forall_forall in Hr. split.
  - intros (p & Hp & Hb). exists p, (index_of p). split; [done|].
    apply parts_of_readable; [by apply Hr|].
    unfold base_of, index_of in *. by destruct (parts_of p); simplify_eq/=.
  - intros (p & idx & Hp & E). exists p. split; [done|].
    apply parts_of_readable in E; [|by apply Hr]. unfold base_of. by rewrite E.
Qed.

Lemma stem_clips_nonempty duration_of entries image_map s :
  s ∈ dom image_map → s ∈ dom (audio_groups_read entries) →
  stem_clips duration_of image_map (audio_groups_read entries) s ≠ [].
Proof.
  intros [img E1]%elem_of_dom [g E2]%elem_of_dom.
  unfold stem_clips. rewrite E1, E2.
  apply audio_groups_Some in E2 as [Hne _].
  intros H%(f_equal length). rewrite length_map, ordered_chunks_perm in H.
  by destruct g.
Qed.

(** ** Claims about [create_video_from_directory] *)

(** C3 (as amended). Audio grouping: a stem that ends in ["-NN"] with [NN]
    a non-empty run of the decimal digits 0 to 9 has the text before that
    suffix as base and [int(NN)], the decimal value of [NN], as index; a
    stem that does not end in ["-"] and a non-empty run of digits is its
    own base with index 0; in a scan that returns its groups, a group holds
    exactly the scanned files of its base and its entries are played in
    ascending index order, so that an entry of index 0 (the unsuffixed
    file) comes before every entry whose index is 1 or more; [intro.wav],
    [intro-01.wav], [intro-02.wav] are grouped under ["intro"] in that
    order. *)
Theorem audio_grouping (entries : list string) :
  (∀ base digits,
     isdecimal digits = true →
     int digits = Ok (int_go 0 digits) ∧
     base_and_index (base +:+ "-" +:+ digits) = Ok (base, int_go 0 digits)) ∧
  (∀ stem,
     (∀ base digits, isdigit digits = true → stem ≠ base +:+ "-" +:+ digits) →
     base_and_index stem = Ok (stem, 0)) ∧
  (∀ groups base group,
     audio_groups_of entries = Ok groups →
     groups !! base = Some group →
     (∀ idx p, (idx, p) ∈ group ↔
               p ∈ glob ".wav" entries ∧
               base_and_index (stem p) = Ok (base, idx)) ∧
     ordered_chunks group ≡ₚ group ∧
     StronglySorted (λ a b : Z * string, a.1 ≤ b.1) (ordered_chunks group) ∧
     (∀ j k p q idx,
        ordered_chunks group !! j = Some (0, p) →
        ordered_chunks group !! k = Some (idx, q) →
        1 ≤ idx → (j < k)%nat)) ∧
  (λ groups, ordered_chunks <$> groups !! "intro") <$>
    audio_groups_of ["intro-02.wav"; "intro.wav"; "intro-01.wav"]
  = Ok (Some [(0, "intro.wav"); (1, "intro-01.wav"); (2, "intro-02.wav")]).
Proof.
  split_and!.
  - intros base digits Hd. split; [by rewrite int_isdecimal, Hd|].
    by apply base_and_index_decimal.
  - intros stem Hstem.
    destruct (base_and_index_cases stem) as [E|(b & d & -> & Hd & _)]; [done|].
    by destruct (Hstem b d Hd).
  - intros groups base group Hok Hg. split_and!.
    + intros idx p. by eapply elem_of_audio_group.
    + apply ordered_chunks_perm.
    + apply ordered_chunks_sorted.
    + apply ordered_chunks_zero_first.
  - vm_compute. reflexivity.
Qed.

(** C3 as stated fails when the suffix is ["-00"]: [x-00.wav] has the
    all-digits suffix [00], index 0 like the unsuffixed [x.wav], and is
    played first, because equal indices keep the order of the
    case-insensitive file-name sort. *)
Lemma audio_grouping_counterexample :
  base_and_index (stem "x.wav") = Ok ("x", 0) ∧
  base_and_index (stem "x-00.wav") = Ok ("x", 0) ∧
  (λ groups, ordered_chunks <$> groups !! "x") <$>
    audio_groups_of ["x.wav"; "x-00.wav"]
  = Ok (Some [(0, "x-00.wav"); (0, "x.wav")]).
Proof. split_and!; vm_compute; reflexivity. Qed.

(** X20. When the scan of the audio files raises: exactly when the stem
    of a scanned [*.wav] file ends in ["-"] and a non-empty run of digits
    of which one is no decimal digit; the error is the [ValueError] of
    [int], and the method raises it before any clip is made, with no
    handle opened. *)
Theorem audio_scan_error (i : video_inputs) :
  (∀ e, audio_groups_of (audio_entries i) = Raise e ↔
        e = ValueError "invalid literal for int() with base 10" ∧
        ∃ p base digits,
          p ∈ glob ".wav" (audio_entries i) ∧
          stem p = base +:+ "-" +:+ digits ∧
          isdigit digits = true ∧ isdecimal digits = false) ∧
  (∀ e, audio_groups_of (audio_entries i) = Raise e →
        create_video_from_directory i = (Raise e, Resources [] [])).
Proof.
  split.
  - intros e. rewrite audio_groups_of_Raise. split.
    + intros (-> & p & Hp & Hr). split; [done|]. unfold readable in Hr.
      destruct (base_and_index (stem p)) as [|e] eqn:E; [done|].
      apply base_and_index_Raise in E as (_ & b & d & ? & ? & ?).
      by exists p, b, d.
    + intros (-> & p & b & d & Hp & Hs & Hd & Hn). split; [done|].
      exists p. split; [done|]. unfold readable.
      by rewrite Hs, base_and_index_refused.
  - intros e He. unfold create_video_from_directory, assemble. by rewrite He.
Qed.

(** The superscript two is a digit for [isdigit], and [int] refuses it. *)
Example example_superscript_suffix :
  isdigit (String superscript_two "") = true ∧
  int (String superscript_two "")
  = Raise (ValueError "invalid literal for int() with base 10") ∧
  base_and_index (stem ("x-" +:+ String superscript_two ".wav"))
  = Raise (ValueError "invalid literal for int() with base 10") ∧
  audio_groups_of ["x.wav"; "x-" +:+ String superscript_two ".wav"]
  = Raise (ValueError "invalid literal for int() with base 10").
Proof. split_and!; vm_compute; reflexivity. Qed.

(** X19. Pairing when every index can be read: the image stems are the
    stems of the scanned images; an audio file whose index cannot be read
    makes the method raise; when the index of every scanned audio file can
    be read, the scan returns its groups, the group keys are the bases of
    the scanned audio files, the matched stems are exactly the stems on
    both sides, each once, ordered by lower-cased name, the method raises
    the "no matching pairs" error exactly when that intersection is empty,
    and otherwise assembles the clips of the matched stems, at least one
    for each, without error. *)
Theorem pairing_intersection (i : video_inputs) :
  (∀ X, set_order i X ≡ₚ elements X) →
  let image_map := image_map_of (image_entries i) in
  (∀ s, s ∈ dom image_map ↔
        ∃ p, p ∈ glob ".png" (image_entries i) ∧ stem p = s) ∧
  (∀ p e, p ∈ glob ".wav" (audio_entries i) →
          base_and_index (stem p) = Raise e →
          audio_groups_of (audio_entries i) = Raise e ∧ assemble i = Raise e) ∧
  ((∀ p, p ∈ glob ".wav" (audio_entries i) →
         ∃ parts, base_and_index (stem p) = Ok parts) →
   ∃ audio_groups, audio_groups_of (audio_entries i) = Ok audio_groups) ∧
  (∀ audio_groups,
     audio_groups_of (audio_entries i) = Ok audio_groups →
     let common_stems := common_stems_of (set_order i) image_map audio_groups in
     (∀ s, s ∈ dom audio_groups ↔
           ∃ p idx, p ∈ glob ".wav" (audio_entries i) ∧
                    base_and_index (stem p) = Ok (s, idx)) ∧
     (∀ s, s ∈ common_stems ↔ s ∈ dom image_map ∧ s ∈ dom audio_groups) ∧
     NoDup common_stems ∧
     StronglySorted (λ a b, String.leb (lower a) (lower b) = true) common_stems ∧
     (assemble i = Raise (FileNotFoundError "No matching (png,wav) pairs found")
      ↔ dom image_map ∩ dom audio_groups = ∅) ∧
     (dom image_map ∩ dom audio_groups ≠ ∅ →
      assemble i
      = Ok (concat (map (stem_clips (duration_of i) image_map audio_groups)
                      common_stems)) ∧
      ∀ s, s ∈ common_stems →
           stem_clips (duration_of i) image_map audio_groups s ≠ [])).
Proof.
  intros Horder image_map. split_and!.
  - apply elem_of_dom_image_map.
  - intros p e Hp E.
    assert (audio_groups_of (audio_entries i) = Raise e) as Hr.
    { pose proof E as [-> _]%base_and_index_Raise.
      apply audio_groups_of_Raise. split; [done|]. exists p. split; [done|].
      unfold readable. by rewrite E. }
    split; [done|]. unfold assemble. by rewrite Hr.
  - intros Hall. eexists. apply audio_groups_of_Ok. split; [|done].
    apply Forall_forall. intros p Hp. destruct (Hall p Hp) as [parts E].
    unfold readable. by rewrite E.
  - intros audio_groups Hag common_stems.
    assert (∀ s, s ∈ common_stems ↔ s ∈ dom image_map ∧ s ∈ dom audio_groups)
      as Hcommon by (intros s; by apply elem_of_common_stems).
    assert (assemble i
            = if negb (truthy common_stems)
              then Raise (FileNotFoundError "No matching (png,wav) pairs found")
              else for_each (add_clips (duration_of i) image_map audio_groups)
                     common_stems []) as Hasm.
    { unfold assemble. by rewrite Hag. }
    assert (common_stems ≠ [] →
            assemble i
            = Ok (concat (map (stem_clips (duration_of i) image_map audio_groups)
                            common_stems))) as Hok.
    { intros Hne. rewrite Hasm.
      destruct common_stems as [|s l] eqn:E; [done|]. cbn [truthy negb].
      rewrite for_each_add_clips_matched; [done|].
      apply Forall_forall. intros t Ht. by apply Hcommon. }
    split_and!.
    + intros s. by apply elem_of_dom_audio_groups_Ok.
    + done.
    + unfold common_stems, common_stems_of.
      rewrite py_sorted_perm, Horder. apply NoDup_elements.
    + apply (py_sorted_StronglySorted lower String.leb
               string_leb_total string_leb_trans).
    + rewrite <-(common_stems_nil (set_order i)) by done.
      fold common_stems. split.
      * intros H. destruct (decide (common_stems = [])) as [|Hne]; [done|].
        rewrite Hok in H by done. done.
      * intros H. rewrite Hasm. by rewrite H.
    + intros Hne. split.
      * apply Hok. intros H. apply Hne.
        by apply (common_stems_nil (set_order i)).
      * intros s [H1 H2]%Hcommon.
        apply audio_groups_of_Ok in Hag as [_ ->].
        by apply stem_clips_nonempty.
Qed.

Lemma pairing_intersection_witness :
  let i := sample_inputs in
  let image_map := image_map_of (image_entries i) in
  (∀ s, s ∈ dom image_map ↔
        ∃ p, p ∈ glob ".png" (image_entries i) ∧ stem p = s) ∧
  (∀ p e, p ∈ glob ".wav" (audio_entries i) →
          base_and_index (stem p) = Raise e →
          audio_groups_of (audio_entries i) = Raise e ∧ assemble i = Raise e) ∧
  ((∀ p, p ∈ glob ".wav" (audio_entries i) →
         ∃ parts, base_and_index (stem p) = Ok parts) →
   ∃ audio_groups, audio_groups_of (audio_entries i) = Ok audio_groups) ∧
  (∀ audio_groups,
     audio_groups_of (audio_entries i) = Ok audio_groups →
     let common_stems := common_stems_of (set_order i) image_map audio_groups in
     (∀ s, s ∈ dom audio_groups ↔
           ∃ p idx, p ∈ glob ".wav" (audio_entries i) ∧
                    base_and_index (stem p) = Ok (s, idx)) ∧
     (∀ s, s ∈ common_stems ↔ s ∈ dom image_map ∧ s ∈ dom audio_groups) ∧
     NoDup common_stems ∧
     StronglySorted (λ a b, String.leb (lower a) (lower b) = true) common_stems ∧
     (assemble i = Raise (FileNotFoundError "No matching (png,wav) pairs found")
      ↔ dom image_map ∩ dom audio_groups = ∅) ∧
     (dom image_map ∩ dom audio_groups ≠ ∅ →
      assemble i
      = Ok (concat (map (stem_clips (duration_of i) image_map audio_groups)
                      common_stems)) ∧
      ∀ s, s ∈ common_stems →
           stem_clips (duration_of i) image_map audio_groups s ≠ [])).
Proof. apply (pairing_intersection sample_inputs). reflexivity. Defined.

(** C4. The pairing at the failing input: [x.png] and [x.wav] are a
    matched pair and [y-²] has no image, so that the intersection is not
    empty and [y-².wav] is on one side only; but [y-².wav] is not excluded
    without error: its suffix is a digit for [isdigit] and [int] refuses
    it, and the method raises the error of [int] while it scans the audio
    files. *)
Theorem pairing_raises_on_refused_digit :
  stem "x.png" = "x" ∧
  base_and_index (stem "x.wav") = Ok ("x", 0) ∧
  isdigit (String superscript_two "") = true ∧
  base_and_index (stem ("y-" +:+ String superscript_two ".wav"))
  = Raise (ValueError "invalid literal for int() with base 10") ∧
  assemble
    (VideoInputs ["x.png"] ["x.wav"; "y-" +:+ String superscript_two ".wav"]
       (λ _, 4%float) elements (λ _ _, Ok ()) "final.mp4")
  = Raise (ValueError "invalid literal for int() with base 10").
Proof. split_and!; vm_compute; reflexivity. Qed.

(** The two pairing examples of the specification: only [a] is matched,
    and disjoint sides are fatal. *)
Example pairing_only_common :
  common_stems_of elements (image_map_of ["a.png"; "b.png"])
  <$> audio_groups_of ["a.wav"; "c-01.wav"; "c-02.wav"] = Ok ["a"].
Proof. vm_compute. reflexivity. Qed.

Example pairing_disjoint_is_fatal duration_of write out :
  assemble (VideoInputs ["x.png"] ["y.wav"] duration_of elements write out)
  = Raise (FileNotFoundError "No matching (png,wav) pairs found").
Proof. vm_compute. reflexivity. Qed.

Lemma stem_clips_timing duration_of image_map audio_groups s :
  Forall (λ c, clip_duration c = (duration_of (clip_audio c) + 1)%float ∧
               audio_start c = 1%float)
    (stem_clips duration_of image_map audio_groups s).
Proof.
  unfold stem_clips.
  destruct (image_map !! s); [|done]. destruct (audio_groups !! s); [|done].
  apply Forall_map, Forall_forall. by intros [idx wav] _.
Qed.

(** C5. Timeline timing: the clips are those of the matched stems in pair
    order and, within a pair, of its audio chunks in ascending index order;
    every clip shows the image of its pair, lasts the duration of its audio
    file plus the lead-in of 1.0 second, and starts its audio at the
    lead-in; a 4.0 second chunk gives a 5.0 second clip. *)
Theorem timeline_timing (i : video_inputs) (clips : list clip) :
  assemble i = Ok clips →
  ∃ audio_groups,
    audio_groups_of (audio_entries i) = Ok audio_groups ∧
    let image_map := image_map_of (image_entries i) in
    let common_stems := common_stems_of (set_order i) image_map audio_groups in
    clips = concat (map (stem_clips (duration_of i) image_map audio_groups)
                      common_stems) ∧
    (∀ s img_path group,
       image_map !! s = Some img_path → audio_groups !! s = Some group →
       stem_clips (duration_of i) image_map audio_groups s
       = map (λ '(_, wav_path),
                Clip img_path wav_path (duration_of i wav_path + 1)%float 1%float)
           (ordered_chunks group) ∧
       ordered_chunks group ≡ₚ group ∧
       StronglySorted (λ a b : Z * string, a.1 ≤ b.1) (ordered_chunks group)) ∧
    Forall (λ c, clip_duration c = (duration_of i (clip_audio c) + 1)%float ∧
                 audio_start c = 1%float ∧
                 (duration_of i (clip_audio c) = 4%float →
                  clip_duration c = 5%float))
      clips.
Proof.
  intros Hok. unfold assemble in Hok.
  destruct (audio_groups_of (audio_entries i)) as [audio_groups|e]; [|done].
  cbn [mbind result_bind] in Hok. exists audio_groups. split; [done|].
  intros image_map common_stems.
  assert (clips = concat (map (stem_clips (duration_of i) image_map audio_groups)
                            common_stems)) as ->.
  { fold image_map common_stems in Hok.
    destruct (negb (truthy common_stems)); [done|].
    by apply for_each_add_clips_Ok in Hok. }
  split_and!.
  - done.
  - intros s img group E1 E2. split_and!.
    + unfold stem_clips. by rewrite E1, E2.
    + apply ordered_chunks_perm.
    + apply ordered_chunks_sorted.
  - apply Forall_concat, Forall_map, Forall_forall. intros s _.
    eapply Forall_impl; [apply stem_clips_timing|].
    intros c [Hd Hs]. split_and!; [done..|]. intros H4. by rewrite Hd, H4.
Qed.

Lemma timeline_timing_witness :
  let i := sample_inputs in
  let clips :=
    [Clip "a.png" "a.wav" 5 1; Clip "intro.png" "intro.wav" 5 1;
     Clip "intro.png" "intro-01.wav" 5 1; Clip "intro.png" "intro-02.wav" 5 1] in
  ∃ audio_groups,
    audio_groups_of (audio_entries i) = Ok audio_groups ∧
    let image_map := image_map_of (image_entries i) in
    let common_stems := common_stems_of (set_order i) image_map audio_groups in
    clips = concat (map (stem_clips (duration_of i) image_map audio_groups)
                      common_stems) ∧
    (∀ s img_path group,
       image_map !! s = Some img_path → audio_groups !! s = Some group →
       stem_clips (duration_of i) image_map audio_groups s
       = map (λ '(_, wav_path),
                Clip img_path wav_path (duration_of i wav_path + 1)%float 1%float)
           (ordered_chunks group) ∧
       ordered_chunks group ≡ₚ group ∧
       StronglySorted (λ a b : Z * string, a.1 ≤ b.1) (ordered_chunks group)) ∧
    Forall (λ c, clip_duration c = (duration_of i (clip_audio c) + 1)%float ∧
                 audio_start c = 1%float ∧
                 (duration_of i (clip_audio c) = 4%float →
                  clip_duration c = 5%float))
      clips.
Proof. apply (timeline_timing sample_inputs). vm_compute. reflexivity. Defined.

(** ** Releasing the clips *)

Lemma foldl_open_handle hs r :
  foldl (λ r h, open_handle h r) r hs
  = Resources (open_handles r ++ hs) (closed_handles r).
Proof.
  revert r. induction hs as [|h hs IH]; intros r.
  { cbn. rewrite app_nil_r. by destruct r. }
  cbn [foldl]. rewrite IH. cbn. by rewrite <-app_assoc.
Qed.

Lemma foldl_close hs r :
  foldl close r hs
  = Resources (filter (λ h, h ∉ hs) (open_handles r)) (closed_handles r ++ hs).
Proof.
  revert r. induction hs as [|h hs IH]; intros r.
  { cbn. rewrite app_nil_r. destruct r as [o c]. cbn. f_equal.
    induction o as [|x o IHo]; [done|].
    rewrite filter_cons_True by apply not_elem_of_nil. by rewrite <-IHo. }
  cbn [foldl]. rewrite IH. cbn. rewrite <-app_assoc. f_equal.
  rewrite list_filter_filter. apply list_filter_iff. intros x.
  rewrite not_elem_of_cons, bool_decide_spec. tauto.
Qed.

Lemma filter_not_elem_of_self (hs : list handle) :
  filter (λ h, h ∉ hs) hs = [].
Proof.
  destruct (filter (λ h, h ∉ hs) hs) as [|x l] eqn:E; [done|].
  assert (x ∈ filter (λ h, h ∉ hs) hs) as Hx by (rewrite E; by left).
  by apply list_elem_of_filter in Hx as [? ?].
Qed.

(** C9 (as amended). Resource release: when the clips are assembled and
    the write succeeds, every clip handle and the handle of the
    concatenated clip are closed, in that order, and none stays open; when
    the write raises, its error is what the method raises. *)
Theorem release_after_write (i : video_inputs) (clips : list clip) :
  assemble i = Ok clips →
  let handles := map ClipHandle (seq 0 (length clips)) in
  (write_videofile i (output_path i) clips = Ok () →
   create_video_from_directory i
   = (Ok (output_path i), Resources [] (handles ++ [FinalHandle]))) ∧
  (∀ e, write_videofile i (output_path i) clips = Raise e →
        (create_video_from_directory i).1 = Raise e).
Proof.
  intros Hok handles. unfold create_video_from_directory. rewrite Hok.
  fold handles. split.
  - intros ->. f_equal. rewrite foldl_open_handle. unfold close at 1.
    rewrite foldl_close. cbn [open_handles closed_handles open_handle app].
    f_equal. rewrite list_filter_filter.
    rewrite (list_filter_iff _ (λ h, h ∉ handles ++ [FinalHandle])).
    2:{ intros x. rewrite bool_decide_spec, not_elem_of_app, not_elem_of_cons.
        pose proof (not_elem_of_nil x). tauto. }
    apply filter_not_elem_of_self.
  - by intros e ->.
Qed.

Lemma release_after_write_witness :
  let i := sample_inputs in
  let clips :=
    [Clip "a.png" "a.wav" 5 1; Clip "intro.png" "intro.wav" 5 1;
     Clip "intro.png" "intro-01.wav" 5 1; Clip "intro.png" "intro-02.wav" 5 1] in
  let handles := map ClipHandle (seq 0 (length clips)) in
  (write_videofile i (output_path i) clips = Ok () →
   create_video_from_directory i
   = (Ok (output_path i), Resources [] (handles ++ [FinalHandle]))) ∧
  (∀ e, write_videofile i (output_path i) clips = Raise e →
        (create_video_from_directory i).1 = Raise e).
Proof. apply (release_after_write sample_inputs). vm_compute. reflexivity. Defined.

(** C9 as stated fails: [write_videofile] is not guarded, so when it
    raises, the method is left with every handle still open and none
    closed. *)
Lemma release_on_failure_counterexample :
  create_video_from_directory
    (VideoInputs ["a.png"] ["a-01.wav"; "a-02.wav"] (λ _, 4%float) elements
       (λ _ _, Raise (OSError "unknown encoder")) "final.mp4")
  = (Raise (OSError "unknown encoder"),
     Resources [ClipHandle 0; ClipHandle 1; FinalHandle] []).
Proof. vm_compute. reflexivity. Qed.

(** ** Order of assembly *)

Lemma for_each_ext {A S} (body1 body2 : S → A → result S) l s :
  (∀ s x, body1 s x = body2 s x) → for_each body1 l s = for_each body2 l s.
Proof.
  intros H. revert s. induction l as [|x l IH]; intros s; [done|].
  cbn [for_each]. rewrite H. destruct (body2 s x); cbn; [apply IH|done].
Qed.

Lemma add_clips_ext d1 d2 image_map audio_groups acc s :
  (∀ p, d1 p = d2 p) →
  add_clips d1 image_map audio_groups acc s
  = add_clips d2 image_map audio_groups acc s.
Proof.
  intros Hd. unfold add_clips.
  destruct (getitem image_map s); [|done]. destruct (getitem audio_groups s); [|done].
  cbn. do 2 f_equal. apply map_ext. intros [idx wav]. unfold make_clip.
  by rewrite Hd.
Qed.

(** C10 (as amended). Determinism of assembly order: two runs over the
    same image files and the same audio files, listed by the file system
    and iterated as sets in any orders, scan the audio files with the same
    result: both raise the same error, or both build the same audio groups
    and so the same chunk order for every base name; and when no two
    matched base names are equal up to letter case, they also produce the
    same matched-pair order and the same sequence of clips. *)
Theorem assembly_order_deterministic (i1 i2 : video_inputs) :
  image_entries i1 ≡ₚ image_entries i2 →
  audio_entries i1 ≡ₚ audio_entries i2 →
  (∀ p, duration_of i1 p = duration_of i2 p) →
  (∀ X, set_order i1 X ≡ₚ elements X) →
  (∀ X, set_order i2 X ≡ₚ elements X) →
  let image_map1 := image_map_of (image_entries i1) in
  let image_map2 := image_map_of (image_entries i2) in
  audio_groups_of (audio_entries i1) = audio_groups_of (audio_entries i2) ∧
  (∀ e, audio_groups_of (audio_entries i1) = Raise e →
        assemble i1 = Raise e ∧ assemble i2 = Raise e) ∧
  (∀ audio_groups1 audio_groups2,
     audio_groups_of (audio_entries i1) = Ok audio_groups1 →
     audio_groups_of (audio_entries i2) = Ok audio_groups2 →
     (∀ s, ordered_chunks <$> audio_groups1 !! s
           = ordered_chunks <$> audio_groups2 !! s) ∧
     ((∀ s t, s ∈ dom image_map1 ∩ dom audio_groups1 →
              t ∈ dom image_map1 ∩ dom audio_groups1 →
              lower s = lower t → s = t) →
      common_stems_of (set_order i1) image_map1 audio_groups1
      = common_stems_of (set_order i2) image_map2 audio_groups2 ∧
      assemble i1 = assemble i2)).
Proof.
  intros Himg Haud Hdur Ho1 Ho2 image_map1 image_map2.
  assert (image_map2 = image_map1) as Eim.
  { symmetry. by apply image_map_perm. }
  assert (audio_groups_of (audio_entries i2) = audio_groups_of (audio_entries i1))
    as Eag.
  { symmetry. by apply audio_groups_perm. }
  split_and!; [done|..].
  - intros e He. unfold assemble. by rewrite Eag, He.
  - intros audio_groups1 audio_groups2 E1 E2.
    assert (audio_groups2 = audio_groups1) as -> by congruence.
    split; [done|]. intros Hinj.
    assert (common_stems_of (set_order i1) image_map1 audio_groups1
            = common_stems_of (set_order i2) image_map2 audio_groups1) as Ecs.
    { rewrite Eim. unfold common_stems_of.
      apply (py_sorted_unique lower String.leb string_leb_total string_leb_trans).
      - apply string_leb_antisym.
      - intros s t Hs Ht. rewrite Ho1, elem_of_elements in Hs, Ht. by apply Hinj.
      - by rewrite Ho1, Ho2. }
    split; [done|]. unfold assemble. rewrite E1, E2.
    cbn [mbind result_bind].
    fold image_map1 image_map2.
    rewrite <-Ecs. rewrite Eim.
    destruct (negb _); [done|]. apply for_each_ext. intros acc s.
    by apply add_clips_ext.
Qed.

Lemma reverse_elements (X : gset string) : reverse (elements X) ≡ₚ elements X.
Proof. apply reverse_Permutation. Qed.

Lemma assembly_order_deterministic_witness :
  audio_groups_of (audio_entries listing1)
  = audio_groups_of (audio_entries listing2) ∧
  assemble listing1 = assemble listing2.
Proof.
  destruct (assembly_order_deterministic listing1 listing2)
    as (Hscan & _ & Hok).
  - by apply (bool_decide_unpack _).
  - by apply (bool_decide_unpack _).
  - reflexivity.
  - reflexivity.
  - apply reverse_elements.
  - split; [exact Hscan|].
    destruct (audio_groups_of (audio_entries listing1)) as [groups|e] eqn:E1;
      [|by vm_compute in E1].
    destruct (Hok groups groups eq_refl (eq_sym Hscan)) as [_ Hpairs].
    apply Hpairs. vm_compute in E1. injection E1 as <-.
    intros s t Hs%elem_of_elements Ht%elem_of_elements.
    set (L := elements _) in Hs, Ht.
    assert (Forall (λ s, Forall (λ t, lower s = lower t → s = t) L) L) as HF.
    { apply (bool_decide_unpack _). vm_compute. exact I. }
    rewrite Forall_forall in HF. specialize (HF s Hs).
    rewrite Forall_forall in HF. exact (HF t Ht).
Defined.

(** C10 as stated fails when two matched base names differ by letter case
    only: [sorted] keeps them in the order in which the set intersection
    is iterated, and Python does not fix that order. *)
Lemma assembly_order_counterexample :
  (∀ X : gset string, elements X ≡ₚ elements X) ∧
  (∀ X : gset string, reverse (elements X) ≡ₚ elements X) ∧
  common_stems_of elements (image_map_of ["A.png"; "a.png"])
    <$> audio_groups_of ["A.wav"; "a.wav"]
  ≠ common_stems_of (λ X, reverse (elements X))
      (image_map_of ["A.png"; "a.png"]) <$> audio_groups_of ["A.wav"; "a.wav"] ∧
  assemble (VideoInputs ["A.png"; "a.png"] ["A.wav"; "a.wav"] (λ _, 4%float)
              elements (λ _ _, Ok ()) "final.mp4")
  ≠ assemble (VideoInputs ["A.png"; "a.png"] ["A.wav"; "a.wav"] (λ _, 4%float)
                (λ X, reverse (elements X)) (λ _ _, Ok ()) "final.mp4").
Proof.
  split_and!; [done|apply reverse_elements|..]; vm_compute; discriminate.
Qed.


(** * Further properties *)

(** ** [_split_text] at the edges of its domain *)

Lemma sentences_of_have_words p : Forall (λ s, split_ws s ≠ []) (sentences_of p).
Proof.
  unfold sentences_of. apply Forall_forall.
  intros s [Hne [x [-> _]]%list_elem_of_fmap]%list_elem_of_filter.
  apply split_ws_strip_nonempty. by apply Is_true_true.
Qed.

Lemma all_sentences_have_words text :
  Forall (λ s, split_ws s ≠ []) (all_sentences text).
Proof.
  unfold all_sentences. apply Forall_concat, Forall_map, Forall_forall.
  intros p _. apply sentences_of_have_words.
Qed.

Lemma all_sentences_nil text : split_ws text = [] → all_sentences text = [].
Proof.
  intros Hw. pose proof (all_sentences_have_words text) as Hs.
  rewrite <-words_all_sentences in Hw.
  destruct (all_sentences text) as [|s ss]; [done|].
  apply Forall_cons in Hs as [Hs _]. unfold words_in in Hw. cbn in Hw.
  by destruct (split_ws s).
Qed.

Lemma py_range_negative_step n step :
  step < 0 → 0 ≤ n → py_range 0 n step = Ok [].
Proof.
  intros Hs Hn. unfold py_range.
  rewrite (proj2 (Z.eqb_neq _ _)) by lia.
  rewrite (proj2 (Z.ltb_ge 0 step)) by lia.
  by rewrite (proj2 (Z.ltb_ge n 0)) by lia.
Qed.

Lemma pack_sentence_negative max_words cs wc sentence :
  max_words < 0 →
  pack_sentence max_words (Packer cs [] wc) sentence = Ok (Packer cs [] wc).
Proof.
  intros Hmw. unfold pack_sentence.
  destruct (Z.eqb_spec (Z.of_nat (length (split_ws sentence))) 0); [done|].
  rewrite (proj2 (Z.ltb_lt _ _)) by lia. cbn [truthy current_sentences].
  rewrite py_range_negative_step by lia. cbn. by rewrite app_nil_r.
Qed.

(** X1. With a negative limit nothing is emitted: every sentence counts as
    oversized and [range(0, n, max_words)] is empty, so [_split_text]
    returns the empty list for every text. *)
Theorem split_text_negative_limit text max_words :
  max_words < 0 → _split_text text max_words = Ok [].
Proof.
  intros Hmw. rewrite split_text_unfold.
  assert (∀ ss, for_each (pack_sentence max_words) ss (Packer [] [] 0)
                = Ok (Packer [] [] 0)) as ->; [|done].
  induction ss as [|s ss IH]; [done|].
  cbn [for_each]. by rewrite pack_sentence_negative.
Qed.

Lemma split_text_negative_limit_witness :
  _split_text "Hello there. How are you?" (-5) = Ok [].
Proof. apply (split_text_negative_limit "Hello there. How are you?" (-5)). lia. Defined.

(** X2. With the limit 0 every text that holds a word makes
    [range(0, n, 0)] raise [ValueError]; a text without words gives the
    empty list. *)
Theorem split_text_zero_limit text :
  _split_text text 0
  = match split_ws text with
    | [] => Ok []
    | _ => Raise (ValueError "range() arg 3 must not be zero")
    end.
Proof.
  rewrite split_text_unfold.
  pose proof (all_sentences_have_words text) as Hs.
  rewrite <-words_all_sentences.
  destruct (all_sentences text) as [|s ss]; [done|].
  apply Forall_cons in Hs as [Hs _].
  unfold words_in. cbn [map concat for_each]. unfold pack_sentence.
  destruct (split_ws s) as [|w ws] eqn:E; [done|].
  cbn [app length].
  rewrite (proj2 (Z.eqb_neq _ _)) by lia.
  by rewrite (proj2 (Z.ltb_lt _ _)) by lia.
Qed.

(** X3. A text that holds no word (empty, or whitespace only) gives the
    empty list and no error, whatever the limit is. *)
Theorem split_text_blank text max_words :
  split_ws text = [] → _split_text text max_words = Ok [].
Proof.
  intros Hw. by rewrite split_text_unfold, all_sentences_nil.
Qed.

Lemma split_text_blank_witness :
  _split_text (String " " (String LF (String LF (String CR "")))) 0 = Ok [].
Proof.
  apply (split_text_blank (String " " (String LF (String LF (String CR "")))) 0).
  reflexivity.
Defined.

(** ** Chunks are not empty *)

Lemma words_in_nonempty ss :
  ss ≠ [] → Forall (λ s, split_ws s ≠ []) ss → words_in ss ≠ [].
Proof.
  intros Hne Hs. destruct ss as [|s ss]; [done|].
  apply Forall_cons in Hs as [Hs _]. unfold words_in. cbn.
  by destruct (split_ws s).
Qed.

Lemma windows_have_words max_words (l : list string) :
  1 ≤ max_words → l ≠ [] → Forall atom l →
  Forall (λ c, split_ws c ≠ [])
    (map (join " ")
       (windows (Z.to_nat max_words)
          (window_count (Z.to_nat max_words) (length l)) l)).
Proof.
  intros Hmw Hne Hl. apply Forall_map, Forall_forall.
  intros w [k Hk]%list_elem_of_lookup.
  assert (0 < length l)%nat as Hlen by (destruct l; [done|cbn; lia]).
  destruct (windows_sizes (Z.to_nat max_words) l k w ltac:(lia) Hlen Hk)
    as [[Hw _] _].
  apply windows_lookup in Hk as [_ ->].
  rewrite split_ws_join_atoms by by apply Forall_take, Forall_drop.
  intros E. rewrite E in Hw. cbn in Hw. lia.
Qed.

Lemma pack_sentence_has_words max_words st sentence st' :
  1 ≤ max_words →
  Forall (λ c, split_ws c ≠ []) (chunks st) →
  Forall (λ s, split_ws s ≠ []) (current_sentences st) →
  pack_sentence max_words st sentence = Ok st' →
  Forall (λ c, split_ws c ≠ []) (chunks st') ∧
  Forall (λ s, split_ws s ≠ []) (current_sentences st').
Proof.
  intros Hmw Hch Hcur.
  assert (truthy (current_sentences st) = true →
          split_ws (join " " (current_sentences st)) ≠ []) as Hjoin.
  { intros Ht%truthy_true. rewrite split_ws_join. by apply words_in_nonempty. }
  destruct (decide (max_words < Z.of_nat (length (split_ws sentence)))) as [Hbig|Hfit].
  { rewrite pack_sentence_oversized by done. intros [= <-].
    cbn [chunks current_sentences]. split; [|done].
    rewrite !Forall_app. split_and!; [done| |].
    - destruct (truthy (current_sentences st)) eqn:Ht; [|done].
      constructor; [by apply Hjoin|done].
    - apply windows_have_words; [done| |apply split_ws_atoms].
      intros E. rewrite E in Hbig. cbn in Hbig. lia. }
  unfold pack_sentence.
  destruct (Z.eqb_spec (Z.of_nat (length (split_ws sentence))) 0) as [Hz|Hnz].
  { by intros [= <-]. }
  assert (split_ws sentence ≠ []) as Hs.
  { intros E. rewrite E in Hnz. by apply Hnz. }
  rewrite (proj2 (Z.ltb_ge _ _)) by lia.
  destruct (_ && _) eqn:Hclose; intros [= <-]; cbn [chunks current_sentences].
  - apply andb_true_iff in Hclose as [_ Ht]. split.
    + rewrite Forall_app. split; [done|]. constructor; [by apply Hjoin|done].
    + by constructor.
  - split; [done|]. rewrite Forall_app. split; [done|]. by constructor.
Qed.

Lemma pack_all_have_words max_words ss st st' :
  1 ≤ max_words →
  Forall (λ c, split_ws c ≠ []) (chunks st) →
  Forall (λ s, split_ws s ≠ []) (current_sentences st) →
  for_each (pack_sentence max_words) ss st = Ok st' →
  Forall (λ c, split_ws c ≠ []) (chunks st') ∧
  Forall (λ s, split_ws s ≠ []) (current_sentences st').
Proof.
  intros Hmw. revert st. induction ss as [|s ss IH]; intros st Hch Hcur.
  { by intros [= <-]. }
  cbn [for_each]. destruct (pack_sentence max_words st s) as [st1|e] eqn:E; [|done].
  cbn [mbind result_bind].
  destruct (pack_sentence_has_words _ _ _ _ Hmw Hch Hcur E). by apply IH.
Qed.

Lemma split_text_has_words text max_words cs :
  1 ≤ max_words → _split_text text max_words = Ok cs →
  Forall (λ c, split_ws c ≠ []) cs.
Proof.
  intros Hmw. rewrite split_text_unfold.
  destruct (for_each _ _ _) as [st|e] eqn:E; [|done].
  cbn [mbind result_bind]. intros [= <-].
  destruct (pack_all_have_words _ _ _ _ Hmw
              (Forall_nil_2 _ : Forall _ (chunks (Packer [] [] 0)))
              (Forall_nil_2 _ : Forall _ (current_sentences (Packer [] [] 0))) E)
    as [Hch Hcur].
  destruct (truthy (current_sentences st)) eqn:Ht; [|done].
  rewrite Forall_app. split; [done|]. constructor; [|done].
  rewrite split_ws_join. by apply words_in_nonempty, Hcur; apply truthy_true.
Qed.

(** X4. For a limit of at least 1 no returned chunk is empty: every chunk
    holds between 1 and [max_words] words. *)
Theorem split_text_chunks_nonempty text max_words :
  1 ≤ max_words →
  ∃ cs, _split_text text max_words = Ok cs ∧
        Forall (λ c, 1 ≤ Z.of_nat (length (split_ws c)) ≤ max_words) cs.
Proof.
  intros Hmw. destruct (split_text_ok text max_words Hmw) as (cs & E & _ & Hb).
  exists cs. split; [done|].
  pose proof (split_text_has_words text max_words cs Hmw E) as Hw.
  rewrite Forall_forall in Hb, Hw. apply Forall_forall. intros c Hc.
  specialize (Hb c Hc). specialize (Hw c Hc). unfold within in Hb.
  destruct (split_ws c); [done|]. cbn in *. lia.
Qed.

Lemma split_text_chunks_nonempty_witness :
  ∃ cs, _split_text "One two. Three four five six seven. Eight." 3 = Ok cs ∧
        Forall (λ c, 1 ≤ Z.of_nat (length (split_ws c)) ≤ 3) cs.
Proof.
  apply (split_text_chunks_nonempty
           "One two. Three four five six seven. Eight." 3). lia.
Defined.


(** ** Sentences stay whole *)

Lemma Sorted_snoc_change {A} (R : relation A) l x x' :
  Sorted R (l ++ [x]) → (∀ y, R y x → R y x') → Sorted R (l ++ [x']).
Proof.
  intros Hs HR. induction l as [|a l IH]; [repeat constructor|].
  cbn in *. apply Sorted_inv in Hs as [Hs Hhd]. constructor; [by apply IH|].
  destruct l as [|b l]; cbn in *.
  - apply HdRel_inv in Hhd. constructor. by apply HR.
  - apply HdRel_inv in Hhd. by constructor.
Qed.

Lemma Sorted_snoc_snoc {A} (R : relation A) l x y :
  Sorted R (l ++ [x]) → R x y → Sorted R ((l ++ [x]) ++ [y]).
Proof.
  intros Hs Hxy. apply Sorted_snoc; [done|]. by constructor.
Qed.

Lemma grouped_init max_words : grouped max_words [] (Packer [] [] 0) [].
Proof. split; cbn; try done; constructor. Qed.

Lemma pack_sentence_grouped max_words seen st gs sentence :
  grouped max_words seen st gs →
  split_ws sentence ≠ [] → within max_words sentence →
  ∃ st' gs', pack_sentence max_words st sentence = Ok st' ∧
             grouped max_words (seen ++ [sentence]) st' gs'.
Proof.
  intros [Hch Hseen Hne Hfit Hgr Hcnt Hstart] Hs Hw.
  unfold within in Hw. unfold pack_sentence.
  rewrite (proj2 (Z.eqb_neq _ _))
    by (destruct (split_ws sentence); [done|cbn; lia]).
  rewrite (proj2 (Z.ltb_ge _ _)) by lia.
  destruct (_ && _) eqn:Hclose.
  - apply andb_true_iff in Hclose as [Hover%Z.ltb_lt Ht].
    unfold open_groups in Hgr, Hfit. rewrite Ht in Hgr, Hfit.
    eexists _, (gs ++ [current_sentences st]). split; [done|].
    split; cbn [chunks current_sentences word_count].
    + by rewrite Hch, map_app.
    + rewrite concat_app, <-Hseen. cbn. by rewrite app_nil_r.
    + rewrite Forall_app. split; [done|]. constructor; [|done].
      by apply truthy_true.
    + unfold open_groups. cbn [truthy]. rewrite Forall_app. split; [done|].
      constructor; [|done]. by rewrite words_in_singleton.
    + unfold open_groups. cbn [truthy]. apply Sorted_snoc_snoc; [done|].
      unfold greedy. cbn [hd]. lia.
    + by rewrite words_in_singleton.
    + done.
  - eexists _, gs. split; [done|].
    assert (word_count st + Z.of_nat (length (split_ws sentence)) ≤ max_words)
      as Hroom.
    { apply andb_false_iff in Hclose as [Hle%Z.ltb_ge|Ht]; [lia|].
      apply truthy_false in Ht. rewrite Hcnt, Ht. cbn. lia. }
    assert (truthy (current_sentences st ++ [sentence]) = true) as Ht'.
    { by destruct (current_sentences st). }
    split; cbn [chunks current_sentences word_count].
    + done.
    + by rewrite <-Hseen, app_assoc.
    + done.
    + unfold open_groups in *. rewrite Ht'.
      assert (Forall (λ g, Z.of_nat (length (words_in g)) ≤ max_words) gs) as Hgs.
      { destruct (truthy (current_sentences st)); [|done].
        by apply Forall_app in Hfit as [? _]. }
      rewrite Forall_app. split; [done|]. constructor; [|done].
      rewrite words_in_app, words_in_singleton, length_app. lia.
    + unfold open_groups in *. rewrite Ht'.
      destruct (truthy (current_sentences st)) eqn:Ht.
      * eapply Sorted_snoc_change; [done|]. intros g. unfold greedy.
        by destruct (current_sentences st).
      * apply truthy_false in Ht. rewrite (Hstart Ht). repeat constructor.
    + rewrite words_in_app, words_in_singleton, length_app. lia.
    + by destruct (current_sentences st).
Qed.

Lemma pack_all_grouped max_words ss seen st gs :
  grouped max_words seen st gs →
  Forall (λ s, split_ws s ≠ []) ss → Forall (within max_words) ss →
  ∃ st' gs', for_each (pack_sentence max_words) ss st = Ok st' ∧
             grouped max_words (seen ++ ss) st' gs'.
Proof.
  revert seen st gs. induction ss as [|s ss IH]; intros seen st gs Hg Hs Hw.
  { exists st, gs. by rewrite app_nil_r. }
  apply Forall_cons in Hs as [Hs Hss]. apply Forall_cons in Hw as [Hw Hws].
  destruct (pack_sentence_grouped _ _ _ _ s Hg Hs Hw) as (st1 & gs1 & E1 & Hg1).
  destruct (IH _ _ _ Hg1 Hss Hws) as (st2 & gs2 & E2 & Hg2).
  exists st2, gs2. cbn [for_each]. rewrite E1. cbn [mbind result_bind].
  split; [done|]. by rewrite <-app_assoc in Hg2.
Qed.

(** The chunks of a text none of whose sentences is oversized. *)
Lemma split_text_grouped text max_words :
  Forall (within max_words) (all_sentences text) →
  ∃ gs, _split_text text max_words = Ok (map (join " ") gs) ∧
        concat gs = all_sentences text ∧
        Forall (λ g, g ≠ []) gs ∧
        Forall (λ g, Z.of_nat (length (words_in g)) ≤ max_words) gs ∧
        Sorted (greedy max_words) gs.
Proof.
  intros Hw. rewrite split_text_unfold.
  destruct (pack_all_grouped max_words (all_sentences text) [] _ []
              (grouped_init max_words) (all_sentences_have_words text) Hw)
    as (st & gs & E & [Hch Hseen Hne Hfit Hgr Hcnt Hstart]).
  rewrite E. cbn [mbind result_bind].
  exists (open_groups gs (current_sentences st)). unfold open_groups in *.
  destruct (truthy (current_sentences st)) eqn:Ht.
  - split_and!; [|by rewrite concat_app; cbn; rewrite app_nil_r| |done..].
    + by rewrite map_app, Hch.
    + rewrite Forall_app. split; [done|]. constructor; [|done].
      by apply truthy_true.
  - apply truthy_false in Ht. rewrite Ht, app_nil_r in Hseen.
    split_and!; [by rewrite Hch|done..].
Qed.

(** X6. Packing is greedy: when no sentence is oversized, every chunk but
    the last is closed only because the first sentence of the next chunk
    would have taken it over the limit, and every chunk is within the
    limit. *)
Theorem split_text_greedy text max_words :
  Forall (λ s, Z.of_nat (length (split_ws s)) ≤ max_words) (all_sentences text) →
  ∃ gs, _split_text text max_words = Ok (map (join " ") gs) ∧
        concat gs = all_sentences text ∧
        Forall (λ g, Z.of_nat (length (concat (map split_ws g))) ≤ max_words) gs ∧
        ∀ i g g', gs !! i = Some g → gs !! S i = Some g' →
                  max_words
                  < Z.of_nat (length (concat (map split_ws g)))
                    + Z.of_nat (length (split_ws (hd "" g'))).
Proof.
  intros Hw. destruct (split_text_grouped text max_words Hw)
    as (gs & E & Hc & _ & Hfit & Hgr).
  exists gs. split_and!; [done..|]. clear E Hc Hfit Hw.
  induction Hgr as [|g0 gs0 _ IH Hhd]; intros i g g' Hi Hi'; [done|].
  destruct i as [|i]; cbn in Hi, Hi'.
  - injection Hi as <-. destruct Hhd as [|g1 gs1 Hg]; [done|].
    cbn in Hi'. by injection Hi' as <-.
  - by apply (IH i).
Qed.

Lemma split_text_greedy_witness :
  ∃ gs, _split_text "One two. Three! Four five six? Seven." 3
        = Ok (map (join " ") gs) ∧
        concat gs = all_sentences "One two. Three! Four five six? Seven." ∧
        Forall (λ g, Z.of_nat (length (concat (map split_ws g))) ≤ 3) gs ∧
        ∀ i g g', gs !! i = Some g → gs !! S i = Some g' →
                  3 < Z.of_nat (length (concat (map split_ws g)))
                      + Z.of_nat (length (split_ws (hd "" g'))).
Proof.
  apply (split_text_greedy "One two. Three! Four five six? Seven." 3).
  apply (bool_decide_unpack _). vm_compute. exact I.
Defined.

(** ** Line endings *)

Lemma replace_pair_cons_ne a b new c s :
  c ≠ a → replace_pair a b new (String c s) = String c (replace_pair a b new s).
Proof.
  intros Hc. destruct s as [|c' s]; [done|].
  change (replace_pair a b new (String c (String c' s)))
    with (if Ascii.eqb c a && Ascii.eqb c' b
          then new +:+ replace_pair a b new s
          else String c (replace_pair a b new (String c' s))).
  by rewrite (proj2 (Ascii.eqb_neq c a)).
Qed.

Lemma replace_pair_hit a b new s :
  replace_pair a b new (String a (String b s)) = new +:+ replace_pair a b new s.
Proof.
  change (replace_pair a b new (String a (String b s)))
    with (if Ascii.eqb a a && Ascii.eqb b b
          then new +:+ replace_pair a b new s
          else String a (replace_pair a b new (String b s))).
  by rewrite !Ascii.eqb_refl.
Qed.

Lemma normalize_cons_ne c s :
  c ≠ CR → normalize (String c s) = String c (normalize s).
Proof.
  intros Hc. unfold normalize. rewrite replace_pair_cons_ne by done.
  cbn [replace_char]. by rewrite (proj2 (Ascii.eqb_neq c CR)).
Qed.

Lemma normalize_crlf s :
  normalize (String CR (String LF s)) = String LF (normalize s).
Proof. unfold normalize. by rewrite replace_pair_hit. Qed.

Lemma normalize_no_cr s : no_cr s = true → normalize s = s.
Proof.
  induction s as [|c s IH]; [done|]. cbn [no_cr].
  intros [Hc Hs]%andb_true_iff. apply negb_true_iff, Ascii.eqb_neq in Hc.
  by rewrite normalize_cons_ne, IH.
Qed.

Lemma normalize_to_crlf s :
  no_cr s = true →
  normalize (replace_char LF (String CR (String LF "")) s) = s.
Proof.
  induction s as [|c s IH]; [done|]. cbn [no_cr replace_char].
  intros [Hc Hs]%andb_true_iff. apply negb_true_iff, Ascii.eqb_neq in Hc.
  destruct (Ascii.eqb_spec c LF) as [->|Hlf].
  - rewrite !append_cons, append_nil_l, normalize_crlf. by rewrite IH.
  - by rewrite normalize_cons_ne, IH.
Qed.

Lemma split_text_normalize text1 text2 max_words :
  normalize text1 = normalize text2 →
  _split_text text1 max_words = _split_text text2 max_words.
Proof. intros H. unfold _split_text, paragraphs_of. by rewrite H. Qed.

(** X7. Line endings do not matter: a text written with LF line ends and
    the same text written with CRLF line ends are split into the same
    chunks, for every limit. *)
Theorem split_text_crlf text max_words :
  no_cr text = true →
  _split_text (replace_char LF (String CR (String LF "")) text) max_words
  = _split_text text max_words.
Proof.
  intros Hcr. apply split_text_normalize.
  by rewrite normalize_to_crlf, normalize_no_cr.
Qed.

Lemma split_text_crlf_witness :
  _split_text
    (replace_char LF (String CR (String LF ""))
       ("First line." +:+ String LF (String LF "Second paragraph. End."))) 3
  = _split_text
      ("First line." +:+ String LF (String LF "Second paragraph. End.")) 3.
Proof.
  apply (split_text_crlf
           ("First line." +:+ String LF (String LF "Second paragraph. End.")) 3).
  reflexivity.
Defined.


(** ** Runs of the synthesis driver *)

Lemma elem_of_concat {A} (x : A) (ls : list (list A)) :
  x ∈ concat ls ↔ ∃ l, l ∈ ls ∧ x ∈ l.
Proof.
  induction ls as [|l ls IH]; cbn [concat].
  - split; [by intros ?%elem_of_nil|]. by intros (? & ?%elem_of_nil & _).
  - rewrite elem_of_app, IH. split.
    + intros [Hx|(l' & Hl' & Hx)]; [exists l; split; [by left|done]|].
      exists l'. split; [by right|done].
    + intros (l' & [->|Hl']%elem_of_cons & Hx); [by left|]. right. by exists l'.
Qed.

Lemma elem_of_outputs_of suffix txt o :
  o ∈ outputs_of suffix txt →
  o.1.1 = txt ∧
  nonempty (strip (txt_content txt)) = true ∧
  ∃ cs, _split_text (strip (txt_content txt)) 100 = Ok cs ∧
        o.1.2 ∈ cs ∧ o.2 ∈ output_paths (stem (txt_name txt)) suffix cs.
Proof.
  unfold outputs_of, chunks_of. intros Ho.
  apply list_elem_of_fmap in Ho as ([c p] & -> & Hcp). cbn [fst snd].
  destruct (nonempty (strip (txt_content txt))) eqn:Hne;
    [|by apply elem_of_nil in Hcp].
  destruct (_split_text (strip (txt_content txt)) 100) as [cs|e] eqn:E;
    [|by apply elem_of_nil in Hcp].
  split_and!; [done..|]. exists cs. split_and!; [done| |].
  - by eapply elem_of_zip_l.
  - by eapply elem_of_zip_r.
Qed.

Lemma elem_of_run_outputs suffix (entries : list text_file) o :
  o ∈ concat (map (outputs_of suffix)
               (py_sorted txt_name String.leb
                  (filter (λ f, ends_with ".txt" (txt_name f)) entries))) →
  o.1.1 ∈ entries ∧ ends_with ".txt" (txt_name o.1.1) = true ∧
  o ∈ outputs_of suffix o.1.1.
Proof.
  intros (l & [txt [-> Htxt]]%list_elem_of_fmap & Ho)%elem_of_concat.
  rewrite py_sorted_perm in Htxt.
  apply list_elem_of_filter in Htxt as [Hext Htxt].
  destruct (elem_of_outputs_of _ _ _ Ho) as [-> _].
  split_and!; [done| |done]. by apply Is_true_true.
Qed.

Section runs.
Context (write_time : nat → float).

Lemma up_to_date_files txt st1 st2 p :
  audio_files st1 = audio_files st2 →
  up_to_date txt st1 p = up_to_date txt st2 p.
Proof. unfold up_to_date. by intros ->. Qed.

Lemma emit_keeps_up_to_date txt txt' st chunk_text p q :
  (∀ k, (txt_mtime txt' <=? write_time k)%float = true) →
  up_to_date txt' st q = true →
  up_to_date txt' (emit write_time txt st chunk_text p) q = true.
Proof.
  intros Hnew Hq. unfold emit. destruct (up_to_date txt st p); [done|].
  unfold up_to_date in *. cbn [audio_files synthesize_to_file].
  destruct (decide (p = q)) as [->|Hpq].
  - by rewrite lookup_insert_eq.
  - by rewrite lookup_insert_ne.
Qed.

Lemma emit_settles txt st chunk_text p :
  (∀ k, (txt_mtime txt <=? write_time k)%float = true) →
  up_to_date txt (emit write_time txt st chunk_text p) p = true.
Proof.
  intros Hnew. unfold emit. destruct (up_to_date txt st p) eqn:Hup; [done|].
  unfold up_to_date. cbn [audio_files synthesize_to_file].
  by rewrite lookup_insert_eq.
Qed.

(** After a run every output it visited is up to date. *)
Lemma foldl_emit_settled (outs : list (text_file * string * string)) st o :
  (∀ o k, o ∈ outs → (txt_mtime o.1.1 <=? write_time k)%float = true) →
  o ∈ outs →
  up_to_date o.1.1 (foldl (emit_output write_time) st outs) o.2 = true.
Proof.
  revert o. induction outs as [|o' outs IH] using rev_ind; intros o Hnew Ho.
  { by apply elem_of_nil in Ho. }
  rewrite foldl_app. cbn [foldl]. unfold emit_output at 1.
  apply elem_of_app in Ho as [Ho|Ho%list_elem_of_singleton].
  - apply emit_keeps_up_to_date.
    + intros k. apply Hnew. apply elem_of_app. by left.
    + apply IH; [|done]. intros o1 k Ho1. apply Hnew. apply elem_of_app. by left.
  - subst o'. apply emit_settles. intros k. apply Hnew.
    apply elem_of_app. right. by apply list_elem_of_singleton.
Qed.

Lemma foldl_emit_skip (outs : list (text_file * string * string)) st :
  (∀ o, o ∈ outs → up_to_date o.1.1 st o.2 = true) →
  foldl (emit_output write_time) st outs = st.
Proof.
  induction outs as [|o outs IH]; intros Hup; [done|]. cbn [foldl].
  assert (emit_output write_time st o = st) as ->.
  { unfold emit_output, emit. by rewrite Hup by by left. }
  apply IH. intros o' Ho'. apply Hup. by right.
Qed.

Lemma run_ok_more files outs o st :
  run_ok write_time files outs st → run_ok write_time files (outs ++ [o]) st.
Proof.
  intros [Hf Hk Hg Hc Hs]. split; [|done|done| |done].
  - intros p Hp. apply Hf. intros o' Ho'. apply Hp, elem_of_app. by left.
  - intros cp (o' & Ho' & ->)%Hc. exists o'. split; [|done].
    apply elem_of_app. by left.
Qed.

Lemma run_ok_emit files outs o st :
  run_ok write_time files outs st →
  run_ok write_time files (outs ++ [o]) (emit_output write_time st o).
Proof.
  intros Hok. unfold emit_output, emit.
  destruct (up_to_date o.1.1 st o.2); [by apply run_ok_more|].
  destruct Hok as [Hf Hk Hg Hc Hs].
  split; cbn [audio_files synthesized generated synthesize_to_file].
  - intros p Hp. rewrite lookup_insert_ne.
    + apply Hf. intros o' Ho'. apply Hp, elem_of_app. by left.
    + apply Hp, elem_of_app. right. by apply list_elem_of_singleton.
  - intros p Hp. destruct (decide (o.2 = p)) as [->|Hne].
    + rewrite lookup_insert_eq. by eexists.
    + rewrite lookup_insert_ne by done. by apply Hk.
  - by rewrite fmap_app, Hg.
  - intros cp [Hcp|Hcp%list_elem_of_singleton]%elem_of_app; [|subst cp].
    + destruct (Hc cp Hcp) as (o' & Ho' & ->). exists o'. split; [|done].
      apply elem_of_app. by left.
    + exists o. split; [|done]. apply elem_of_app. right.
      by apply list_elem_of_singleton.
  - intros p Hp. rewrite length_app. cbn [length].
    destruct (decide (o.2 = p)) as [->|Hne].
    + exists (length (synthesized st)). split; [lia|]. by rewrite lookup_insert_eq.
    + apply elem_of_app in Hp as [Hp|Hp%list_elem_of_singleton]; [|done].
      destruct (Hs p Hp) as (k & Hk' & E). exists k. split; [lia|].
      by rewrite lookup_insert_ne.
Qed.

Lemma run_ok_foldl files outs :
  run_ok write_time files outs
    (foldl (emit_output write_time) (SynthState files [] []) outs).
Proof.
  induction outs as [|o outs IH] using rev_ind.
  { split; cbn; try done.
    - intros cp Hcp. by apply elem_of_nil in Hcp.
    - intros p Hp. by apply elem_of_nil in Hp. }
  rewrite foldl_app. cbn [foldl]. by apply run_ok_emit.
Qed.
End runs.

Lemma synthesize_directory_run write_time entries suffix files :
  synthesize_directory write_time (Some entries) suffix files
  = Ok (foldl (emit_output write_time) (SynthState files [] [])
          (run_outputs suffix entries)).
Proof. unfold synthesize_directory. by rewrite for_each_synthesize_file. Qed.

Lemma run_outputs_paths suffix entries o :
  o ∈ run_outputs suffix entries →
  o.1.1 ∈ entries ∧ ends_with ".txt" (txt_name o.1.1) = true ∧
  ∃ cs, _split_text (strip (txt_content o.1.1)) 100 = Ok cs ∧
        o.1.2 ∈ cs ∧ o.2 ∈ output_paths (stem (txt_name o.1.1)) suffix cs.
Proof.
  intros (Hin & Hext & Ho)%elem_of_run_outputs.
  by destruct (elem_of_outputs_of _ _ _ Ho) as (_ & _ & Hcs).
Qed.

(** X8. A second run generates nothing: when the files a run writes are
    stamped no older than the texts, running again over the same texts
    calls the model for no chunk, returns the empty list and leaves the
    output directory as the first run left it. *)
Theorem rerun_generates_nothing write_time write_time' entries suffix files st :
  (∀ txt k, txt ∈ entries → (txt_mtime txt <=? write_time k)%float = true) →
  synthesize_directory write_time (Some entries) suffix files = Ok st →
  synthesize_directory write_time' (Some entries) suffix (audio_files st)
  = Ok (SynthState (audio_files st) [] []).
Proof.
  intros Hnew. rewrite !synthesize_directory_run. intros [= <-]. f_equal.
  apply foldl_emit_skip. intros o Ho.
  rewrite (up_to_date_files _ _
             (foldl (emit_output write_time) (SynthState files [] [])
                (run_outputs suffix entries))) by done.
  apply foldl_emit_settled; [|done].
  intros o' k Ho'. apply Hnew. by apply run_outputs_paths in Ho' as [? _].
Qed.

Lemma rerun_generates_nothing_witness :
  synthesize_directory (λ _, 7%float) (Some sample_texts) ".wav"
    (audio_files sample_after)
  = Ok (SynthState (audio_files sample_after) [] []).
Proof.
  apply (rerun_generates_nothing (λ _, 2%float) (λ _, 7%float) sample_texts
           ".wav" sample_audio sample_after).
  - intros txt k Htxt. revert txt Htxt. apply Forall_forall.
    apply (bool_decide_unpack _). vm_compute. exact I.
  - vm_compute. reflexivity.
Defined.

(** X9. A run touches only its own outputs: a file of the output
    directory that is no output path of a [*.txt] entry with a non-blank
    text keeps its modification time (so do the files named after entries
    that are no text files, and after blank texts), no file disappears,
    the returned list names the files of the model calls in call order,
    and each returned file is in the directory afterwards with the stamp
    of one of the run's writes. *)
Theorem run_touches_only_outputs write_time entries suffix files st :
  synthesize_directory write_time (Some entries) suffix files = Ok st →
  (∀ p, (∀ txt cs, txt ∈ entries →
                   ends_with ".txt" (txt_name txt) = true →
                   nonempty (strip (txt_content txt)) = true →
                   _split_text (strip (txt_content txt)) 100 = Ok cs →
                   p ∉ output_paths (stem (txt_name txt)) suffix cs) →
        audio_files st !! p = files !! p) ∧
  (∀ p, is_Some (files !! p) → is_Some (audio_files st !! p)) ∧
  generated st = (synthesized st).*2 ∧
  (∀ p, p ∈ generated st →
        ∃ k, (k < length (synthesized st))%nat ∧
             audio_files st !! p = Some (write_time k)).
Proof.
  rewrite synthesize_directory_run. intros [= <-].
  destruct (run_ok_foldl write_time files (run_outputs suffix entries))
    as [Hf Hk Hg _ Hs].
  split_and!; [|done..]. intros p Hp. apply Hf. intros o Ho <-.
  apply elem_of_run_outputs in Ho as (Hin & Hext & Ho).
  destruct (elem_of_outputs_of _ _ _ Ho) as (_ & Hne & cs & E & _ & Hpath).
  by apply (Hp o.1.1 cs).
Qed.

Lemma run_touches_only_outputs_witness :
  (∀ p, (∀ txt cs, txt ∈ sample_texts →
                   ends_with ".txt" (txt_name txt) = true →
                   nonempty (strip (txt_content txt)) = true →
                   _split_text (strip (txt_content txt)) 100 = Ok cs →
                   p ∉ output_paths (stem (txt_name txt)) ".wav" cs) →
        audio_files sample_after !! p = sample_audio !! p) ∧
  (∀ p, is_Some (sample_audio !! p) → is_Some (audio_files sample_after !! p)) ∧
  generated sample_after = (synthesized sample_after).*2 ∧
  (∀ p, p ∈ generated sample_after →
        ∃ k, (k < length (synthesized sample_after))%nat ∧
             audio_files sample_after !! p = Some ((λ _ : nat, 2%float) k)).
Proof.
  apply (run_touches_only_outputs (λ _, 2%float) sample_texts ".wav"
           sample_audio sample_after).
  vm_compute. reflexivity.
Defined.

(** X10. What the model is asked to speak: every call made during a run
    is for a chunk of a [*.txt] entry whose trimmed text is not empty, is
    written to one of the output paths of that entry, and has between 1
    and 100 words. *)
Theorem model_calls_are_chunks write_time entries suffix files st :
  synthesize_directory write_time (Some entries) suffix files = Ok st →
  ∀ chunk_text p,
    (chunk_text, p) ∈ synthesized st →
    ∃ txt cs,
      txt ∈ entries ∧ ends_with ".txt" (txt_name txt) = true ∧
      nonempty (strip (txt_content txt)) = true ∧
      _split_text (strip (txt_content txt)) 100 = Ok cs ∧
      chunk_text ∈ cs ∧
      p ∈ output_paths (stem (txt_name txt)) suffix cs ∧
      1 ≤ Z.of_nat (length (split_ws chunk_text)) ≤ 100.
Proof.
  rewrite synthesize_directory_run. intros [= <-] c p Hcp.
  destruct (run_ok_foldl write_time files (run_outputs suffix entries))
    as [_ _ _ Hc _].
  destruct (Hc _ Hcp) as (o & Ho & [= -> ->]).
  apply elem_of_run_outputs in Ho as (Hin & Hext & Ho).
  destruct (elem_of_outputs_of _ _ _ Ho) as (_ & Hne & cs & E & Hc' & Hp').
  exists o.1.1, cs. split_and!; [done..| |].
  - pose proof (split_text_has_words _ 100 _ ltac:(lia) E) as Hw.
    rewrite Forall_forall in Hw. specialize (Hw _ Hc').
    destruct (split_ws o.1.2); [done|cbn; lia].
  - destruct (split_text_ok (strip (txt_content o.1.1)) 100 ltac:(lia))
      as (cs' & E' & _ & Hb).
    rewrite E in E'. injection E' as <-.
    rewrite Forall_forall in Hb. by apply Hb.
Qed.

Lemma model_calls_are_chunks_witness :
  ("First text.", "a.wav") ∈ synthesized sample_after ∧
  ∃ txt cs,
    txt ∈ sample_texts ∧ ends_with ".txt" (txt_name txt) = true ∧
    nonempty (strip (txt_content txt)) = true ∧
    _split_text (strip (txt_content txt)) 100 = Ok cs ∧
    "First text." ∈ cs ∧
    "a.wav" ∈ output_paths (stem (txt_name txt)) ".wav" cs ∧
    1 ≤ Z.of_nat (length (split_ws "First text.")) ≤ 100.
Proof.
  assert (("First text.", "a.wav") ∈ synthesized sample_after) as Hin
    by (cbn; left).
  split; [exact Hin|].
  apply (model_calls_are_chunks (λ _, 2%float) sample_texts ".wav"
           sample_audio sample_after); [|exact Hin].
  vm_compute. reflexivity.
Defined.

(** ** From the names the driver writes to the groups the producer reads *)

Lemma append_snoc_nonempty x c y : x +:+ String c y ≠ "".
Proof. by destruct x. Qed.

Lemma stem_wav x : x ≠ "" → stem (x +:+ ".wav") = x.
Proof.
  intros Hx. change ".wav" with (String "."%char "wav").
  rewrite stem_with_extension by done. by destruct x.
Qed.

Lemma chunk_path_parts S suffix idx :
  chunk_path S suffix idx = (S +:+ "-" +:+ format_02d idx) +:+ suffix.
Proof. unfold chunk_path. by rewrite !append_assoc. Qed.

Lemma base_and_index_chunk_path S idx :
  base_and_index (stem (chunk_path S ".wav" idx)) = Ok (S, Z.of_nat idx).
Proof.
  rewrite chunk_path_parts, stem_wav by apply append_snoc_nonempty.
  destruct (format_02d_spec idx) as [Hd Hv].
  by rewrite base_and_index_suffixed, Hv.
Qed.

(** X11. The names of chunk files survive the round trip: the file the
    driver writes for chunk [idx] of the stem [S] is matched by the
    producer's [*.wav] scan and read back as base [S] with index [idx],
    whatever [S] is and however many digits the index takes. *)
Theorem chunk_name_round_trip S idx :
  ends_with ".wav" (S +:+ "-" +:+ format_02d idx +:+ ".wav") = true ∧
  base_and_index (stem (S +:+ "-" +:+ format_02d idx +:+ ".wav"))
  = Ok (S, Z.of_nat idx).
Proof.
  split; [|apply base_and_index_chunk_path].
  apply ends_with_spec. exists (S +:+ "-" +:+ format_02d idx).
  by rewrite !append_assoc.
Qed.

(** X12. A one-chunk text whose stem itself ends in ["-"] and digits is
    written under that stem, and the producer reads the file as a chunk of
    the shorter base: [part-2.txt] gives [part-2.wav], which is grouped
    under ["part"] with index 2 and not under ["part-2"]; where [int]
    refuses the digits, reading the file raises the error of [int]. *)
Theorem single_chunk_name_read_as_chunk B digits chunk_text :
  isdigit digits = true →
  output_paths (B +:+ "-" +:+ digits) ".wav" [chunk_text]
  = [(B +:+ "-" +:+ digits) +:+ ".wav"] ∧
  base_and_index (stem ((B +:+ "-" +:+ digits) +:+ ".wav"))
  = (λ idx, (B, idx)) <$> int digits.
Proof.
  intros Hd. split; [done|].
  rewrite stem_wav by apply append_snoc_nonempty.
  by apply base_and_index_suffixed.
Qed.

Lemma single_chunk_name_read_as_chunk_witness :
  output_paths ("part" +:+ "-" +:+ "2") ".wav" ["Only one chunk."]
  = [("part" +:+ "-" +:+ "2") +:+ ".wav"] ∧
  base_and_index (stem (("part" +:+ "-" +:+ "2") +:+ ".wav"))
  = (λ idx, ("part", idx)) <$> int "2".
Proof.
  apply (single_chunk_name_read_as_chunk "part" "2" "Only one chunk.").
  reflexivity.
Defined.

Example example_part_2_is_read_as_chunk :
  base_and_index (stem "part-2.wav") = Ok ("part", 2).
Proof. vm_compute. reflexivity. Qed.

Lemma py_sorted_sorted {A K} (key : A → K) (leb : K → K → bool) l :
  StronglySorted (key_le key leb) l → py_sorted key leb l = l.
Proof.
  induction 1 as [|x l Hl IH Hx]; [done|].
  cbn [py_sorted foldr]. fold (py_sorted key leb l). rewrite IH.
  destruct l as [|y l]; [done|]. cbn [insert_sorted].
  apply Forall_cons in Hx as [Hxy _]. by rewrite Hxy.
Qed.

Lemma indexed_paths_sorted (f : nat → string) start n :
  StronglySorted (key_le fst Z.leb)
    (map (λ i, (Z.of_nat i, f i)) (seq start n)).
Proof.
  revert start. induction n as [|n IH]; intros start; [constructor|].
  cbn [seq map]. constructor; [apply IH|].
  apply Forall_map, Forall_forall. intros i Hi%elem_of_seq.
  unfold key_le. cbn. apply Z.leb_le. lia.
Qed.

Lemma group_entries_paths base files :
  (group_entries base files).*2 = filter (λ p, base_of p = base) files.
Proof.
  unfold group_entries. generalize (filter (λ p, base_of p = base) files).
  intros l. induction l as [|p l IH]; [done|].
  cbn [map fmap list_fmap snd]. f_equal. exact IH.
Qed.

Lemma group_entries_of_paths base l :
  Forall (λ p, base_of p = base) l →
  group_entries base l = map (λ p, (index_of p, p)) l.
Proof.
  intros Hl. unfold group_entries. f_equal.
  induction Hl as [|p l Hp _ IH]; [done|].
  by rewrite filter_cons_True, IH.
Qed.

(** X13. Chunk files are played in the order in which they were
    synthesized: when the scan of the audio directory does not raise and
    the audio files of base [S] are the outputs of a text of two or more
    chunks, the producer orders them by chunk index, which is the order of
    the chunks, also where the sort by file name is another order (chunk
    100 is listed before chunk 11). *)
Theorem synthesized_chunks_play_in_order S cs entries groups :
  (1 < length cs)%nat →
  audio_groups_of entries = Ok groups →
  filter (λ p, base_of p = S) (glob ".wav" entries)
  ≡ₚ output_paths S ".wav" cs →
  Forall (λ p, base_and_index (stem p) = Ok (base_of p, index_of p))
    (glob ".wav" entries) ∧
  ordered_chunks <$> groups !! S
  = Some (zip (Z.of_nat <$> seq 1 (length cs)) (output_paths S ".wav" cs)).
Proof.
  intros Hk [Hr ->]%audio_groups_of_Ok Hperm. split.
  { eapply Forall_impl; [done|]. intros p Hp. apply readable_true in Hp.
    unfold base_of, index_of. by destruct (parts_of p). }
  rewrite output_paths_multi in * by lia.
  set (k := length cs) in *.
  set (T := map (λ i, (Z.of_nat i, chunk_path S ".wav" i)) (seq 1 k)).
  assert (zip (Z.of_nat <$> seq 1 k) (map (chunk_path S ".wav") (seq 1 k)) = T)
    as ->.
  { unfold T. generalize (seq 1 k). intros l.
    induction l as [|i l IH]; [done|]. cbn. by rewrite IH. }
  assert (group_entries S (py_sorted lower String.leb (glob ".wav" entries))
          ≡ₚ T) as HT.
  { unfold group_entries.
    rewrite (filter_py_sorted _ _ string_leb_total string_leb_trans).
    rewrite py_sorted_perm.
    etrans; [apply Permutation_map, Hperm|].
    unfold T. rewrite map_map.
    erewrite map_ext; [reflexivity|]. intros i. cbn.
    unfold index_of, parts_of. by rewrite base_and_index_chunk_path. }
  rewrite audio_groups_lookup.
  destruct (group_entries _ _) as [|e es] eqn:Eg.
  { apply Permutation_nil in HT. unfold T in HT.
    apply (f_equal length) in HT. rewrite length_map, length_seq in HT.
    cbn in HT. lia. }
  cbn [fmap option_fmap option_map]. f_equal. unfold ordered_chunks.
  rewrite <-(py_sorted_sorted fst Z.leb T) by apply indexed_paths_sorted.
  symmetry.
  apply (py_sorted_unique fst Z.leb Z_leb_total Z_leb_trans); [| |done].
  - intros a b Ha%Z.leb_le Hb%Z.leb_le. lia.
  - intros x y [i [-> _]]%list_elem_of_fmap [j [-> _]]%list_elem_of_fmap.
    cbn. intros Hij%Nat2Z.inj. by subst.
Qed.

Lemma synthesized_chunks_play_in_order_witness :
  Forall (λ p, base_and_index (stem p) = Ok (base_of p, index_of p))
    (glob ".wav"
       ["talk-02.wav"; "intro.wav"; "talk-03.wav"; "talk-01.wav"; "talk.txt"]) ∧
  ordered_chunks <$>
    audio_groups_read
      ["talk-02.wav"; "intro.wav"; "talk-03.wav"; "talk-01.wav"; "talk.txt"]
      !! "talk"
  = Some (zip (Z.of_nat <$> seq 1 (length ["one"; "two"; "three"]))
            (output_paths "talk" ".wav" ["one"; "two"; "three"])).
Proof.
  apply (synthesized_chunks_play_in_order "talk" ["one"; "two"; "three"]
           ["talk-02.wav"; "intro.wav"; "talk-03.wav"; "talk-01.wav"; "talk.txt"]).
  - cbn. lia.
  - vm_compute. reflexivity.
  - apply (bool_decide_unpack _). vm_compute. exact I.
Defined.

(** ** What the timeline is made of *)

Lemma image_map_Some entries s img :
  image_map_of entries !! s = Some img →
  img ∈ glob ".png" entries ∧ stem img = s.
Proof.
  rewrite image_map_lookup. intros H%last_Some_elem_of.
  apply list_elem_of_filter in H as [Hs Hin].
  by rewrite py_sorted_perm in Hin.
Qed.

Lemma stem_clips_audio duration_of image_map audio_groups s img group :
  image_map !! s = Some img → audio_groups !! s = Some group →
  map clip_audio (stem_clips duration_of image_map audio_groups s)
  = (ordered_chunks group).*2.
Proof.
  intros E1 E2. unfold stem_clips. rewrite E1, E2, map_map.
  generalize (ordered_chunks group). intros l.
  induction l as [|[idx wav] l IH]; [done|].
  cbn [map fmap list_fmap]. by rewrite IH.
Qed.

Lemma stem_clips_names duration_of image_entries audio_entries s c :
  c ∈ stem_clips duration_of (image_map_of image_entries)
        (audio_groups_read audio_entries) s →
  clip_image c ∈ glob ".png" image_entries ∧
  clip_audio c ∈ glob ".wav" audio_entries ∧
  stem (clip_image c) = s ∧ base_of (clip_audio c) = s.
Proof.
  unfold stem_clips.
  destruct (image_map_of image_entries !! s) as [img|] eqn:E1;
    [|by intros ?%elem_of_nil].
  destruct (audio_groups_read audio_entries !! s) as [g|] eqn:E2;
    [|by intros ?%elem_of_nil].
  intros ([idx wav] & -> & Hin)%list_elem_of_fmap. cbn.
  apply image_map_Some in E1 as [Himg Hstem].
  apply audio_groups_Some in E2 as [_ ->].
  rewrite ordered_chunks_perm in Hin.
  apply elem_of_group_entries in Hin as [Hwav Hb].
  rewrite py_sorted_perm in Hwav.
  split_and!; [done..|]. unfold base_of. by rewrite Hb.
Qed.

Lemma assemble_clips i clips :
  assemble i = Ok clips →
  Forall (λ p, readable p = true) (glob ".wav" (audio_entries i)) ∧
  clips
  = concat (map (stem_clips (duration_of i) (image_map_of (image_entries i))
                   (audio_groups_read (audio_entries i)))
              (common_stems_of (set_order i) (image_map_of (image_entries i))
                 (audio_groups_read (audio_entries i)))).
Proof.
  unfold assemble.
  destruct (audio_groups_of (audio_entries i)) as [groups|e] eqn:E; [|done].
  apply audio_groups_of_Ok in E as [Hr ->]. cbn [mbind result_bind].
  destruct (negb _); [done|].
  by intros H%for_each_add_clips_Ok.
Qed.

(** X14. Every clip pairs files of one base name: its image is a scanned
    [*.png] file, its audio a scanned [*.wav] file, and the stem of the
    image is the base name read from the audio file. *)
Theorem clips_pair_matching_names (i : video_inputs) (clips : list clip) :
  assemble i = Ok clips →
  Forall (λ c, clip_image c ∈ glob ".png" (image_entries i) ∧
               clip_audio c ∈ glob ".wav" (audio_entries i) ∧
               ∃ idx, base_and_index (stem (clip_audio c))
                      = Ok (stem (clip_image c), idx))
    clips.
Proof.
  intros [Hr ->]%assemble_clips. rewrite Forall_forall in Hr.
  apply Forall_concat, Forall_map, Forall_forall.
  intros s _. apply Forall_forall. intros c Hc.
  apply stem_clips_names in Hc as (? & Hwav & Hs & Hb).
  split_and!; [done..|]. exists (index_of (clip_audio c)).
  specialize (Hr _ Hwav). apply readable_true in Hr. rewrite Hr, Hs, <-Hb.
  unfold base_of, index_of. by destruct (parts_of (clip_audio c)).
Qed.

Lemma clips_pair_matching_names_witness :
  Forall (λ c, clip_image c ∈ glob ".png" (image_entries sample_inputs) ∧
               clip_audio c ∈ glob ".wav" (audio_entries sample_inputs) ∧
               ∃ idx, base_and_index (stem (clip_audio c))
                      = Ok (stem (clip_image c), idx))
    [Clip "a.png" "a.wav" 5 1; Clip "intro.png" "intro.wav" 5 1;
     Clip "intro.png" "intro-01.wav" 5 1; Clip "intro.png" "intro-02.wav" 5 1].
Proof.
  apply (clips_pair_matching_names sample_inputs). vm_compute. reflexivity.
Defined.

Lemma filter_key_cons {A K} `{EqDecision K} (f : A → K) k ks (l : list A) :
  k ∉ ks →
  filter (λ x, f x ∈ k :: ks) l
  ≡ₚ filter (λ x, f x = k) l ++ filter (λ x, f x ∈ ks) l.
Proof.
  intros Hk. induction l as [|x l IH]; [done|]. rewrite !filter_cons.
  destruct (decide (f x = k)) as [E|E].
  - rewrite decide_True by (rewrite E; by left).
    rewrite decide_False by by rewrite E.
    cbn. by rewrite IH.
  - destruct (decide (f x ∈ ks)) as [Hin|Hin].
    + rewrite decide_True by by right.
      rewrite IH. apply Permutation_middle.
    + rewrite decide_False; [done|]. by intros [?|?]%elem_of_cons.
Qed.

Lemma audio_of_stems duration_of image_entries audio_entries ks :
  NoDup ks →
  Forall (λ s, s ∈ dom (image_map_of image_entries) ∧
               s ∈ dom (audio_groups_read audio_entries)) ks →
  map clip_audio
    (concat (map (stem_clips duration_of (image_map_of image_entries)
                    (audio_groups_read audio_entries)) ks))
  ≡ₚ filter (λ p, base_of p ∈ ks) (glob ".wav" audio_entries).
Proof.
  induction 1 as [|s ks Hs Hnd IH]; intros Hks.
  { cbn. induction (glob ".wav" audio_entries) as [|p l IHl]; [done|].
    rewrite filter_cons_False; [done|]. apply not_elem_of_nil. }
  apply Forall_cons in Hks as [[[img E1]%elem_of_dom [g E2]%elem_of_dom] Hks].
  cbn [map concat]. rewrite map_app, IH by done.
  rewrite (stem_clips_audio _ _ _ _ img g) by done.
  rewrite ordered_chunks_perm.
  apply audio_groups_Some in E2 as [_ ->].
  rewrite group_entries_paths.
  rewrite (filter_py_sorted _ _ string_leb_total string_leb_trans).
  rewrite py_sorted_perm. symmetry. by apply filter_key_cons.
Qed.

(** X15. Every matched audio file is played exactly once: when the clips
    are assembled, the index of every scanned [*.wav] file was read, and
    the audio files of the clips are, up to order, the scanned [*.wav]
    files whose base name is the stem of an image; no such file is left
    out, none is used twice, and no other file is used. *)
Theorem matched_audio_played_once (i : video_inputs) (clips : list clip) :
  (∀ X, set_order i X ≡ₚ elements X) →
  assemble i = Ok clips →
  Forall (λ p, base_and_index (stem p) = Ok (base_of p, index_of p))
    (glob ".wav" (audio_entries i)) ∧
  map clip_audio clips
  ≡ₚ filter (λ p, base_of p ∈ dom (image_map_of (image_entries i)))
       (glob ".wav" (audio_entries i)).
Proof.
  intros Horder [Hr ->]%assemble_clips. split.
  { eapply Forall_impl; [done|]. intros p Hp. apply readable_true in Hp.
    unfold base_of, index_of. by destruct (parts_of p). }
  set (im := image_map_of (image_entries i)).
  set (ag := audio_groups_read (audio_entries i)).
  set (ks := common_stems_of (set_order i) im ag).
  assert (∀ s, s ∈ ks ↔ s ∈ dom im ∧ s ∈ dom ag) as Hks.
  { intros s. by apply elem_of_common_stems. }
  subst ks im ag. etrans; [apply audio_of_stems|].
  - unfold common_stems_of. rewrite py_sorted_perm, Horder.
    apply NoDup_elements.
  - apply Forall_forall. intros s Hs. by apply Hks.
  - rewrite (filter_ext_in _
      (λ p, base_of p ∈ dom (image_map_of (image_entries i)))); [done|].
    intros p Hp. rewrite Hks. split; [by intros [? _]|]. intros Him.
    split; [done|]. apply elem_of_dom_audio_groups. by exists p.
Qed.

Lemma matched_audio_played_once_witness :
  Forall (λ p, base_and_index (stem p) = Ok (base_of p, index_of p))
    (glob ".wav" (audio_entries sample_inputs)) ∧
  map clip_audio
    [Clip "a.png" "a.wav" 5 1; Clip "intro.png" "intro.wav" 5 1;
     Clip "intro.png" "intro-01.wav" 5 1; Clip "intro.png" "intro-02.wav" 5 1]
  ≡ₚ filter (λ p, base_of p ∈ dom (image_map_of (image_entries sample_inputs)))
       (glob ".wav" (audio_entries sample_inputs)).
Proof.
  apply (matched_audio_played_once sample_inputs).
  - reflexivity.
  - vm_compute. reflexivity.
Defined.

(** ** The order in which the text directory is listed *)

(** X16. The order in which the file system lists the text directory
    does not matter: the files of a directory have distinct names, so
    [sorted] puts every listing of it in one order, and two runs that
    differ only in the listing order make the same calls, write the same
    files and return the same list. *)
Theorem synthesis_ignores_listing_order write_time entries1 entries2 suffix files :
  entries1 ≡ₚ entries2 →
  NoDup (map txt_name entries1) →
  synthesize_directory write_time (Some entries1) suffix files
  = synthesize_directory write_time (Some entries2) suffix files.
Proof.
  intros Hperm Hnd. unfold synthesize_directory. f_equal.
  apply (py_sorted_unique txt_name String.leb string_leb_total string_leb_trans).
  - apply string_leb_antisym.
  - intros x y [_ Hx]%list_elem_of_filter [_ Hy]%list_elem_of_filter Hxy.
    apply list_elem_of_lookup in Hx as [i Hi], Hy as [j Hj].
    assert (i = j) as ->; [|congruence].
    apply (NoDup_lookup (map txt_name entries1) i j (txt_name x)); [done|..].
    + by rewrite list_lookup_fmap, Hi.
    + by rewrite list_lookup_fmap, Hj, Hxy.
  - by rewrite Hperm.
Qed.

Lemma synthesis_ignores_listing_order_witness :
  synthesize_directory (λ _, 2%float) (Some sample_texts) ".wav" sample_audio
  = synthesize_directory (λ _, 2%float)
      (Some [TextFile "notes.md" "Not a text file." 1%float;
             TextFile "b.txt" "Second text. It has two sentences." 1%float;
             TextFile "a.txt" "First text." 1%float;
             TextFile "blank.txt" " " 1%float])
      ".wav" sample_audio.
Proof.
  apply synthesis_ignores_listing_order.
  - apply perm_swap.
  - apply (bool_decide_unpack _). vm_compute. exact I.
Defined.

(** ** Splitting a chunk again *)

Lemma is_terminator_nonspace c : is_terminator c = true → isspace c = false.
Proof.
  unfold is_terminator. rewrite !orb_true_iff.
  by intros [[->%Ascii.eqb_eq| ->%Ascii.eqb_eq]| ->%Ascii.eqb_eq].
Qed.

Lemma all_pairs_cons R c s :
  all_pairs R (String c s)
  = match s with String c' _ => R c c' | "" => true end && all_pairs R s.
Proof. by destruct s. Qed.

Lemma all_pairs_tail R c s : all_pairs R (String c s) = true → all_pairs R s = true.
Proof. rewrite all_pairs_cons. by intros [_ ?]%andb_true_iff. Qed.

Lemma last_nonspace_cons c s : s ≠ "" → last_nonspace (String c s) = last_nonspace s.
Proof. by destruct s. Qed.

Lemma last_nonspace_nonempty s : last_nonspace s = true → s ≠ "".
Proof. by destruct s. Qed.

Lemma first_nonspace_nonempty s : first_nonspace s = true → s ≠ "".
Proof. by destruct s. Qed.

Lemma append_nonempty_r a b : b ≠ "" → a +:+ b ≠ "".
Proof. destruct a; [by rewrite append_nil_l|by rewrite append_cons]. Qed.

Lemma last_nonspace_app a b : b ≠ "" → last_nonspace (a +:+ b) = last_nonspace b.
Proof.
  intros Hb. induction a as [|c a IH]; [by rewrite append_nil_l|].
  rewrite append_cons, last_nonspace_cons; [done|by apply append_nonempty_r].
Qed.

Lemma first_nonspace_app a b : a ≠ "" → first_nonspace (a +:+ b) = first_nonspace a.
Proof. destruct a; [done|]. by rewrite append_cons. Qed.

Lemma no_cr_app a b : no_cr (a +:+ b) = no_cr a && no_cr b.
Proof.
  induction a as [|c a IH]; [by rewrite append_nil_l|].
  rewrite append_cons. cbn [no_cr]. by rewrite IH, andb_assoc.
Qed.

Lemma all_pairs_app_space R a b :
  (∀ x, R x " "%char = true) → (∀ y, R " "%char y = true) →
  all_pairs R a = true → all_pairs R b = true →
  all_pairs R (a +:+ String " " b) = true.
Proof.
  intros Hl Hr Ha Hb. induction a as [|c a IH].
  - rewrite append_nil_l, all_pairs_cons, Hb. by destruct b; rewrite ?Hr.
  - rewrite append_cons, all_pairs_cons.
    rewrite IH by by eapply all_pairs_tail.
    rewrite all_pairs_cons in Ha. apply andb_true_iff in Ha as [Hc _].
    rewrite andb_true_r.
    destruct a as [|c' a]; [by rewrite append_nil_l|by rewrite append_cons].
Qed.

Lemma single_spaced_app_space b0 a b :
  single_spaced b0 a = true → last_nonspace a = true →
  first_nonspace b = true → single_spaced false b = true →
  single_spaced b0 (a +:+ String " " b) = true.
Proof.
  revert b0. induction a as [|c a IH]; intros b0 Ha Hlast Hfirst Hb; [done|].
  rewrite append_cons. cbn [single_spaced] in Ha |- *.
  destruct (b0 && isspace c) eqn:E.
  - apply andb_true_iff in Ha as [[Hc Hfa]%andb_true_iff Ha].
    assert (a ≠ "") as Hne by by apply first_nonspace_nonempty.
    rewrite last_nonspace_cons in Hlast by done.
    rewrite Hc, first_nonspace_app, Hfa by done.
    cbn [andb]. by apply IH.
  - destruct a as [|c' a].
    + rewrite append_nil_l. cbn [single_spaced].
      destruct (is_terminator c); cbn; [by rewrite Hfirst, Hb|done].
    + rewrite last_nonspace_cons in Hlast by done. by apply IH.
Qed.

Lemma settled_join g : g ≠ [] → Forall settled g → settled (join " " g).
Proof.
  intros Hne Hg. induction Hg as [|x g Hx Hg IH]; [done|].
  destruct g as [|y g]; [done|].
  rewrite join_cons2. specialize (IH ltac:(done)).
  change (" " +:+ join " " (y :: g)) with (String " " (join " " (y :: g))).
  destruct Hx, IH. split.
  - rewrite first_nonspace_app; [done|by apply first_nonspace_nonempty].
  - rewrite last_nonspace_app, last_nonspace_cons;
      [done|by apply last_nonspace_nonempty|done].
  - rewrite no_cr_app. cbn [no_cr]. by rewrite andb_true_iff.
  - by apply all_pairs_app_space; [intros c; destruct (Ascii.eqb c LF)|..].
  - by apply single_spaced_app_space.
Qed.

(** Words are settled. *)
Lemma unbroken_single_spaced s b :
  unbroken s = true → (b = true → s = "" ∨ first_nonspace s = true) →
  single_spaced b s = true.
Proof.
  revert b. induction s as [|c s IH]; intros b Hs Hb; [done|].
  cbn [single_spaced]. destruct (b && isspace c) eqn:E.
  - apply andb_true_iff in E as [-> Hc].
    destruct Hb as [?|Hf]; [done..|]. cbn in Hf. by rewrite Hc in Hf.
  - unfold unbroken in Hs. apply IH; [by eapply all_pairs_tail|].
    intros Ht. rewrite all_pairs_cons in Hs. destruct s as [|c' s]; [by left|].
    right. rewrite Ht in Hs. cbn. by destruct (isspace c').
Qed.

Lemma atom_chars w :
  scan_words w = (w, []) →
  (w ≠ "" → first_nonspace w = true ∧ last_nonspace w = true) ∧
  no_cr w = true ∧ no_blank_line w = true ∧ unbroken w = true.
Proof.
  induction w as [|c w IH]; [done|].
  rewrite scan_words_cons. unfold scan_step.
  destruct (scan_words w) as [w1 ws1]. cbn [fst snd].
  destruct (isspace c) eqn:Ec; [done|]. intros [= -> ->].
  destruct (IH eq_refl) as (Hends & Hcr & Hbl & Hub).
  assert (c ≠ CR) as Hc1 by (by intros ->).
  assert (c ≠ LF) as Hc2 by (by intros ->).
  split_and!.
  - intros _. cbn [first_nonspace]. rewrite Ec. split; [done|].
    destruct w as [|c' w]; [by cbn; rewrite Ec|].
    rewrite last_nonspace_cons by done. by apply Hends.
  - cbn [no_cr]. by rewrite (proj2 (Ascii.eqb_neq c CR)).
  - unfold no_blank_line in *. rewrite all_pairs_cons, Hbl.
    rewrite (proj2 (Ascii.eqb_neq c LF)) by done. by destruct w.
  - unfold unbroken in *. rewrite all_pairs_cons, Hub.
    destruct w as [|c' w]; [done|].
    destruct Hends as [Hf _]; [done|]. cbn in Hf.
    destruct (isspace c'); [done|]. by rewrite andb_false_r.
Qed.

Lemma atom_settled w : atom w → settled w.
Proof.
  intros [Hne Hw]. destruct (atom_chars w Hw) as (Hends & Hcr & Hbl & Hub).
  destruct (Hends Hne) as [Hf Hl]. split; [done..|].
  by apply unbroken_single_spaced.
Qed.

(** Sentences are settled. *)
Lemma cons_hd_hd c l : cons_hd c l = String c (hd "" l) :: tail l.
Proof. by destruct l. Qed.

Lemma re_split_go_outside_cons b c s :
  (b && isspace c) = false →
  re_split_go (Outside b) (String c s)
  = cons_hd c (re_split_go (Outside (is_terminator c)) s).
Proof. cbn [re_split_go]. destruct b; [|done]. cbn [andb]. by intros ->. Qed.

Lemma no_cr_replace_char s : no_cr (replace_char CR (String LF "") s) = true.
Proof.
  induction s as [|c s IH]; [done|]. cbn [replace_char].
  destruct (Ascii.eqb_spec c CR) as [->|Hc].
  - by rewrite append_cons, append_nil_l.
  - cbn [no_cr]. by rewrite (proj2 (Ascii.eqb_neq c CR)).
Qed.

Lemma no_cr_lstrip s : no_cr s = true → no_cr (lstrip s) = true.
Proof.
  induction s as [|c s IH]; [done|]. cbn [lstrip]. destruct (isspace c); [|done].
  cbn [no_cr]. intros [_ ?]%andb_true_iff. by apply IH.
Qed.

Lemma no_cr_rstrip s : no_cr s = true → no_cr (rstrip s) = true.
Proof.
  induction s as [|c s IH]; [done|]. cbn [no_cr rstrip].
  intros [Hc Hs]%andb_true_iff. specialize (IH Hs).
  destruct (rstrip s); [destruct (isspace c)|]; cbn [no_cr] in *; by rewrite ?Hc.
Qed.

Lemma all_pairs_lstrip R s : all_pairs R s = true → all_pairs R (lstrip s) = true.
Proof.
  induction s as [|c s IH]; [done|]. cbn [lstrip]. destruct (isspace c); [|done].
  intros ?%all_pairs_tail. by apply IH.
Qed.

Lemma all_pairs_rstrip_cons R c0 s :
  all_pairs R (String c0 s) = true → all_pairs R (String c0 (rstrip s)) = true.
Proof.
  revert c0. induction s as [|c s IH]; intros c0; [done|].
  rewrite all_pairs_cons. intros [Hc Hs]%andb_true_iff. apply IH in Hs.
  cbn [rstrip]. destruct (rstrip s) eqn:E.
  - destruct (isspace c); [done|]. by rewrite all_pairs_cons, Hc.
  - by rewrite all_pairs_cons, Hc, Hs.
Qed.

Lemma all_pairs_rstrip R s : all_pairs R s = true → all_pairs R (rstrip s) = true.
Proof.
  destruct s as [|c s]; [done|]. intros Hs%all_pairs_rstrip_cons.
  cbn [rstrip]. destruct (rstrip s); [by destruct (isspace c)|done].
Qed.

Lemma no_cr_split_pair a b s :
  no_cr s = true → Forall (λ p, no_cr p = true) (split_pair a b s).
Proof.
  cut ((no_cr s = true → Forall (λ p, no_cr p = true) (split_pair a b s)) ∧
       ∀ c, no_cr (String c s) = true →
            Forall (λ p, no_cr p = true) (split_pair a b (String c s))).
  { by intros [? _]. }
  induction s as [|x s [IH1 IH2]].
  - split; [by repeat constructor|]. intros c Hc. by repeat constructor.
  - split; [apply IH2|]. intros c Hc.
    change (split_pair a b (String c (String x s)))
      with (if Ascii.eqb c a && Ascii.eqb x b
            then "" :: split_pair a b s
            else cons_hd c (split_pair a b (String x s))).
    cbn [no_cr] in Hc. apply andb_true_iff in Hc as [Hc Hxs].
    destruct (Ascii.eqb c a && Ascii.eqb x b).
    + constructor; [done|]. apply IH1. by apply andb_true_iff in Hxs as [_ ?].
    + rewrite cons_hd_hd. specialize (IH2 x Hxs).
      destruct (split_pair a b (String x s)) as [|h t]; cbn [hd tail].
      * constructor; [|done]. cbn [no_cr]. by rewrite Hc.
      * apply Forall_cons in IH2 as [Hh Ht]. constructor; [|done].
        cbn [no_cr]. by rewrite Hc.
Qed.

Lemma no_blank_line_split_pair s :
  Forall (λ p, no_blank_line p = true) (split_pair LF LF s).
Proof.
  set (R := λ c c', negb (Ascii.eqb c LF && Ascii.eqb c' LF)).
  set (Q := λ s,
    Forall (λ p, all_pairs R p = true) (split_pair LF LF s) ∧
    ∀ c0, match s with String y _ => R c0 y | "" => true end = true →
          all_pairs R (String c0 (hd "" (split_pair LF LF s))) = true).
  cut (Q s ∧ ∀ c, Q (String c s)); [by intros [[? _] _]|].
  induction s as [|x s [IH1 IH2]].
  - split; [by split; [repeat constructor|]|]. intros c. split.
    + by repeat constructor.
    + intros c0 Hc0. cbn [split_pair hd]. by rewrite all_pairs_cons, Hc0.
  - split; [apply IH2|]. intros c. unfold Q.
    change (split_pair LF LF (String c (String x s)))
      with (if Ascii.eqb c LF && Ascii.eqb x LF
            then "" :: split_pair LF LF s
            else cons_hd c (split_pair LF LF (String x s))).
    destruct (Ascii.eqb c LF && Ascii.eqb x LF) eqn:E.
    + split; [|done]. constructor; [done|]. apply IH1.
    + destruct (IH2 x) as [Hall Hhd]. rewrite cons_hd_hd. cbn [hd].
      assert (all_pairs R (String c (hd "" (split_pair LF LF (String x s))))
              = true) as Hc.
      { apply Hhd. unfold R. by rewrite E. }
      split.
      * constructor; [done|].
        destruct (split_pair LF LF (String x s)); [done|].
        by apply Forall_cons in Hall as [_ ?].
      * intros c0 Hc0. by rewrite all_pairs_cons, Hc0, Hc.
Qed.

Lemma no_cr_re_split_go s m :
  no_cr s = true → Forall (λ p, no_cr p = true) (re_split_go m s).
Proof.
  revert m. induction s as [|c s IH]; intros m; [by repeat constructor|].
  cbn [no_cr]. intros [Hc Hs]%andb_true_iff.
  assert (∀ m', Forall (λ p, no_cr p = true) (cons_hd c (re_split_go m' s)))
    as Hkeep.
  { intros m'. rewrite cons_hd_hd. specialize (IH m' Hs).
    destruct (re_split_go m' s) as [|h t]; cbn [hd tail].
    - constructor; [|done]. cbn [no_cr]. by rewrite Hc.
    - apply Forall_cons in IH as [Hh Ht]. constructor; [|done].
      cbn [no_cr]. by rewrite Hc. }
  cbn [re_split_go]. destruct m as [|[]]; [| |done];
    (destruct (isspace c); [|done]); [by apply IH|].
  constructor; [done|by apply IH].
Qed.

Lemma all_pairs_re_split_go R s m :
  all_pairs R s = true →
  Forall (λ p, all_pairs R p = true) (re_split_go m s) ∧
  (m ≠ InSeparator → ∀ c0,
     all_pairs R (String c0 s) = true →
     all_pairs R (String c0 (hd "" (re_split_go m s))) = true).
Proof.
  revert m. induction s as [|c s IH]; intros m Hs.
  { split; [by repeat constructor|done]. }
  assert (all_pairs R s = true) as Hs' by by eapply all_pairs_tail.
  assert (∀ b,
    Forall (λ p, all_pairs R p = true) (cons_hd c (re_split_go (Outside b) s)) ∧
    ∀ c0, all_pairs R (String c0 (String c s)) = true →
          all_pairs R (String c0 (hd "" (cons_hd c (re_split_go (Outside b) s))))
          = true) as Hkeep.
  { intros b. destruct (IH (Outside b) Hs') as [Hall Hhd].
    rewrite cons_hd_hd. cbn [hd].
    assert (all_pairs R (String c (hd "" (re_split_go (Outside b) s))) = true)
      as Hc by by apply Hhd.
    split.
    - constructor; [done|]. destruct (re_split_go (Outside b) s); [done|].
      by apply Forall_cons in Hall as [_ ?].
    - intros c0. rewrite (all_pairs_cons R c0 (String c s)).
      intros [Hc0 _]%andb_true_iff. by rewrite all_pairs_cons, Hc0, Hc. }
  assert (
    Forall (λ p, all_pairs R p = true) ("" :: re_split_go InSeparator s) ∧
    ∀ c0 : ascii, all_pairs R (String c0 (hd "" ("" :: re_split_go InSeparator s)))
                  = true) as Hsplit.
  { split; [|done]. constructor; [done|]. by apply IH. }
  cbn [re_split_go]. destruct m as [|[]].
  - destruct (isspace c).
    + split; [by apply IH|done].
    + split; [apply Hkeep|]. intros _. apply Hkeep.
  - destruct (isspace c).
    + split; [apply Hsplit|]. intros _ c0 _. apply Hsplit.
    + split; [apply Hkeep|]. intros _. apply Hkeep.
  - split; [apply Hkeep|]. intros _. apply Hkeep.
Qed.

Lemma unbroken_re_split_go s m :
  Forall (λ p, unbroken p = true) (re_split_go m s) ∧
  ∀ b c0, m = Outside b → (is_terminator c0 = true → b = true) →
          unbroken (String c0 (hd "" (re_split_go m s))) = true.
Proof.
  revert m. induction s as [|c s IH]; intros m.
  { split; [by repeat constructor|done]. }
  assert (
    Forall (λ p, unbroken p = true)
      (cons_hd c (re_split_go (Outside (is_terminator c)) s)) ∧
    ∀ c0, (is_terminator c0 && isspace c) = false →
          unbroken (String c0 (hd "" (cons_hd c
                      (re_split_go (Outside (is_terminator c)) s)))) = true)
    as Hkeep.
  { destruct (IH (Outside (is_terminator c))) as [Hall Hhd].
    rewrite cons_hd_hd. cbn [hd].
    assert (unbroken (String c (hd "" (re_split_go (Outside (is_terminator c)) s)))
            = true) as Hc by by eapply Hhd.
    split.
    - constructor; [done|].
      destruct (re_split_go (Outside (is_terminator c)) s); [done|].
      by apply Forall_cons in Hall as [_ ?].
    - intros c0 Hc0. unfold unbroken in *. by rewrite all_pairs_cons, Hc0, Hc. }
  cbn [re_split_go]. destruct m as [|[]].
  - destruct (isspace c).
    + split; [by apply IH|done].
    + split; [apply Hkeep|done].
  - destruct (isspace c) eqn:Ec.
    + split; [|done]. constructor; [done|]. by apply IH.
    + split; [apply Hkeep|]. intros b c0 _ _. apply Hkeep.
      by rewrite andb_false_r.
  - split; [apply Hkeep|]. intros b c0 [= <-] Hc0. apply Hkeep.
    destruct (is_terminator c0); [by discriminate Hc0|done].
Qed.

Lemma rstrip_last s : rstrip s = "" ∨ last_nonspace (rstrip s) = true.
Proof.
  induction s as [|c s IH]; [by left|]. cbn [rstrip].
  destruct (rstrip s) as [|c' r] eqn:E.
  - destruct (isspace c) eqn:Ec; [by left|]. right. cbn. by rewrite Ec.
  - right. rewrite last_nonspace_cons by done. by destruct IH.
Qed.

Lemma lstrip_last s : last_nonspace s = true → last_nonspace (lstrip s) = true.
Proof.
  induction s as [|c s IH]; [done|]. cbn [lstrip].
  destruct (isspace c) eqn:Ec; [|done]. destruct s as [|c' s].
  - cbn. by rewrite Ec.
  - rewrite last_nonspace_cons by done. apply IH.
Qed.

Lemma strip_ends s :
  nonempty (strip s) = true →
  first_nonspace (strip s) = true ∧ last_nonspace (strip s) = true.
Proof.
  unfold strip. intros Hne. split.
  - destruct (lstrip (rstrip s)) as [|c r] eqn:E; [done|].
    apply lstrip_head in E. cbn. by rewrite E.
  - apply lstrip_last. destruct (rstrip_last s) as [E|?]; [|done].
    by rewrite E in Hne.
Qed.

Lemma rstrip_settled s : last_nonspace s = true → rstrip s = s.
Proof.
  induction s as [|c s IH]; [done|]. destruct s as [|c' s].
  - cbn. by destruct (isspace c).
  - rewrite last_nonspace_cons by done. intros Hs.
    change (rstrip (String c (String c' s)))
      with (match rstrip (String c' s) with
            | "" => if isspace c then "" else String c ""
            | r => String c r
            end).
    by rewrite IH.
Qed.

Lemma strip_settled s :
  first_nonspace s = true → last_nonspace s = true → strip s = s.
Proof.
  intros Hf Hl. unfold strip. rewrite rstrip_settled by done.
  destruct s as [|c s]; [done|]. cbn in *. by destruct (isspace c).
Qed.

Lemma paragraphs_clean text :
  Forall (λ p, no_cr p = true ∧ no_blank_line p = true) (paragraphs_of text).
Proof.
  unfold paragraphs_of. apply Forall_forall.
  intros p [_ [q [-> Hq]]%list_elem_of_fmap]%list_elem_of_filter.
  pose proof (no_cr_split_pair LF LF (normalize text)
                (no_cr_replace_char _)) as H1.
  pose proof (no_blank_line_split_pair (normalize text)) as H2.
  rewrite Forall_forall in H1, H2. unfold strip. split.
  - by apply no_cr_lstrip, no_cr_rstrip, H1.
  - by apply all_pairs_lstrip, all_pairs_rstrip, H2.
Qed.

Lemma sentences_settled p :
  no_cr p = true → no_blank_line p = true → Forall settled (sentences_of p).
Proof.
  intros Hcr Hbl. unfold sentences_of, re_split_sentences. apply Forall_forall.
  intros s [Hne [q [-> Hq]]%list_elem_of_fmap]%list_elem_of_filter.
  apply Is_true_true in Hne. destruct (strip_ends q Hne) as [Hf Hl].
  pose proof (no_cr_re_split_go p (Outside false) Hcr) as H1.
  destruct (all_pairs_re_split_go _ p (Outside false) Hbl) as [H2 _].
  destruct (unbroken_re_split_go p (Outside false)) as [H3 _].
  rewrite Forall_forall in H1, H2, H3. split; [done|done|..].
  - by apply no_cr_lstrip, no_cr_rstrip, H1.
  - by apply all_pairs_lstrip, all_pairs_rstrip, H2.
  - apply unbroken_single_spaced; [|done].
    by apply all_pairs_lstrip, all_pairs_rstrip, H3.
Qed.

Lemma all_sentences_settled text : Forall settled (all_sentences text).
Proof.
  unfold all_sentences. apply Forall_concat, Forall_map.
  eapply Forall_impl; [apply paragraphs_clean|].
  intros p [? ?]. by apply sentences_settled.
Qed.

(** Chunks are settled. *)
Lemma windows_settled max_words (l : list string) :
  1 ≤ max_words → l ≠ [] → Forall atom l →
  Forall settled
    (map (join " ")
       (windows (Z.to_nat max_words)
          (window_count (Z.to_nat max_words) (length l)) l)).
Proof.
  intros Hmw Hne Hl. apply Forall_map, Forall_forall.
  intros w [k Hk]%list_elem_of_lookup.
  assert (0 < length l)%nat as Hlen by (destruct l; [done|cbn; lia]).
  destruct (windows_sizes (Z.to_nat max_words) l k w ltac:(lia) Hlen Hk)
    as [[Hw _] _].
  apply windows_lookup in Hk as [_ ->]. apply settled_join.
  - intros E. rewrite E in Hw. cbn in Hw. lia.
  - eapply Forall_impl; [by apply Forall_take, Forall_drop|].
    apply atom_settled.
Qed.

Lemma pack_sentence_settled max_words st sentence st' :
  1 ≤ max_words → settled sentence →
  Forall settled (chunks st) → Forall settled (current_sentences st) →
  pack_sentence max_words st sentence = Ok st' →
  Forall settled (chunks st') ∧ Forall settled (current_sentences st').
Proof.
  intros Hmw Hs Hch Hcur.
  assert (truthy (current_sentences st) = true →
          settled (join " " (current_sentences st))) as Hjoin.
  { intros Ht%truthy_true. by apply settled_join. }
  destruct (decide (max_words < Z.of_nat (length (split_ws sentence)))) as [Hbig|Hfit].
  { rewrite pack_sentence_oversized by done. intros [= <-].
    cbn [chunks current_sentences]. split; [|done].
    rewrite !Forall_app. split_and!; [done| |].
    - destruct (truthy (current_sentences st)) eqn:Ht; [|done].
      constructor; [by apply Hjoin|done].
    - apply windows_settled; [done| |apply split_ws_atoms].
      intros E. rewrite E in Hbig. cbn in Hbig. lia. }
  unfold pack_sentence.
  destruct (Z.eqb_spec (Z.of_nat (length (split_ws sentence))) 0) as [Hz|Hnz].
  { by intros [= <-]. }
  rewrite (proj2 (Z.ltb_ge _ _)) by lia.
  destruct (_ && _) eqn:Hclose; intros [= <-]; cbn [chunks current_sentences].
  - apply andb_true_iff in Hclose as [_ Ht]. split.
    + rewrite Forall_app. split; [done|]. constructor; [by apply Hjoin|done].
    + by constructor.
  - split; [done|]. rewrite Forall_app. split; [done|]. by constructor.
Qed.

Lemma pack_all_settled max_words ss st st' :
  1 ≤ max_words → Forall settled ss →
  Forall settled (chunks st) → Forall settled (current_sentences st) →
  for_each (pack_sentence max_words) ss st = Ok st' →
  Forall settled (chunks st') ∧ Forall settled (current_sentences st').
Proof.
  intros Hmw Hss. revert st. induction Hss as [|s ss Hs Hss IH]; intros st Hch Hcur.
  { by intros [= <-]. }
  cbn [for_each]. destruct (pack_sentence max_words st s) as [st1|e] eqn:E; [|done].
  cbn [mbind result_bind].
  destruct (pack_sentence_settled _ _ _ _ Hmw Hs Hch Hcur E). by apply IH.
Qed.

Lemma split_text_settled text max_words cs :
  1 ≤ max_words → _split_text text max_words = Ok cs → Forall settled cs.
Proof.
  intros Hmw. rewrite split_text_unfold.
  destruct (for_each _ _ _) as [st|e] eqn:E; [|done].
  cbn [mbind result_bind]. intros [= <-].
  destruct (pack_all_settled _ _ _ _ Hmw (all_sentences_settled text)
              (Forall_nil_2 _ : Forall _ (chunks (Packer [] [] 0)))
              (Forall_nil_2 _ : Forall _ (current_sentences (Packer [] [] 0))) E)
    as [Hch Hcur].
  destruct (truthy (current_sentences st)) eqn:Ht; [|done].
  rewrite Forall_app. split; [done|]. constructor; [|done].
  by apply settled_join; [apply truthy_true|].
Qed.

(** A settled text is one paragraph, and joining its sentences by single
    spaces gives it back. *)
Lemma split_pair_no_blank_line s :
  no_blank_line s = true → split_pair LF LF s = [s].
Proof.
  induction s as [|c s IH]; [done|]. destruct s as [|c' s]; [done|].
  unfold no_blank_line. rewrite all_pairs_cons.
  intros [Hc Hs]%andb_true_iff.
  change (split_pair LF LF (String c (String c' s)))
    with (if Ascii.eqb c LF && Ascii.eqb c' LF
          then "" :: split_pair LF LF s
          else cons_hd c (split_pair LF LF (String c' s))).
  apply negb_true_iff in Hc. by rewrite Hc, IH.
Qed.

Lemma paragraphs_of_settled c : settled c → paragraphs_of c = [c].
Proof.
  intros [Hf Hl Hcr Hbl _]. unfold paragraphs_of.
  rewrite normalize_no_cr, split_pair_no_blank_line by done.
  cbn [map]. rewrite strip_settled by done.
  rewrite filter_cons_True; [done|].
  apply Is_true_true. by destruct c.
Qed.

Lemma re_split_go_first_nonspace s :
  first_nonspace s = true →
  re_split_go InSeparator s = re_split_go (Outside false) s.
Proof. destruct s as [|c s]; [done|]. cbn. by destruct (isspace c). Qed.

Lemma re_split_go_nonempty m s : re_split_go m s ≠ [].
Proof.
  revert m. induction s as [|c s IH]; intros m; [done|].
  assert (∀ l, cons_hd c l ≠ []) as Hcons by by intros [].
  cbn [re_split_go]. destruct m as [|[]]; [| |done];
    (destruct (isspace c); [|done]); [apply IH|done].
Qed.

Lemma join_cons_hd c l : l ≠ [] → join " " (cons_hd c l) = String c (join " " l).
Proof.
  destruct l as [|x [|y l]]; [done|done|]. intros _.
  cbn [cons_hd]. by rewrite !join_cons2, append_cons.
Qed.

Lemma join_re_split_go s b :
  single_spaced b s = true → join " " (re_split_go (Outside b) s) = s.
Proof.
  revert b. induction s as [|c s IH]; intros b; [done|].
  cbn [single_spaced]. destruct (b && isspace c) eqn:E.
  - intros [[->%Ascii.eqb_eq Hf]%andb_true_iff Hs]%andb_true_iff.
    apply andb_true_iff in E as [-> _]. cbn [re_split_go isspace].
    change (isspace " ") with true. cbn match.
    rewrite re_split_go_first_nonspace by done.
    pose proof (re_split_go_nonempty (Outside false) s) as Hne.
    specialize (IH false Hs).
    destruct (re_split_go (Outside false) s) as [|x l]; [done|].
    by rewrite join_cons2, append_nil_l, IH.
  - intros Hs. rewrite re_split_go_outside_cons by done.
    rewrite join_cons_hd by apply re_split_go_nonempty. by rewrite IH.
Qed.

Lemma re_split_go_trimmed s b :
  last_nonspace s = true → single_spaced b s = true →
  Forall (λ p, first_nonspace p = true ∧ last_nonspace p = true)
    (tail (re_split_go (Outside b) s)) ∧
  ((if b then hd "" (re_split_go (Outside b) s) = "" else False) ∨
   last_nonspace (hd "" (re_split_go (Outside b) s)) = true).
Proof.
  revert b. induction s as [|c s IH]; intros b Hl; [done|].
  cbn [single_spaced]. destruct (b && isspace c) eqn:E.
  - intros [[->%Ascii.eqb_eq Hf]%andb_true_iff Hs]%andb_true_iff.
    apply andb_true_iff in E as [-> _]. cbn [re_split_go].
    change (isspace " ") with true. cbn match. cbn [hd tail].
    split; [|by left].
    rewrite re_split_go_first_nonspace by done.
    rewrite last_nonspace_cons in Hl by by apply first_nonspace_nonempty.
    destruct (IH false Hl Hs) as [Htl [[]|Hhd]].
    destruct s as [|c' s]; [done|]. cbn in Hf.
    rewrite re_split_go_outside_cons in * by done.
    rewrite cons_hd_hd in *. cbn [hd tail] in *. by constructor.
  - intros Hs. rewrite re_split_go_outside_cons by done.
    rewrite cons_hd_hd. cbn [hd tail]. destruct s as [|c' s].
    + split; [done|]. by right.
    + rewrite last_nonspace_cons in Hl by done.
      destruct (IH _ Hl Hs) as [Htl Hhd]. split; [done|]. right.
      destruct (hd "" (re_split_go (Outside (is_terminator c)) (String c' s)))
        as [|x h] eqn:Eh.
      * destruct (is_terminator c) eqn:Ec; [|by destruct Hhd].
        cbn. by rewrite is_terminator_nonspace.
      * rewrite last_nonspace_cons by done. by destruct Hhd as [Hhd|Hhd]; [destruct (is_terminator c)|].
Qed.

Lemma sentences_of_settled c :
  settled c → sentences_of c = re_split_sentences c.
Proof.
  intros [Hf Hl _ _ Hs]. unfold sentences_of, re_split_sentences.
  assert (Forall (λ p, first_nonspace p = true ∧ last_nonspace p = true)
            (re_split_go (Outside false) c)) as Hall.
  { destruct c as [|x c]; [done|]. cbn in Hf.
    destruct (re_split_go_trimmed _ _ Hl Hs) as [Htl [[]|Hhd]].
    rewrite re_split_go_outside_cons in * by done.
    rewrite cons_hd_hd in *. cbn [hd tail] in *. constructor; [|done].
    split; [|done]. cbn. done. }
  induction Hall as [|p l [Hp1 Hp2] _ IH]; [done|].
  cbn [map]. rewrite strip_settled by done. rewrite filter_cons_True, IH; [done|].
  apply Is_true_true. by destruct p.
Qed.

Lemma all_sentences_settled_join c :
  settled c → join " " (all_sentences c) = c.
Proof.
  intros Hc. unfold all_sentences.
  rewrite paragraphs_of_settled by done. cbn [map concat].
  rewrite app_nil_r, sentences_of_settled by done.
  apply join_re_split_go. by destruct Hc.
Qed.

(** While everything fits into one chunk, the sentences are collected. *)
Lemma pack_sentence_fits max_words st s :
  split_ws s ≠ [] → 0 ≤ word_count st →
  word_count st + Z.of_nat (length (split_ws s)) ≤ max_words →
  pack_sentence max_words st s
  = Ok (Packer (chunks st) (current_sentences st ++ [s])
          (word_count st + Z.of_nat (length (split_ws s)))).
Proof.
  intros Hs Hwc Hfit. unfold pack_sentence.
  assert (0 < Z.of_nat (length (split_ws s))) as Hn.
  { destruct (split_ws s); [done|]. cbn. lia. }
  rewrite (proj2 (Z.eqb_neq _ _)) by lia.
  rewrite (proj2 (Z.ltb_ge _ _)) by lia.
  by rewrite (proj2 (Z.ltb_ge max_words _)) by lia.
Qed.

Lemma pack_all_collected max_words ss st :
  chunks st = [] → 0 ≤ word_count st →
  Forall (λ s, split_ws s ≠ []) ss →
  word_count st + Z.of_nat (length (words_in ss)) ≤ max_words →
  ∃ wc, for_each (pack_sentence max_words) ss st
        = Ok (Packer [] (current_sentences st ++ ss) wc).
Proof.
  intros Hch Hwc Hss. revert st Hch Hwc.
  induction Hss as [|s ss Hs Hss IH]; intros st Hch Hwc Hfit.
  { exists (word_count st). cbn. rewrite app_nil_r. by destruct st; simplify_eq/=. }
  change (words_in (s :: ss)) with (split_ws s ++ words_in ss) in Hfit.
  rewrite length_app in Hfit. cbn [for_each].
  rewrite pack_sentence_fits by (done || lia). cbn [mbind result_bind].
  destruct (IH (Packer (chunks st) (current_sentences st ++ [s])
                  (word_count st + Z.of_nat (length (split_ws s)))))
    as [wc Hwc']; [done|cbn; lia..|].
  exists wc. rewrite Hwc'. cbn. by rewrite <-app_assoc.
Qed.

(** X5. Paragraph breaks do not close a chunk: a text of at least one
    and at most [max_words] words is returned as one chunk, which is made
    of the sentences of all its paragraphs, in order, joined by single
    spaces. *)
Theorem split_text_joins_paragraphs text max_words :
  split_ws text ≠ [] →
  Z.of_nat (length (split_ws text)) ≤ max_words →
  _split_text text max_words
  = Ok [join " " (concat (map sentences_of (paragraphs_of text)))].
Proof.
  intros Hne Hfit. rewrite split_text_unfold.
  destruct (pack_all_collected max_words (all_sentences text) (Packer [] [] 0))
    as [wc E]; [done|done|apply all_sentences_have_words|..].
  { cbn. by rewrite words_all_sentences. }
  rewrite E. cbn [mbind result_bind current_sentences chunks app].
  fold (all_sentences text).
  destruct (all_sentences text) as [|s ss] eqn:Es; [|done].
  by rewrite <-words_all_sentences, Es in Hne.
Qed.

Lemma split_text_joins_paragraphs_witness :
  _split_text
    ("One.  Two three." +:+ String LF (String LF "Four five.") +:+
     String LF (String LF "Six")) 10
  = Ok [join " "
          (concat (map sentences_of
             (paragraphs_of
                ("One.  Two three." +:+ String LF (String LF "Four five.") +:+
                 String LF (String LF "Six")))))].
Proof.
  apply split_text_joins_paragraphs.
  - vm_compute. discriminate.
  - vm_compute. discriminate.
Defined.

Example example_paragraphs_are_joined :
  _split_text
    ("One.  Two three." +:+ String LF (String LF "Four five.") +:+
     String LF (String LF "Six")) 10
  = Ok ["One. Two three. Four five. Six"].
Proof. vm_compute. reflexivity. Qed.

(** X17. Splitting is idempotent: for a limit of at least 1, every chunk
    that [_split_text] returns is split, under the same limit, into that
    chunk alone; nothing in it is cut, merged or respaced. *)
Theorem split_text_idempotent text max_words cs c :
  1 ≤ max_words →
  _split_text text max_words = Ok cs → c ∈ cs →
  _split_text c max_words = Ok [c].
Proof.
  intros Hmw Hcs Hc.
  assert (settled c) as Hset.
  { pose proof (split_text_settled _ _ _ Hmw Hcs) as H.
    rewrite Forall_forall in H. by apply H. }
  assert (Z.of_nat (length (split_ws c)) ≤ max_words) as Hfit.
  { destruct (split_text_ok text max_words Hmw) as (cs' & E & _ & Hb).
    rewrite Hcs in E. injection E as <-. rewrite Forall_forall in Hb.
    by apply Hb. }
  rewrite split_text_unfold.
  destruct (pack_all_collected max_words (all_sentences c) (Packer [] [] 0))
    as [wc E]; [done|done|apply all_sentences_have_words|..].
  { cbn. by rewrite words_all_sentences. }
  rewrite E. cbn [mbind result_bind current_sentences chunks app].
  pose proof (all_sentences_settled_join c Hset) as Hjoin.
  destruct (all_sentences c) as [|s ss] eqn:Es.
  - cbn in Hjoin. subst c. by destruct Hset.
  - cbn [truthy]. by rewrite Hjoin.
Qed.

Lemma split_text_idempotent_witness :
  _split_text "Four five. Six" 3 = Ok ["Four five. Six"].
Proof.
  apply (split_text_idempotent "One two three. Four five. Six" 3
           ["One two three."; "Four five. Six"]).
  - lia.
  - vm_compute. reflexivity.
  - right. left.
Defined.

(** X18. Chunks are clean: for a limit of at least 1, every returned
    chunk is trimmed (stripping changes nothing), holds no carriage return
    (normalizing the line ends changes nothing) and no blank line (it is
    one paragraph, itself). *)
Theorem split_text_chunks_clean text max_words cs :
  1 ≤ max_words →
  _split_text text max_words = Ok cs →
  Forall (λ c, strip c = c ∧ normalize c = c ∧ paragraphs_of c = [c]) cs.
Proof.
  intros Hmw Hcs. eapply Forall_impl; [by eapply split_text_settled|].
  intros c Hc. split_and!.
  - by destruct Hc; apply strip_settled.
  - by destruct Hc; apply normalize_no_cr.
  - by apply paragraphs_of_settled.
Qed.

Lemma split_text_chunks_clean_witness :
  Forall (λ c, strip c = c ∧ normalize c = c ∧ paragraphs_of c = [c])
    ["One two"; "three."; "Four five."].
Proof.
  apply (split_text_chunks_clean
           (String CR (String LF " One two three.  Four" +:+ String LF (String LF "five. ")))
           2).
  - lia.
  - vm_compute. reflexivity.
Defined.
